(** * AnimImage / GIFDecoder: the growable vector and the LZW decoder

    A shallow embedding of [myvector.c] (the [myv_*] bookkeeping) and of
    [LZWAlgorythm] (the version of GIFDecoder.c that returns its own output
    vector), followed by the properties of the decoder's specification.

    Conventions of the embedding.
    - C integers are [Z] with the wrap-around of their type written out:
      [u16] for [uint16_t], [u32] for [unsigned int], [usz] for [size_t]
      (taken as 64 bits wide).
    - [bytes] is the memory seen through the pointer argument: [bytes i] is
      the byte stored at address [bytes + i].  The decoder copies three bytes
      at [bytes + ind] without comparing [ind + 2] with [len], so what lies
      after the first [len] bytes is part of what it computes from.
    - [calloc] and [realloc] are taken to succeed inside the decoder (it
      never tests their result); in [MyVector] their answer is an argument.
    - The decoder's output vector has the counters of its [struct myvector]:
      the element count is the length of [lzw_codes], cut to an
      [unsigned int] at every append, and [codes_alloc] is its capacity. *)

From Stdlib Require Import ZArith List Bool Lia.
Import ListNotations.
Local Open Scope Z_scope.

Definition u16 (x : Z) : Z := x mod 2 ^ 16.
Definition u32 (x : Z) : Z := x mod 2 ^ 32.
Definition usz (x : Z) : Z := x mod 2 ^ 64.

(* ===================================================================== *)
(** ** myvector.c: size and capacity bookkeeping *)
(* ===================================================================== *)

Module MyVector.

Definition MIN_ALLOC : Z := 10.

(** [struct myvector].  [ptr] is the address of the block, [0] for NULL; the
    contents of the block play no part in the bookkeeping. *)
Record myvector : Type := mkVec {
  ptr : Z;
  element_size : Z;
  elements : Z;
  alloc_elements : Z
}.

(** [myv_init (v, el_sz, el, fixed)]; [p] is what [calloc] returned. *)
Definition myv_init (el_sz el : Z) (fixed : bool) (p : Z) : myvector :=
  let alloc_el := if fixed then el else (if el <=? MIN_ALLOC then MIN_ALLOC else el) in
  {| ptr := p;
     element_size := if p =? 0 then 0 else el_sz;
     elements := if p =? 0 then 0 else el;
     alloc_elements := if p =? 0 then 0 else alloc_el |}.

Definition myv_clear (v : myvector) : myvector :=
  {| ptr := ptr v; element_size := element_size v;
     elements := 0; alloc_elements := alloc_elements v |}.

(** [myv_realloc (v, alloc_el)]; [p] is what [realloc] returned. *)
Definition myv_realloc (v : myvector) (alloc_el : Z) (p : Z) : myvector :=
  if ptr v =? 0 then v
  else if p =? 0 then
    {| ptr := 0; element_size := element_size v;
       elements := 0; alloc_elements := 0 |}
  else
    {| ptr := p; element_size := element_size v;
       elements := if alloc_el <? elements v then alloc_el else elements v;
       alloc_elements := alloc_el |}.

(** The test [v->elements + new_el > v->alloc_elements]: the sum is an
    [unsigned int]. *)
Definition must_grow (v : myvector) (new_el : Z) : bool :=
  alloc_elements v <? u32 (elements v + new_el).

(** [myv_append (v, new_el, pt)]; [p] is what [realloc] returns when it is
    called (it is called exactly when [must_grow] holds). *)
Definition myv_append (v : myvector) (new_el : Z) (p : Z) : myvector :=
  if ptr v =? 0 then v
  else
    let alloc_el :=
      if must_grow v new_el
      then (if new_el <? elements v then elements v else new_el)
      else 0 in
    let ptr' := if must_grow v new_el then p else ptr v in
    if ptr' =? 0 then
      {| ptr := 0; element_size := element_size v;
         elements := 0; alloc_elements := 0 |}
    else
      {| ptr := ptr'; element_size := element_size v;
         elements := u32 (elements v + new_el);
         alloc_elements := usz (alloc_elements v + alloc_el) |}.

(** [myv_copy (v_to, v_from)] for two distinct, non-null vectors. *)
Definition myv_copy (v_to v_from : myvector) (p : Z) : myvector :=
  let v := myv_clear v_to in
  if elements v_from =? 0 then v else myv_append v (elements v_from) p.

(** [myv_copy (v, v)]: the store [v_to->elements = 0] is seen through
    [v_from], so nothing is appended. *)
Definition myv_copy_self (v : myvector) : myvector := myv_clear v.

(** The value range of the two counters and the relation between them. *)
Definition wf (v : myvector) : Prop :=
  0 <= elements v < 2 ^ 32 /\
  0 <= alloc_elements v < 2 ^ 64 /\
  elements v <= alloc_elements v.

(** Both counters were zeroed. *)
Definition zeroed (v : myvector) : Prop :=
  elements v = 0 /\ alloc_elements v = 0.

End MyVector.

(* ===================================================================== *)
(** ** GIFDecoder.c: LZWAlgorythm *)
(* ===================================================================== *)

Module LZW.

Definition MAX_CSIZE : Z := 12.

Inductive t_status : Type := MUSTCLEAR | FIRST | NORMAL | DEFERRED.

(** The local variables of [LZWAlgorythm] that live across iterations.
    - [lzw_table i] is the contents of slot [i] of the table: [Some []] for
      a slot that is as [calloc] left it (a vector with a null pointer and
      no elements), [None] for a slot outside the block or in a part of it
      that [realloc] added and nothing wrote; a slot keeps its contents when
      [lzw_table.elements] is lowered by a clear code.
    - [lzw_codes] and [s] are the values held by the two [uint16_t] vectors,
      in order, and [codes_alloc] is [lzw_codes.alloc_elements].  The count
      of [lzw_codes] is cut to an [unsigned int] where the code adds to it.
      The counts of [s] and of the entries are not: an entry has at most
      one element more than an earlier entry, and no block of an entry is
      released before the function returns, so the blocks would fill the
      address space before one of these counts could wrap. *)
Record state : Type := mkState {
  flag : t_status;
  csize : Z;
  mask : Z;
  offset : Z;
  ind : Z;
  lzw_table : Z -> option (list Z);
  table_elements : Z;
  lzw_codes : list Z;
  codes_alloc : Z;
  s : list Z;
  oldcode : Z
}.

Definition set_flag (st : state) (f : t_status) : state :=
  mkState f (csize st) (mask st) (offset st) (ind st) (lzw_table st)
          (table_elements st) (lzw_codes st) (codes_alloc st) (s st)
          (oldcode st).

Definition set_width (st : state) (c m : Z) : state :=
  mkState (flag st) c m (offset st) (ind st) (lzw_table st)
          (table_elements st) (lzw_codes st) (codes_alloc st) (s st)
          (oldcode st).

Definition set_pos (st : state) (o i : Z) : state :=
  mkState (flag st) (csize st) (mask st) o i (lzw_table st)
          (table_elements st) (lzw_codes st) (codes_alloc st) (s st)
          (oldcode st).

Definition set_table (st : state) (t : Z -> option (list Z)) (n : Z) : state :=
  mkState (flag st) (csize st) (mask st) (offset st) (ind st) t
          n (lzw_codes st) (codes_alloc st) (s st) (oldcode st).

Definition set_output (st : state) (l : list Z) (a : Z) : state :=
  mkState (flag st) (csize st) (mask st) (offset st) (ind st) (lzw_table st)
          (table_elements st) l a (s st) (oldcode st).

Definition set_s (st : state) (l : list Z) : state :=
  mkState (flag st) (csize st) (mask st) (offset st) (ind st) (lzw_table st)
          (table_elements st) (lzw_codes st) (codes_alloc st) l (oldcode st).

Definition set_oldcode (st : state) (c : Z) : state :=
  mkState (flag st) (csize st) (mask st) (offset st) (ind st) (lzw_table st)
          (table_elements st) (lzw_codes st) (codes_alloc st) (s st) c.

(** What one pass through the loop body does to the control flow. *)
Inductive outcome : Type :=
| Continue (st : state)      (* falls through to [oldcode = code] *)
| Break (st : state)         (* [break] on EOI *)
| Return0                    (* "Bad LZW code", [return 0] *)
| Undef                      (* a read or write outside what was stored *)
| Overrun.                   (* a copy past the block of [lzw_codes] *)

(** Which way the loop was left when the function returns [&lzw_codes]. *)
Inductive stop : Type := ByEOI | ByLength.

Inductive exit : Type :=
| BadCode                      (* returned 0 *)
| Done (why : stop) (st : state)  (* returned [&lzw_codes] *)
| Undefined                    (* a pass was [Undef] *)
| Overran                      (* a pass was [Overrun] *)
| OutOfFuel.

(** The vector behind the returned pointer; [None] for [return 0]. *)
Definition returned (e : exit) : option (list Z) :=
  match e with
  | Done _ st => Some (lzw_codes st)
  | _ => None
  end.

(** [while (offset >= 8) { offset -= 8; ind++; }] *)
Fixpoint skip_bytes (n : nat) (offset ind : Z) : Z * Z :=
  match n with
  | O => (offset, ind)
  | S n' =>
      if 8 <=? offset then skip_bytes n' (offset - 8) (u32 (ind + 1))
      else (offset, ind)
  end.

Section Decoder.

Variable lzw_code_size : Z.
Variable len : Z.
Variable bytes : Z -> Z.

Definition CLEAR : Z := u16 (Z.shiftl 1 lzw_code_size).
Definition EOI : Z := u16 (CLEAR + 1).

Definition byte_at (i : Z) : Z := bytes i mod 256.

(** [memcpy (&accumulator, bytes + ind, 3)] on a little-endian target; the
    top byte of [accumulator] is 0 from its initialisation. *)
Definition fetch (i : Z) : Z :=
  byte_at i + 2 ^ 8 * byte_at (i + 1) + 2 ^ 16 * byte_at (i + 2).

(** [accumulator >>= offset; code = accumulator & mask;] *)
Definition read_code (st : state) : Z :=
  u16 (Z.land (Z.shiftr (fetch (ind st)) (offset st)) (mask st)).

(** [offset += csize;] and the inner loop. *)
Definition advance (st : state) : state :=
  let o := offset st + csize st in
  let '(o', i') := skip_bytes (Z.to_nat o) o (ind st) in
  set_pos st o' i'.

(** [sizeof (struct myvector)]: a pointer, two [size_t] and an
    [unsigned int] with its padding. *)
Definition sizeof_myvector : Z := 32.

(** The number of slots in the block of the table when the loop is
    entered: what [myv_init (&lzw_table, ..., false)] asked of [calloc]. *)
Definition table_alloc : Z :=
  MyVector.alloc_elements
    (MyVector.myv_init sizeof_myvector (u32 (Z.shiftl 1 lzw_code_size + 2))
                       false 1).

(** The table as [myv_init] and the initialisation loop leave it: the
    slots of the block are zeroed by [calloc], and slots [0 .. EOI] are
    then made to hold their own index. *)
Definition init_table : Z -> option (list Z) :=
  fun i => if (0 <=? i) && (i <=? EOI) then Some [i]
           else if (0 <=? i) && (i <? table_alloc) then Some []
           else None.

Definition init : state :=
  let c := u16 (lzw_code_size + 1) in
  {| flag := MUSTCLEAR;
     csize := c;
     mask := u16 (Z.shiftl 1 c - 1);
     offset := 0;
     ind := 0;
     lzw_table := init_table;
     table_elements := u32 (Z.shiftl 1 lzw_code_size + 2);
     lzw_codes := [];
     codes_alloc := MyVector.alloc_elements (MyVector.myv_init 2 0 false 1);
     s := [];
     oldcode := 0 (* not initialised in C; written before it is read *) |}.

(** [myv_append (&lzw_codes, new_el, pt)] with the values [seq] at [pt].
    The two counters move as [MyVector.myv_append] says, for a vector that
    has a block and an allocator that gives one: the sums are taken in
    [unsigned int], so when the count passes [UINT_MAX] the growth test
    sees the remainder only, and the count starts again from it.  The
    values are copied to the place behind the old count, and the vector
    holds the first values of its block, as many as the new count says;
    [None] when the place copied to is not all inside the block. *)
Definition append_codes (st : state) (seq : list Z) : option state :=
  let e := Z.of_nat (length (lzw_codes st)) in
  let n := Z.of_nat (length seq) in
  let v := MyVector.myv_append (MyVector.mkVec 1 2 e (codes_alloc st)) n 1 in
  if e + n <=? MyVector.alloc_elements v then
    Some (set_output st
            (firstn (Z.to_nat (MyVector.elements v)) (lzw_codes st ++ seq))
            (MyVector.alloc_elements v))
  else None.

(** What the three branches for a code that is neither EOI nor CLEAR read
    from the table: the values that go to the output, and the new contents
    of [s].  [None] when a branch reads a slot that holds nothing defined,
    or the first element of an empty entry. *)
Definition emit (st : state) (code : Z) : option (list Z * list Z) :=
  match flag st with
  | DEFERRED =>
      match lzw_table st code with
      | Some e => Some (e, s st)
      | None => None
      end
  | _ =>
      if code <? table_elements st then
        match lzw_table st code, lzw_table st (oldcode st) with
        | Some (x :: e), Some o => Some (x :: e, o ++ [x])
        | _, _ => None
        end
      else
        match lzw_table st (oldcode st) with
        | Some (x :: o) => Some ((x :: o) ++ [x], (x :: o) ++ [x])
        | _ => None
        end
  end.

(** [myv_append (&lzw_table, 1, &myv_null)], the copy of [s] into the new
    last slot, and the test on the table size.  Reached in every state in
    which [emit] is, [DEFERRED] included.  [None] when the [unsigned int]
    counter would wrap to 0, which puts the slot [elements - 1] before the
    start of the table. *)
Definition insert (st : state) : option state :=
  let n := table_elements st + 1 in
  if n <? 2 ^ 32 then
    let t := fun i => if i =? n - 1 then Some (s st) else lzw_table st i in
    let st1 := set_table st t n in
    if n =? Z.shiftl 1 (csize st1) then
      if csize st1 <? MAX_CSIZE then
        let c := u16 (csize st1 + 1) in
        Some (set_width st1 c (u16 (Z.shiftl 1 c - 1)))
      else Some (set_flag st1 DEFERRED)
    else Some st1
  else None.

(** The [if / else if] chain of the loop body, for the code just read. *)
Definition exec (st : state) (code : Z) : outcome :=
  match flag st with
  | MUSTCLEAR =>
      if code =? CLEAR then Continue (set_oldcode (set_flag st FIRST) code)
      else Return0
  | FIRST =>
      if code <? CLEAR then
        match append_codes st [code] with
        | Some st1 => Continue (set_oldcode (set_flag st1 NORMAL) code)
        | None => Overrun
        end
      else Return0
  | _ =>
      if code =? EOI then Break st
      else if code =? CLEAR then
        let c := u16 (lzw_code_size + 1) in
        let st1 := set_table st (lzw_table st)
                             (u32 (Z.shiftl 1 lzw_code_size + 2)) in
        let st2 := set_width st1 c (u16 (Z.shiftl 1 c - 1)) in
        Continue (set_oldcode (set_flag st2 FIRST) code)
      else
        match emit st code with
        | Some (seq, s') =>
            match append_codes (set_s st s') seq with
            | Some st1 =>
                match insert st1 with
                | Some st2 => Continue (set_oldcode st2 code)
                | None => Undef
                end
            | None => Overrun
            end
        | None => Undef
        end
  end.

Definition body (st : state) : outcome :=
  exec (advance st) (read_code st).

(** [while (ind <= len) body], then the clean-up and [return &lzw_codes]. *)
Fixpoint loop (fuel : nat) (st : state) : exit :=
  match fuel with
  | O => OutOfFuel
  | S fuel' =>
      if ind st <=? len then
        match body st with
        | Continue st' => loop fuel' st'
        | Break st' => Done ByEOI st'
        | Return0 => BadCode
        | Undef => Undefined
        | Overrun => Overran
        end
      else Done ByLength st
  end.

Definition LZWAlgorythm (fuel : nat) : exit := loop fuel init.

End Decoder.

(** The call returns [e]: some number of iterations is enough to reach it. *)
Definition returns (lzw_code_size len : Z) (bytes : Z -> Z) (e : exit) : Prop :=
  e <> OutOfFuel /\ exists fuel, LZWAlgorythm lzw_code_size len bytes fuel = e.

(** The memory behind a pointer to the buffer [buf]: its bytes, followed by
    whatever [rest] has there. *)
Definition memory (buf : list Z) (rest : Z -> Z) : Z -> Z :=
  fun i => if (0 <=? i) && (i <? Z.of_nat (length buf))
           then nth (Z.to_nat i) buf 0 else rest i.

Definition zeros : Z -> Z := fun _ => 0.

(** Codes packed at given widths, least significant bit first: the number
    whose binary digits are the stream, and its first [n] bytes. *)
Fixpoint pack_bits (codes : list (Z * Z)) : Z :=
  match codes with
  | [] => 0
  | (w, c) :: rest => c + 2 ^ w * pack_bits rest
  end.

Fixpoint to_bytes (n : nat) (v : Z) : list Z :=
  match n with
  | O => []
  | S n' => v mod 256 :: to_bytes n' (v / 256)
  end.

Definition total_width (codes : list (Z * Z)) : Z :=
  fold_right (fun wc acc => fst wc + acc) 0 codes.

Definition pack (codes : list (Z * Z)) : list Z :=
  to_bytes (Z.to_nat ((total_width codes + 7) / 8)) (pack_bits codes).

Definition at_width (w : Z) (codes : list Z) : list (Z * Z) :=
  map (fun c => (w, c)) codes.

(** Which way the loop was left, and the state it was left in. *)
Definition how (e : exit) : option stop :=
  match e with
  | Done why _ => Some why
  | _ => None
  end.

Definition final (e : exit) : option state :=
  match e with
  | Done _ st => Some st
  | _ => None
  end.

(** A value of the colour-index alphabet. *)
Definition literal (lzw_code_size v : Z) : Prop :=
  0 <= v < CLEAR lzw_code_size.

(** The states at the head of the loop. *)
Inductive reachable (lzw_code_size len : Z) (bytes : Z -> Z) : state -> Prop :=
| reach_init : reachable lzw_code_size len bytes (init lzw_code_size)
| reach_step (st st' : state) :
    reachable lzw_code_size len bytes st ->
    ind st <= len ->
    body lzw_code_size bytes st = Continue st' ->
    reachable lzw_code_size len bytes st'.

(** What holds of the variables at the head of the loop. *)
Record Inv (cs : Z) (st : state) : Prop := mkInv {
  inv_offset : 0 <= offset st < 8;
  inv_csize : cs + 1 <= csize st <= MAX_CSIZE;
  inv_mask : mask st = 2 ^ csize st - 1;
  inv_ind : 0 <= ind st < 2 ^ 32;
  inv_elements : 2 ^ cs + 2 <= table_elements st < 2 ^ 32;
  inv_room : flag st <> DEFERRED -> table_elements st < 2 ^ csize st;
  inv_full : flag st = DEFERRED ->
             csize st = MAX_CSIZE /\ 2 ^ MAX_CSIZE <= table_elements st;
  inv_alphabet : forall i, 0 <= i < 2 ^ cs + 2 -> lzw_table st i = Some [i];
  inv_entries : forall i e, lzw_table st i = Some e ->
                            i <> CLEAR cs -> i <> EOI cs ->
                            Forall (literal cs) e;
  inv_s : Forall (literal cs) (s st);
  inv_codes : Forall (literal cs) (lzw_codes st);
  inv_count : Z.of_nat (length (lzw_codes st)) < 2 ^ 32;
  inv_alloc : Z.of_nat (length (lzw_codes st)) <= codes_alloc st < 2 ^ 64;
  inv_oldcode : flag st = NORMAL \/ flag st = DEFERRED ->
                oldcode st <> CLEAR cs /\ oldcode st <> EOI cs
}.

(** The bits of the code about to be read lie in the first [L] bytes. *)
Definition within (L : Z) (st : state) : bool :=
  8 * ind st + offset st + csize st <=? 8 * L.

(** [loop], stopped with [None] as soon as a code would take bits from
    outside the first [L] bytes. *)
Fixpoint loop_within (cs len : Z) (bytes : Z -> Z) (L : Z)
         (fuel : nat) (st : state) : option exit :=
  match fuel with
  | O => Some OutOfFuel
  | S fuel' =>
      if ind st <=? len then
        if within L st then
          match body cs bytes st with
          | Continue st' => loop_within cs len bytes L fuel' st'
          | Break st' => Some (Done ByEOI st')
          | Return0 => Some BadCode
          | Undef => Some Undefined
          | Overrun => Some Overran
          end
        else None
      else Some (Done ByLength st)
  end.

(** The state at the head of the loop after [n] passes that all continued. *)
Fixpoint passes (cs len : Z) (bytes : Z -> Z) (n : nat) (st : state)
  : option state :=
  match n with
  | O => Some st
  | S n' =>
      if ind st <=? len then
        match body cs bytes st with
        | Continue st' => passes cs len bytes n' st'
        | _ => None
        end
      else None
  end.

(** The mode, the code width and the number of table entries. *)
Definition observe (st : state) : t_status * Z * Z :=
  (flag st, csize st, table_elements st).

(** The loop-head state after [n] passes ([init] when the loop was left
    before). *)
Definition state_after (cs len : Z) (bytes : Z -> Z) (n : nat) : state :=
  match passes cs len bytes n (init cs) with
  | Some st => st
  | None => init cs
  end.

Definition growth_stream : list Z :=
  pack (at_width 3 [4; 0; 1; 2] ++ at_width 4 [3; 5]).

(** A stream for code size 2 whose third code, 7, is beyond the 6 entries
    of the table: the fourth pass copies [s] from slot 7, which is as
    [calloc] left it, and brings the table to 8 entries. *)
Definition zeroed_slot_stream : list Z :=
  pack (at_width 3 [4; 0; 7; 0] ++ at_width 4 [5]).

(** A memory whose even addresses hold 128 and whose odd addresses hold 0. *)
Definition alternating : Z -> Z := fun i => if Z.even i then 128 else 0.

(** The largest [unsigned int]. *)
Definition UINT_MAX : Z := 2 ^ 32 - 1.

(** What holds at the head of the loop when [alternating] is decoded with a
    code size of 7: byte-wide codes, CLEAR at the even addresses and the
    literal 0 at the odd ones; the output vector, which gets one value at
    a time, has a capacity that was doubled from [MIN_ALLOC]. *)
Definition Cycling (st : state) : Prop :=
  csize st = 8 /\ mask st = 255 /\ offset st = 0 /\ 0 <= ind st < 2 ^ 32 /\
  ((flag st = MUSTCLEAR /\ ind st = 0) \/
   (flag st = FIRST /\ Z.even (ind st) = false) \/
   (flag st = NORMAL /\ Z.even (ind st) = true)) /\
  Z.of_nat (length (lzw_codes st)) < 2 ^ 32 /\
  Z.of_nat (length (lzw_codes st)) <= codes_alloc st /\
  0 < codes_alloc st < 2 ^ 64 /\ codes_alloc st mod 10 = 0.

End LZW.

(* ===================================================================== *)
(** ** myvector.c: the vectors with their blocks *)
(* ===================================================================== *)

Module MyVectorData.

(** [struct myvector] with the block [ptr] points to: [None] for NULL,
    otherwise the bytes of the block, as many as were asked of the
    allocator. *)
Record myvector : Type := mkVec {
  ptr : option (list Z);
  element_size : Z;
  elements : Z;
  alloc_elements : Z
}.

(** The block [realloc] hands back for [n] bytes: it starts as the old one
    does, and the bytes it gains hold what [junk] says. *)
Definition resize (block : list Z) (n : nat) (junk : nat -> Z) : list Z :=
  firstn n block ++ map junk (seq (length block) (n - length block)).

(** [memcpy (block + pos, src, length src)] inside the block. *)
Definition write_at (block : list Z) (pos : nat) (src : list Z) : list Z :=
  firstn pos block ++ src ++ skipn (pos + length src) block.

(** [myv_init (v, el_sz, el, fixed)]; [ok] tells whether [calloc] gave a
    block. *)
Definition myv_init (el_sz el : Z) (fixed : bool) (ok : bool) : myvector :=
  let alloc_el :=
    if fixed then el
    else (if el <=? MyVector.MIN_ALLOC then MyVector.MIN_ALLOC else el) in
  if ok then
    {| ptr := Some (repeat 0 (Z.to_nat (alloc_el * el_sz)));
       element_size := el_sz; elements := el; alloc_elements := alloc_el |}
  else
    {| ptr := None; element_size := 0; elements := 0; alloc_elements := 0 |}.

(** [myv_free]: the block is released and [ptr] zeroed; the counters stay. *)
Definition myv_free (v : myvector) : myvector :=
  {| ptr := None; element_size := element_size v;
     elements := elements v; alloc_elements := alloc_elements v |}.

Definition myv_clear (v : myvector) : myvector :=
  {| ptr := ptr v; element_size := element_size v;
     elements := 0; alloc_elements := alloc_elements v |}.

(** What the failure branches leave. *)
Definition failed (v : myvector) : myvector :=
  {| ptr := None; element_size := element_size v;
     elements := 0; alloc_elements := 0 |}.

(** [myv_realloc (v, alloc_el)]; [answer] is [None] when [realloc] returns
    NULL, and otherwise tells what the added bytes hold. *)
Definition myv_realloc (v : myvector) (alloc_el : Z)
    (answer : option (nat -> Z)) : myvector :=
  match ptr v with
  | None => v
  | Some block =>
      match answer with
      | None => failed v
      | Some junk =>
          {| ptr := Some (resize block
                            (Z.to_nat (usz (alloc_el * element_size v))) junk);
             element_size := element_size v;
             elements := if alloc_el <? elements v then alloc_el
                         else elements v;
             alloc_elements := alloc_el |}
      end
  end.

(** [myv_append (v, new_el, pt)], [src] being the bytes at [pt].  The
    result is [None] when [memcpy] would read past [src] or write past
    the block. *)
Definition myv_append (v : myvector) (new_el : Z) (src : list Z)
    (answer : option (nat -> Z)) : option myvector :=
  match ptr v with
  | None => Some v
  | Some block =>
      let grow := alloc_elements v <? u32 (elements v + new_el) in
      let alloc_el :=
        if grow then (if new_el <? elements v then elements v else new_el)
        else 0 in
      let ptr' :=
        if grow then
          match answer with
          | Some junk =>
              Some (resize block
                      (Z.to_nat (usz ((alloc_elements v + alloc_el)
                                      * element_size v))) junk)
          | None => None
          end
        else Some block in
      match ptr' with
      | None => Some (failed v)
      | Some block' =>
          let pos := usz (elements v * element_size v) in
          let n := usz (new_el * element_size v) in
          if (n <=? Z.of_nat (length src))
             && (pos + n <=? Z.of_nat (length block'))
          then
            Some {| ptr := Some (write_at block' (Z.to_nat pos)
                                          (firstn (Z.to_nat n) src));
                    element_size := element_size v;
                    elements := u32 (elements v + new_el);
                    alloc_elements := usz (alloc_elements v + alloc_el) |}
          else None
      end
  end.

(** [myv_copy (v_to, v_from)] for two distinct vectors. *)
Definition myv_copy (v_to v_from : myvector) (answer : option (nat -> Z))
  : option myvector :=
  let v := myv_clear v_to in
  if elements v_from =? 0 then Some v
  else
    myv_append v (elements v_from)
               (match ptr v_from with Some b => b | None => [] end) answer.

(** The bytes of the elements the vector holds. *)
Definition contents (v : myvector) : list Z :=
  match ptr v with
  | Some block => firstn (Z.to_nat (elements v * element_size v)) block
  | None => []
  end.

(** The counters are in the range of their types, the elements fit into
    the capacity, and the block has the bytes of the capacity. *)
Definition sound (v : myvector) : Prop :=
  0 <= element_size v /\
  0 <= elements v < 2 ^ 32 /\
  elements v <= alloc_elements v < 2 ^ 64 /\
  alloc_elements v * element_size v < 2 ^ 64 /\
  match ptr v with
  | Some block => Z.of_nat (length block) = alloc_elements v * element_size v
  | None => True
  end.

End MyVectorData.

(* ===================================================================== *)
(** ** main.c: reading the data sub-blocks *)
(* ===================================================================== *)

Module Blocks.
Import MyVectorData.

(** The file is the list of the bytes from the position of [fptr] on.
    [fread (&size, 1, 1, fptr)]: at the end of the file nothing is stored
    and [size] keeps the value it had. *)
Definition read_size (size : Z) (file : list Z) : Z * list Z :=
  match file with
  | [] => (size, [])
  | b :: rest => (b mod 256, rest)
  end.

(** The loop of [read_blocks]; [bytes] is [None] while the global pointer
    is 0.  [malloc] and [realloc] are taken to succeed (their result is not
    tested); [junk] tells what the bytes they add hold before [fread]
    fills them, and [fread] stores only as many bytes as the file has. *)
Fixpoint read_loop (fuel : nat) (junk : nat -> Z) (size : Z)
         (bytes : option (list Z)) (tot_size : Z) (file : list Z)
  : option (option (list Z) * Z * list Z) :=
  match fuel with
  | O => None
  | S fuel' =>
      if size =? 0 then Some (bytes, tot_size, file)
      else
        let new_size := usz (tot_size + size) in
        let old := match bytes with Some b => b | None => [] end in
        let block := resize old (Z.to_nat new_size) junk in
        let got := firstn (Z.to_nat size) file in
        let bytes' := write_at block (Z.to_nat tot_size) got in
        let '(size', file') := read_size size (skipn (Z.to_nat size) file) in
        read_loop fuel' junk size' (Some bytes') new_size file'
  end.

(** [read_blocks]: the pointer is zeroed, [tot_size] reset, and the first
    size byte read into the local [size], which holds [size0] before
    (it is not initialised). *)
Definition read_blocks (fuel : nat) (junk : nat -> Z) (size0 : Z)
    (file : list Z) : option (option (list Z) * Z * list Z) :=
  let '(size, file') := read_size size0 file in
  read_loop fuel junk size None 0 file'.

(** [main] of the three-argument decoder: seek to offset 205, read the
    blocks, decode with code size 4.  [tot_size] is narrowed to the
    [unsigned int] parameter [len]; with no block read, [bytes] is the
    null pointer, which the decoder copies from. *)
Definition main_decode (fuel_read fuel_decode : nat) (junk : nat -> Z)
    (size0 : Z) (file : list Z) (rest : Z -> Z) : option LZW.exit :=
  match read_blocks fuel_read junk size0 (skipn 205 file) with
  | Some (Some bytes, tot_size, _) =>
      Some (LZW.LZWAlgorythm 4 (u32 tot_size) (LZW.memory bytes rest)
                             fuel_decode)
  | Some (None, _, _) => Some LZW.Undefined
  | None => None
  end.

(** A chain of data sub-blocks as a GIF file holds it: each block behind
    its length byte, and a zero length byte at the end. *)
Definition block_chain (blocks : list (list Z)) : list Z :=
  concat (map (fun b => Z.of_nat (length b) :: b) blocks).

Definition encode_blocks (blocks : list (list Z)) : list Z :=
  block_chain blocks ++ [0].

(** The pointer [bytes] for the bytes read so far: null with none. *)
Definition held (acc : list Z) : option (list Z) :=
  match acc with [] => None | _ => Some acc end.

(** A block a length byte can announce. *)
Definition block_ok (b : list Z) : Prop := (1 <= length b <= 255)%nat.

End Blocks.

(* ===================================================================== *)
(** ** Streams of codes *)
(* ===================================================================== *)

Module LZWStream.
Import LZW.

(** The loop-head states of a run in which every code met in NORMAL mode
    was at most the number of table entries (a known code, or the one the
    next entry will get). *)
Inductive valid_reachable (cs len : Z) (bytes : Z -> Z) : state -> Prop :=
| valid_init : valid_reachable cs len bytes (init cs)
| valid_step (st st' : state) :
    valid_reachable cs len bytes st ->
    ind st <= len ->
    (flag st = NORMAL -> read_code bytes st <= table_elements st) ->
    body cs bytes st = Continue st' ->
    valid_reachable cs len bytes st'.

(** What such a run keeps true of the table, of [oldcode] and of [s]. *)
Record Safe (st : state) : Prop := mkSafe {
  safe_live : forall i, 0 <= i < table_elements st ->
                        exists x e, lzw_table st i = Some (x :: e);
  safe_oldcode : flag st = NORMAL -> 0 <= oldcode st < table_elements st;
  safe_s : flag st = DEFERRED -> s st <> []
}.

(** [passes], giving [None] also when a code met in NORMAL mode exceeds
    the number of table entries. *)
Fixpoint valid_passes (cs len : Z) (bytes : Z -> Z) (n : nat) (st : state)
  : option state :=
  match n with
  | O => Some st
  | S n' =>
      if (ind st <=? len)
         && (match flag st with
             | NORMAL => read_code bytes st <=? table_elements st
             | _ => true
             end)
      then
        match body cs bytes st with
        | Continue st' => valid_passes cs len bytes n' st'
        | _ => None
        end
      else None
  end.

(** A sample stream for code size 2 whose third code, 6, is the one the
    next table entry will get. *)
Definition repeat_stream : list Z := pack (at_width 3 [4; 0; 6; 5]).

(** The loop with the codes handed over instead of cut out of the memory;
    [None] when the codes run out before the loop is left. *)
Fixpoint run_codes (cs : Z) (codes : list Z) (st : state) : option exit :=
  match codes with
  | [] => None
  | c :: rest =>
      match exec cs (advance st) c with
      | Continue st' => run_codes cs rest st'
      | Break st' => Some (Done ByEOI st')
      | Return0 => Some BadCode
      | Undef => Some Undefined
      | Overrun => Some Overran
      end
  end.

(** Each code of a stream paired with the width the decoder has when it
    comes to it; the pairing stops with the code that ends the loop. *)
Fixpoint schedule (cs : Z) (codes : list Z) (st : state) : list (Z * Z) :=
  match codes with
  | [] => []
  | c :: rest =>
      (csize st, c) ::
      match exec cs (advance st) c with
      | Continue st' => schedule cs rest st'
      | _ => []
      end
  end.

(** The buffer that holds a stream of codes for the decoder. *)
Definition encode (cs : Z) (codes : list Z) : list Z :=
  pack (schedule cs codes (init cs)).

(** A code that fits its width, for widths the decoder uses. *)
Definition fits (wc : Z * Z) : Prop :=
  1 <= fst wc <= 12 /\ 0 <= snd wc < 2 ^ fst wc.

(** The reader on its own: one code per given width, each cut out with
    [read_code] and stepped over with [advance]. *)
Fixpoint read_codes (bytes : Z -> Z) (widths : list Z) (st : state)
  : list Z :=
  match widths with
  | [] => []
  | w :: rest =>
      let st1 := set_width st w (2 ^ w - 1) in
      read_code bytes st1 :: read_codes bytes rest (advance st1)
  end.

(** The memory that holds the number [v], least significant byte first. *)
Definition bytes_of_number (v : Z) : Z -> Z :=
  fun i => (v / 2 ^ (8 * i)) mod 256.

End LZWStream.

(* ===================================================================== *)
(** ** Properties of the vector bookkeeping *)
(* ===================================================================== *)

Module MyVectorFacts.
Import MyVector.

Lemma u32_range (x : Z) : 0 <= u32 x < 2 ^ 32.
Proof. unfold u32. apply Z.mod_pos_bound. lia. Qed.

Lemma myv_init_wf (el_sz el : Z) (fixed : bool) (p : Z) :
  0 <= el < 2 ^ 32 -> wf (myv_init el_sz el fixed p).
Proof.
  intros Hel. unfold wf, myv_init, MIN_ALLOC; simpl.
  destruct (p =? 0); [lia |].
  destruct fixed; [lia |].
  destruct (Z.leb_spec el 10); lia.
Qed.

Lemma myv_realloc_wf (v : myvector) (alloc_el p : Z) :
  wf v -> 0 <= alloc_el < 2 ^ 32 -> wf (myv_realloc v alloc_el p).
Proof.
  intros Hv Ha. unfold myv_realloc.
  destruct (ptr v =? 0); [exact Hv |].
  destruct (p =? 0); unfold wf in *; simpl; [lia |].
  destruct (Z.ltb_spec alloc_el (elements v)); lia.
Qed.

Lemma myv_append_wf (v : myvector) (new_el p : Z) :
  wf v -> 0 <= new_el < 2 ^ 32 -> wf (myv_append v new_el p).
Proof.
  intros Hv Hn. unfold myv_append.
  destruct (ptr v =? 0); [exact Hv |].
  pose proof (u32_range (elements v + new_el)) as Hsum.
  assert (Hle : u32 (elements v + new_el) <= elements v + new_el).
  { unfold u32. apply Z.mod_le; unfold wf in Hv; lia. }
  unfold must_grow.
  destruct (Z.ltb_spec (alloc_elements v) (u32 (elements v + new_el))) as [Hg | Hg].
  - destruct (p =? 0); unfold wf in *; simpl; [lia |].
    assert (Hsmall : usz (alloc_elements v
              + (if new_el <? elements v then elements v else new_el))
            = alloc_elements v
              + (if new_el <? elements v then elements v else new_el)).
    { unfold usz. apply Z.mod_small.
      destruct (Z.ltb_spec new_el (elements v)); lia. }
    rewrite Hsmall.
    destruct (Z.ltb_spec new_el (elements v)); lia.
  - destruct (ptr v =? 0) eqn:E; unfold wf in *; simpl; [lia |].
    rewrite Z.add_0_r. unfold usz. rewrite Z.mod_small by lia. lia.
Qed.

Lemma myv_clear_wf (v : myvector) : wf v -> wf (myv_clear v).
Proof. unfold wf, myv_clear; simpl. lia. Qed.

Lemma myv_copy_wf (v_to v_from : myvector) (p : Z) :
  wf v_to -> wf v_from -> wf (myv_copy v_to v_from p).
Proof.
  intros Ht Hf. unfold myv_copy.
  destruct (elements v_from =? 0).
  - apply myv_clear_wf; exact Ht.
  - apply myv_append_wf; [apply myv_clear_wf; exact Ht | apply Hf].
Qed.

End MyVectorFacts.

(** C10. Every myvector operation (init, clear, realloc, append, copy) keeps
    the element count within the allocated capacity, and when the allocator
    fails both counters are set to 0. *)
Theorem myv_operations_keep_elements_within_alloc (v : MyVector.myvector)
    (Hv : MyVector.wf v) :
  (forall el_sz el fixed p, 0 <= el < 2 ^ 32 ->
     MyVector.wf (MyVector.myv_init el_sz el fixed p) /\
     (p = 0 -> MyVector.zeroed (MyVector.myv_init el_sz el fixed p))) /\
  MyVector.wf (MyVector.myv_clear v) /\
  (forall alloc_el p, 0 <= alloc_el < 2 ^ 32 ->
     MyVector.wf (MyVector.myv_realloc v alloc_el p) /\
     (MyVector.ptr v <> 0 -> p = 0 ->
      MyVector.zeroed (MyVector.myv_realloc v alloc_el p))) /\
  (forall new_el p, 0 <= new_el < 2 ^ 32 ->
     MyVector.wf (MyVector.myv_append v new_el p) /\
     (MyVector.ptr v <> 0 -> MyVector.must_grow v new_el = true -> p = 0 ->
      MyVector.zeroed (MyVector.myv_append v new_el p))) /\
  (forall v_from p, MyVector.wf v_from ->
     MyVector.wf (MyVector.myv_copy v v_from p) /\
     (MyVector.ptr v <> 0 -> MyVector.elements v_from <> 0 ->
      MyVector.must_grow (MyVector.myv_clear v) (MyVector.elements v_from) = true ->
      p = 0 ->
      MyVector.zeroed (MyVector.myv_copy v v_from p))) /\
  MyVector.wf (MyVector.myv_copy_self v).
Proof.
  assert (Happ : forall w new_el p, MyVector.ptr w <> 0 ->
            MyVector.must_grow w new_el = true -> p = 0 ->
            MyVector.zeroed (MyVector.myv_append w new_el p)).
  { intros w new_el p Hp Hg ->. unfold MyVector.myv_append.
    apply Z.eqb_neq in Hp. rewrite Hp, Hg. simpl.
    split; reflexivity. }
  split; [| split; [| split; [| split; [| split]]]].
  - intros el_sz el fixed p Hel. split.
    + apply MyVectorFacts.myv_init_wf; exact Hel.
    + intros ->. split; reflexivity.
  - apply MyVectorFacts.myv_clear_wf; exact Hv.
  - intros alloc_el p Ha. split.
    + apply MyVectorFacts.myv_realloc_wf; assumption.
    + intros Hp ->. unfold MyVector.myv_realloc.
      apply Z.eqb_neq in Hp. rewrite Hp. split; reflexivity.
  - intros new_el p Hn. split.
    + apply MyVectorFacts.myv_append_wf; assumption.
    + apply Happ.
  - intros v_from p Hf. split.
    + apply MyVectorFacts.myv_copy_wf; assumption.
    + intros Hp He Hg ->. unfold MyVector.myv_copy.
      apply Z.eqb_neq in He. rewrite He. apply Happ; auto.
  - apply MyVectorFacts.myv_clear_wf; exact Hv.
Qed.

Lemma myv_operations_keep_elements_within_alloc_witness :
  MyVector.wf (MyVector.mkVec 4096 2 10 10) /\
  MyVector.wf (MyVector.myv_append (MyVector.mkVec 4096 2 10 10) 1 8192) /\
  MyVector.zeroed (MyVector.myv_append (MyVector.mkVec 4096 2 10 10) 1 0).
Proof.
  assert (Hv : MyVector.wf (MyVector.mkVec 4096 2 10 10)).
  { unfold MyVector.wf; simpl; lia. }
  split; [exact Hv |].
  destruct (myv_operations_keep_elements_within_alloc _ Hv)
    as (_ & _ & _ & Happ & _).
  split.
  - apply (Happ 1 8192); lia.
  - apply (Happ 1 0); [lia | discriminate | reflexivity | reflexivity].
Defined.

(* ===================================================================== *)
(** ** Properties of the decoder: arithmetic of the reader *)
(* ===================================================================== *)

Module LZWFacts.
Import LZW.

Lemma pow2_code_size (cs : Z) : 2 <= cs <= 8 -> 4 <= 2 ^ cs <= 256.
Proof.
  intros H.
  assert (E : cs = 2 \/ cs = 3 \/ cs = 4 \/ cs = 5 \/ cs = 6 \/ cs = 7 \/ cs = 8) by lia.
  destruct E as [-> | [-> | [-> | [-> | [-> | [-> | ->]]]]]]; simpl; lia.
Qed.

Lemma pow2_double (c : Z) : 0 <= c -> 2 ^ (c + 1) = 2 * 2 ^ c.
Proof. intros H. rewrite Z.pow_add_r by lia. lia. Qed.

Lemma pow2_width (cs c : Z) :
  2 <= cs -> cs + 1 <= c <= MAX_CSIZE -> 2 * 2 ^ cs <= 2 ^ c <= 4096.
Proof.
  unfold MAX_CSIZE. intros Hcs Hc. split.
  - rewrite <- pow2_double by lia. apply Z.pow_le_mono_r; lia.
  - change 4096 with (2 ^ 12). apply Z.pow_le_mono_r; lia.
Qed.

Lemma CLEAR_eq (cs : Z) : 2 <= cs <= 8 -> CLEAR cs = 2 ^ cs.
Proof.
  intros H. unfold CLEAR, u16. rewrite Z.shiftl_1_l.
  apply Z.mod_small. pose proof (pow2_code_size cs H). lia.
Qed.

Lemma EOI_eq (cs : Z) : 2 <= cs <= 8 -> EOI cs = 2 ^ cs + 1.
Proof.
  intros H. unfold EOI, u16. rewrite (CLEAR_eq cs H).
  apply Z.mod_small. pose proof (pow2_code_size cs H). lia.
Qed.

Lemma u16_small (x : Z) : 0 <= x < 2 ^ 16 -> u16 x = x.
Proof. intros H. unfold u16. apply Z.mod_small. exact H. Qed.

Lemma u32_small (x : Z) : 0 <= x < 2 ^ 32 -> u32 x = x.
Proof. intros H. unfold u32. apply Z.mod_small. exact H. Qed.

Lemma u16_nonneg (x : Z) : 0 <= u16 x < 2 ^ 16.
Proof. unfold u16. apply Z.mod_pos_bound. lia. Qed.

Lemma u32_bounds (x : Z) : 0 <= u32 x < 2 ^ 32.
Proof. unfold u32. apply Z.mod_pos_bound. lia. Qed.

(** The inner loop leaves [offset mod 8] and has added [offset / 8] to
    [ind], modulo 2^32. *)
Lemma skip_bytes_spec (n : nat) :
  forall o i, 0 <= o -> o / 8 <= Z.of_nat n -> 0 <= i < 2 ^ 32 ->
    skip_bytes n o i = (o mod 8, u32 (i + o / 8)).
Proof.
  induction n as [| n IH]; intros o i Ho Hn Hi.
  - simpl. assert (o / 8 = 0) as Hq.
    { pose proof (Z.div_pos o 8 Ho ltac:(lia)). lia. }
    assert (o < 8) by (apply Z.div_small_iff in Hq; lia).
    rewrite Hq, Z.add_0_r, Z.mod_small, u32_small by lia. reflexivity.
  - cbn [skip_bytes]. destruct (Z.leb_spec 8 o) as [H8 | H8].
    + assert (Hdiv : o / 8 = (o - 8) / 8 + 1).
      { replace o with ((o - 8) + 1 * 8) at 1 by lia.
        rewrite Z.div_add by lia. reflexivity. }
      assert (Hmod : o mod 8 = (o - 8) mod 8).
      { replace o with ((o - 8) + 1 * 8) at 1 by lia.
        rewrite Z.mod_add by lia. reflexivity. }
      rewrite IH; [| lia | lia | apply u32_bounds].
      rewrite Hmod, Hdiv. f_equal. unfold u32.
      rewrite Zplus_mod_idemp_l. f_equal. lia.
    + rewrite Z.div_small, Z.add_0_r, Z.mod_small, u32_small by lia.
      reflexivity.
Qed.

Lemma advance_eq (st : state) :
  0 <= offset st -> 0 <= csize st -> 0 <= ind st < 2 ^ 32 ->
  advance st =
  set_pos st ((offset st + csize st) mod 8)
             (u32 (ind st + (offset st + csize st) / 8)).
Proof.
  intros Ho Hc Hi. unfold advance.
  rewrite skip_bytes_spec; [reflexivity | lia | | exact Hi].
  rewrite Z2Nat.id by lia.
  apply Z.div_le_upper_bound; lia.
Qed.

(* --------------------------------------------------------------------- *)
(** *** The loop invariant *)

Ltac fields :=
  cbn [flag csize mask offset ind lzw_table table_elements lzw_codes
       codes_alloc s oldcode set_flag set_width set_pos set_table
       set_output set_s set_oldcode] in *.

(* --------------------------------------------------------------------- *)
(** *** Appending to the output vector *)

(** The counters of the output vector after an append. *)
Lemma codes_counters (e a n : Z) :
  MyVector.elements (MyVector.myv_append (MyVector.mkVec 1 2 e a) n 1)
  = u32 (e + n) /\
  MyVector.alloc_elements (MyVector.myv_append (MyVector.mkVec 1 2 e a) n 1)
  = usz (a + (if a <? u32 (e + n) then (if n <? e then e else n) else 0)).
Proof.
  unfold MyVector.myv_append, MyVector.must_grow.
  cbn [MyVector.ptr MyVector.elements MyVector.alloc_elements
       MyVector.element_size].
  change (1 =? 0) with false. cbv iota.
  destruct (a <? u32 (e + n)); cbn; split; reflexivity.
Qed.

Lemma append_codes_eq (st : state) (seq : list Z) :
  append_codes st seq =
  let e := Z.of_nat (length (lzw_codes st)) in
  let n := Z.of_nat (length seq) in
  let a := usz (codes_alloc st
                + (if codes_alloc st <? u32 (e + n)
                   then (if n <? e then e else n) else 0)) in
  if e + n <=? a
  then Some (set_output st (firstn (Z.to_nat (u32 (e + n)))
                                   (lzw_codes st ++ seq)) a)
  else None.
Proof.
  unfold append_codes. cbv zeta.
  destruct (codes_counters (Z.of_nat (length (lzw_codes st)))
              (codes_alloc st) (Z.of_nat (length seq))) as [-> ->].
  reflexivity.
Qed.

(** What an append leaves as it was, and what it does to the counters. *)
Lemma append_codes_frame (st st1 : state) (seq : list Z) :
  append_codes st seq = Some st1 ->
  flag st1 = flag st /\ csize st1 = csize st /\ mask st1 = mask st /\
  offset st1 = offset st /\ ind st1 = ind st /\
  lzw_table st1 = lzw_table st /\ table_elements st1 = table_elements st /\
  s st1 = s st /\ oldcode st1 = oldcode st /\
  lzw_codes st1
  = firstn (Z.to_nat (u32 (Z.of_nat (length (lzw_codes st))
                           + Z.of_nat (length seq))))
           (lzw_codes st ++ seq) /\
  Z.of_nat (length (lzw_codes st1))
  = u32 (Z.of_nat (length (lzw_codes st)) + Z.of_nat (length seq)) /\
  Z.of_nat (length (lzw_codes st)) + Z.of_nat (length seq)
  <= codes_alloc st1.
Proof.
  rewrite append_codes_eq. cbv zeta. intros H.
  match type of H with
  | (if ?c <=? ?a then _ else _) = _ =>
      destruct (Z.leb_spec c a) as [Hle | Hgt]; [| discriminate H]
  end.
  injection H as <-. fields.
  repeat (split; [reflexivity |]).
  split; [| exact Hle].
  rewrite length_firstn, length_app.
  assert (Hu : 0 <= u32 (Z.of_nat (length (lzw_codes st))
                         + Z.of_nat (length seq))
               <= Z.of_nat (length (lzw_codes st)) + Z.of_nat (length seq)).
  { unfold u32. split; [apply Z.mod_pos_bound; lia |].
    apply Z.mod_le; lia. }
  lia.
Qed.

(** An append that keeps the count below [2 ^ 32] puts the values behind
    the old ones, whatever the capacity was. *)
Lemma append_codes_small (st : state) (seq : list Z) :
  Z.of_nat (length (lzw_codes st)) <= codes_alloc st < 2 ^ 64 ->
  Z.of_nat (length (lzw_codes st)) + Z.of_nat (length seq) < 2 ^ 32 ->
  exists a,
    append_codes st seq = Some (set_output st (lzw_codes st ++ seq) a) /\
    codes_alloc st <= a < 2 ^ 64 /\
    Z.of_nat (length (lzw_codes st)) + Z.of_nat (length seq) <= a.
Proof.
  intros Ha Hs. rewrite append_codes_eq. cbv zeta.
  assert (Hl : length (lzw_codes st ++ seq)
               = Z.to_nat (Z.of_nat (length (lzw_codes st))
                           + Z.of_nat (length seq))).
  { rewrite length_app. lia. }
  set (e := Z.of_nat (length (lzw_codes st))) in *.
  set (n := Z.of_nat (length seq)) in *.
  assert (He : 0 <= e) by (unfold e; lia).
  assert (Hn : 0 <= n) by (unfold n; lia).
  assert (H64 : 2 ^ 33 < 2 ^ 64) by (apply Z.pow_lt_mono_r; lia).
  assert (H33 : 2 ^ 33 = 2 * 2 ^ 32) by reflexivity.
  rewrite (u32_small (e + n)) by lia.
  rewrite firstn_all2 by lia.
  destruct (Z.ltb_spec (codes_alloc st) (e + n)) as [Hg | Hg].
  - assert (Hm : e + n <= codes_alloc st + (if n <? e then e else n)
                 < 2 ^ 33).
    { destruct (Z.ltb_spec n e); lia. }
    unfold usz. rewrite Z.mod_small by lia.
    destruct (Z.leb_spec (e + n)
                (codes_alloc st + (if n <? e then e else n))); [| lia].
    eexists. split; [reflexivity |]. lia.
  - rewrite Z.add_0_r. unfold usz. rewrite Z.mod_small by lia.
    destruct (Z.leb_spec (e + n) (codes_alloc st)); [| lia].
    eexists. split; [reflexivity |]. lia.
Qed.

(** The capacity of the output vector is never lowered, and a capacity
    below [2 ^ 32] tells that the count did not wrap. *)
Lemma append_codes_capacity (st st1 : state) (seq : list Z) :
  Z.of_nat (length (lzw_codes st)) <= codes_alloc st < 2 ^ 64 ->
  append_codes st seq = Some st1 ->
  codes_alloc st <= codes_alloc st1 < 2 ^ 64 /\
  (codes_alloc st1 < 2 ^ 32 -> lzw_codes st1 = lzw_codes st ++ seq).
Proof.
  intros Ha H.
  pose proof (append_codes_frame st st1 seq H)
    as (_ & _ & _ & _ & _ & _ & _ & _ & _ & Hc & _ & Hfit).
  split.
  - rewrite append_codes_eq in H. cbv zeta in H.
    match type of H with
    | (if ?c <=? ?a then _ else _) = _ =>
        destruct (Z.leb_spec c a) as [Hle | Hgt]; [| discriminate H]
    end.
    injection H as <-. fields.
    split; [| unfold usz; apply Z.mod_pos_bound; lia].
    destruct (Z.ltb_spec (codes_alloc st)
                (u32 (Z.of_nat (length (lzw_codes st))
                      + Z.of_nat (length seq)))) as [Hg | Hg].
    + assert (Hu : u32 (Z.of_nat (length (lzw_codes st))
                        + Z.of_nat (length seq))
                   <= Z.of_nat (length (lzw_codes st))
                      + Z.of_nat (length seq))
        by (unfold u32; apply Z.mod_le; lia).
      lia.
    + rewrite Z.add_0_r. unfold usz. rewrite Z.mod_small by lia. lia.
  - intros Hsmall. rewrite Hc, u32_small by lia.
    apply firstn_all2. rewrite length_app. lia.
Qed.

Section Invariant.

Variable cs : Z.
Hypothesis Hcs : 2 <= cs <= 8.

Lemma Inv_init : Inv cs (init cs).
Proof.
  pose proof (pow2_code_size cs Hcs) as Hp.
  assert (Hc : u16 (cs + 1) = cs + 1) by (apply u16_small; lia).
  assert (Hd : 2 ^ (cs + 1) = 2 * 2 ^ cs) by (apply pow2_double; lia).
  assert (H64 : 0 < 2 ^ 64) by (apply Z.pow_pos_nonneg; lia).
  assert (H32 : 0 < 2 ^ 32) by (apply Z.pow_pos_nonneg; lia).
  unfold init. cbv zeta. rewrite Hc, !Z.shiftl_1_l, Hd.
  rewrite u16_small, u32_small by lia.
  change (MyVector.alloc_elements (MyVector.myv_init 2 0 false 1)) with 10.
  constructor; fields; rewrite ?Hd; unfold MAX_CSIZE; try lia.
  - discriminate.
  - intros i Hi. unfold init_table. rewrite (EOI_eq cs Hcs).
    destruct (Z.leb_spec 0 i); [| lia].
    destruct (Z.leb_spec i (2 ^ cs + 1)); [reflexivity | lia].
  - intros i e He Hclear Heoi. unfold init_table in He.
    rewrite (EOI_eq cs Hcs) in *. rewrite (CLEAR_eq cs Hcs) in *.
    destruct (Z.leb_spec 0 i); cbn [andb] in He; [| discriminate].
    destruct (Z.leb_spec i (2 ^ cs + 1)).
    + injection He as <-. constructor; [| constructor].
      unfold literal. rewrite (CLEAR_eq cs Hcs). lia.
    + destruct (i <? table_alloc cs); [| discriminate].
      injection He as <-. constructor.
  - constructor.
  - constructor.
  - cbn [length]. lia.
  - cbn [length]. lia.
  - intros [H | H]; discriminate.
Qed.

Lemma Inv_advance (st : state) : Inv cs st -> Inv cs (advance st).
Proof.
  intros I. destruct I.
  rewrite advance_eq by lia.
  constructor; fields; try assumption.
  - apply Z.mod_pos_bound. lia.
  - apply u32_bounds.
Qed.

(** What [emit] reads is made of literals. *)
Lemma emit_literals (st : state) (code : Z) (seq s' : list Z) :
  Inv cs st -> flag st = NORMAL \/ flag st = DEFERRED ->
  code <> CLEAR cs -> code <> EOI cs ->
  emit st code = Some (seq, s') ->
  Forall (literal cs) seq /\ Forall (literal cs) s'.
Proof.
  intros I Hf Hc He Hemit. destruct I.
  assert (Hold : forall o,
            lzw_table st (oldcode st) = Some o -> Forall (literal cs) o).
  { intros o Ho. destruct (inv_oldcode0 Hf). eapply inv_entries0; eauto. }
  unfold emit in Hemit.
  destruct Hf as [Ef | Ef]; rewrite Ef in Hemit.
  - destruct (code <? table_elements st).
    + destruct (lzw_table st code) as [[| x e] |] eqn:Ecode;
        try discriminate Hemit.
      destruct (lzw_table st (oldcode st)) as [o |] eqn:Eold;
        try discriminate Hemit.
      injection Hemit as <- <-.
      assert (Hxe : Forall (literal cs) (x :: e)) by (eapply inv_entries0; eauto).
      split; [exact Hxe |].
      apply Forall_app; split; [eapply Hold; eauto |].
      constructor; [| constructor]. inversion Hxe; assumption.
    + destruct (lzw_table st (oldcode st)) as [[| x o] |] eqn:Eold;
        try discriminate Hemit.
      injection Hemit as <- <-.
      assert (Hxo : Forall (literal cs) (x :: o)) by (eapply Hold; eauto).
      assert (Hs' : Forall (literal cs) ((x :: o) ++ [x])).
      { apply Forall_app; split; [exact Hxo |].
        constructor; [| constructor]. inversion Hxo; assumption. }
      split; exact Hs'.
  - destruct (lzw_table st code) as [e |] eqn:Ecode; try discriminate Hemit.
    injection Hemit as <- <-.
    split; [eapply inv_entries0; eauto | exact inv_s0].
Qed.

Lemma Forall_firstn (A : Type) (P : A -> Prop) (n : nat) (l : list A) :
  Forall P l -> Forall P (firstn n l).
Proof.
  intros H. rewrite <- (firstn_skipn n l) in H.
  apply Forall_app in H. apply H.
Qed.

Lemma Inv_set_s (st : state) (s' : list Z) :
  Inv cs st -> Forall (literal cs) s' -> Inv cs (set_s st s').
Proof.
  intros I Hs. destruct I. constructor; fields; assumption.
Qed.

Lemma Inv_append (st st1 : state) (seq : list Z) :
  Inv cs st -> Forall (literal cs) seq ->
  append_codes st seq = Some st1 -> Inv cs st1.
Proof.
  intros I Hseq H.
  pose proof (append_codes_capacity st st1 seq (inv_alloc _ _ I) H)
    as [Hcap _].
  pose proof (append_codes_frame st st1 seq H)
    as (Hf & Hc & Hm & Ho & Hi & Ht & Hn & Hs & Hold & Hl & Hlen & Hfit).
  destruct I.
  constructor; rewrite ?Hf, ?Hc, ?Hm, ?Ho, ?Hi, ?Ht, ?Hn, ?Hs, ?Hold;
    try assumption.
  - rewrite Hl. apply Forall_firstn. apply Forall_app; split; assumption.
  - rewrite Hlen. apply u32_bounds.
  - split; [| apply Hcap].
    rewrite Hlen.
    assert (Hu : u32 (Z.of_nat (length (lzw_codes st))
                      + Z.of_nat (length seq))
                 <= Z.of_nat (length (lzw_codes st))
                    + Z.of_nat (length seq))
      by (unfold u32; apply Z.mod_le; lia).
    lia.
Qed.

Lemma Inv_insert (st st' : state) :
  Inv cs st -> flag st = NORMAL \/ flag st = DEFERRED ->
  insert st = Some st' ->
  Inv cs st' /\ (flag st' = NORMAL \/ flag st' = DEFERRED) /\
  oldcode st' = oldcode st /\ lzw_codes st' = lzw_codes st /\
  table_elements st' = table_elements st + 1.
Proof.
  intros I Hf Hins. destruct I.
  pose proof (pow2_code_size cs Hcs) as Hp.
  pose proof (pow2_width cs (csize st) ltac:(lia) inv_csize0) as Hw.
  unfold insert in Hins. fields. rewrite Z.shiftl_1_l in Hins.
  destruct (Z.ltb_spec (table_elements st + 1) (2 ^ 32)) as [Hn | Hn];
    [| discriminate].
  assert (Htab_a : forall i, 0 <= i < 2 ^ cs + 2 ->
            (if i =? table_elements st + 1 - 1 then Some (s st)
             else lzw_table st i) = Some [i]).
  { intros i Hi. destruct (Z.eqb_spec i (table_elements st + 1 - 1)); [lia |].
    apply inv_alphabet0; exact Hi. }
  assert (Htab_e : forall i e,
            (if i =? table_elements st + 1 - 1 then Some (s st)
             else lzw_table st i) = Some e ->
            i <> CLEAR cs -> i <> EOI cs -> Forall (literal cs) e).
  { intros i e He H1 H2.
    destruct (Z.eqb_spec i (table_elements st + 1 - 1)).
    - injection He as <-. exact inv_s0.
    - eapply inv_entries0; eauto. }
  destruct (Z.eqb_spec (table_elements st + 1) (2 ^ csize st)) as [Hfull | Hfull].
  - destruct (Z.ltb_spec (csize st) MAX_CSIZE) as [Hlt | Hge].
    + injection Hins as <-.
      assert (Hnd : flag st = NORMAL).
      { destruct Hf as [Hf | Hf]; [exact Hf |].
        destruct (inv_full0 Hf). lia. }
      pose proof (pow2_width cs (csize st + 1) ltac:(lia) ltac:(lia)) as Hw'.
      pose proof (pow2_double (csize st) ltac:(lia)) as Hd.
      rewrite (u16_small (csize st + 1)) by (unfold MAX_CSIZE in *; lia).
      rewrite Z.shiftl_1_l, u16_small by lia.
      split; [| fields; auto].
      constructor; fields; try assumption; try lia.
      * rewrite Hnd. discriminate.
    + injection Hins as <-.
      assert (Hc12 : csize st = MAX_CSIZE) by lia.
      split; [| fields; auto].
      constructor; fields; try assumption; try lia.
      * intros H; exfalso; apply H; reflexivity.
      * intros _. split; [exact Hc12 |]. rewrite <- Hc12. lia.
      * intros _. apply inv_oldcode0. exact Hf.
  - injection Hins as <-.
    split; [| fields; auto].
    constructor; fields; try assumption; try lia.
    + intros Hd. specialize (inv_room0 Hd). lia.
    + intros Hd. destruct (inv_full0 Hd). split; [assumption | lia].
Qed.

Lemma Inv_exec (st st' : state) (code : Z) :
  Inv cs st -> 0 <= code ->
  exec cs st code = Continue st' -> Inv cs st'.
Proof.
  intros I Hcode Hex.
  pose proof (pow2_code_size cs Hcs) as Hp.
  pose proof (CLEAR_eq cs Hcs) as HC.
  pose proof (EOI_eq cs Hcs) as HE.
  unfold exec in Hex.
  assert (Hrun : flag st = NORMAL \/ flag st = DEFERRED ->
            (if code =? EOI cs then Break st
             else if code =? CLEAR cs then
               Continue (set_oldcode (set_flag
                 (set_width (set_table st (lzw_table st)
                                (u32 (Z.shiftl 1 cs + 2)))
                    (u16 (cs + 1)) (u16 (Z.shiftl 1 (u16 (cs + 1)) - 1)))
                 FIRST) code)
             else match emit st code with
                  | Some (seq, s') =>
                      match append_codes (set_s st s') seq with
                      | Some st1 =>
                          match insert st1 with
                          | Some st2 => Continue (set_oldcode st2 code)
                          | None => Undef
                          end
                      | None => Overrun
                      end
                  | None => Undef
                  end) = Continue st' -> Inv cs st').
  { clear Hex. intros Hf Hex.
    destruct (Z.eqb_spec code (EOI cs)) as [| Hne]; [discriminate |].
    destruct (Z.eqb_spec code (CLEAR cs)) as [Hcl | Hncl].
    - injection Hex as <-. destruct I.
      rewrite (u16_small (cs + 1)), !Z.shiftl_1_l by lia.
      pose proof (pow2_double cs ltac:(lia)) as Hd.
      rewrite u32_small, u16_small by lia.
      constructor; fields; unfold MAX_CSIZE in *; try assumption; try lia.
      + discriminate.
      + intros [H | H]; discriminate.
    - destruct (emit st code) as [[seq s'] |] eqn:Eemit; [| discriminate].
      destruct (append_codes (set_s st s') seq) as [st1 |] eqn:Eapp;
        [| discriminate].
      destruct (insert st1) as [st2 |] eqn:Eins; [| discriminate].
      injection Hex as <-.
      destruct (emit_literals st code seq s' I Hf Hncl Hne Eemit)
        as (Hseq & Hs').
      pose proof (Inv_append _ st1 seq (Inv_set_s st s' I Hs') Hseq Eapp)
        as I1.
      pose proof (append_codes_frame _ _ _ Eapp) as (Hf1 & _).
      fields. rewrite <- Hf1 in Hf.
      destruct (Inv_insert st1 st2 I1 Hf Eins) as (I2 & Hf2 & _).
      destruct I2. constructor; fields; try assumption.
      intros _. split; assumption. }
  destruct (flag st) eqn:Ef.
  - destruct (Z.eqb_spec code (CLEAR cs)); [| discriminate].
    injection Hex as <-. destruct I.
    constructor; fields; try assumption.
    + intros _. apply inv_room0. rewrite Ef. discriminate.
    + discriminate.
    + intros [H | H]; discriminate.
  - destruct (Z.ltb_spec code (CLEAR cs)); [| discriminate].
    destruct (append_codes st [code]) as [st1 |] eqn:Eapp; [| discriminate].
    injection Hex as <-.
    assert (Hlit : Forall (literal cs) [code]).
    { constructor; [| constructor]. unfold literal. lia. }
    pose proof (Inv_append st st1 [code] I Hlit Eapp) as I1.
    pose proof (append_codes_frame _ _ _ Eapp)
      as (Hf1 & Hc1 & _ & _ & _ & _ & Hn1 & _).
    destruct I. destruct I1.
    constructor; fields; try assumption.
    + intros _. rewrite Hc1, Hn1. apply inv_room0. rewrite Ef. discriminate.
    + discriminate.
    + intros _. rewrite HE. lia.
  - apply Hrun; auto.
  - apply Hrun; auto.
Qed.

Lemma read_code_nonneg (bytes : Z -> Z) (st : state) :
  0 <= read_code bytes st < 2 ^ 16.
Proof. unfold read_code. apply u16_nonneg. Qed.

Lemma Inv_body (bytes : Z -> Z) (st st' : state) :
  Inv cs st -> body cs bytes st = Continue st' -> Inv cs st'.
Proof.
  intros I Hb. unfold body in Hb.
  eapply Inv_exec; [apply Inv_advance; exact I | | exact Hb].
  apply read_code_nonneg.
Qed.

Lemma reachable_Inv (len : Z) (bytes : Z -> Z) (st : state) :
  reachable cs len bytes st -> Inv cs st.
Proof.
  induction 1 as [| st st' _ IH _ Hb].
  - apply Inv_init.
  - eapply Inv_body; eauto.
Qed.

End Invariant.

(* --------------------------------------------------------------------- *)
(** *** What the branches of the body leave unchanged *)

Lemma emit_frame (st st1 : state) (s' seq : list Z) :
  append_codes (set_s st s') seq = Some st1 ->
  offset st1 = offset st /\ ind st1 = ind st /\ csize st1 = csize st /\
  mask st1 = mask st /\ flag st1 = flag st /\
  table_elements st1 = table_elements st /\ lzw_table st1 = lzw_table st /\
  oldcode st1 = oldcode st /\ s st1 = s'.
Proof.
  intros H.
  pose proof (append_codes_frame _ _ _ H)
    as (Hf & Hc & Hm & Ho & Hi & Ht & Hn & Hs & Hold & _).
  fields. repeat split; assumption.
Qed.

Lemma insert_frame (st st' : state) :
  insert st = Some st' ->
  offset st' = offset st /\ ind st' = ind st /\
  lzw_codes st' = lzw_codes st /\ s st' = s st /\
  oldcode st' = oldcode st /\
  table_elements st' = table_elements st + 1 /\
  lzw_table st' (table_elements st) = Some (s st) /\
  (forall i, i <> table_elements st -> lzw_table st' i = lzw_table st i).
Proof.
  unfold insert. intros H. fields.
  assert (Hslot : forall i, i <> table_elements st ->
            (i =? table_elements st + 1 - 1) = false).
  { intros i Hi. apply Z.eqb_neq. lia. }
  assert (Hself : (table_elements st =? table_elements st + 1 - 1) = true).
  { apply Z.eqb_eq. lia. }
  destruct (table_elements st + 1 <? 2 ^ 32); [| discriminate].
  destruct (table_elements st + 1 =? Z.shiftl 1 (csize st));
    [destruct (csize st <? MAX_CSIZE) |];
    injection H as <-; fields; rewrite Hself;
    (repeat split; try reflexivity; intros i Hi; rewrite (Hslot i Hi);
     reflexivity).
Qed.

(** The test on the table size that follows the insertion. *)
Lemma insert_width (st st' : state) :
  0 <= csize st < MAX_CSIZE + 1 ->
  insert st = Some st' ->
  (table_elements st + 1 = 2 ^ csize st -> csize st < MAX_CSIZE ->
     csize st' = csize st + 1 /\ mask st' = 2 ^ (csize st + 1) - 1 /\
     flag st' = flag st) /\
  (table_elements st + 1 = 2 ^ csize st -> csize st = MAX_CSIZE ->
     csize st' = csize st /\ mask st' = mask st /\ flag st' = DEFERRED) /\
  (table_elements st + 1 <> 2 ^ csize st ->
     csize st' = csize st /\ mask st' = mask st /\ flag st' = flag st).
Proof.
  unfold MAX_CSIZE. intros Hc H. unfold insert in H. fields.
  rewrite Z.shiftl_1_l in H.
  destruct (table_elements st + 1 <? 2 ^ 32); [| discriminate].
  destruct (Z.eqb_spec (table_elements st + 1) (2 ^ csize st)) as [E | E].
  - unfold MAX_CSIZE in H.
    destruct (Z.ltb_spec (csize st) 12) as [Hlt | Hge];
      injection H as <-; fields.
    + assert (Hp : 2 ^ (csize st + 1) <= 2 ^ 12)
        by (apply Z.pow_le_mono_r; lia).
      assert (Hp0 : 0 < 2 ^ (csize st + 1)) by (apply Z.pow_pos_nonneg; lia).
      rewrite (u16_small (csize st + 1)) by lia.
      rewrite Z.shiftl_1_l, u16_small by lia.
      repeat split; try reflexivity; intros; lia.
    + repeat split; try reflexivity; intros; lia.
  - injection H as <-; fields.
    repeat split; try reflexivity; intros; contradiction.
Qed.

(** A pass through the body that continues keeps the position computed by
    [advance]. *)
Lemma exec_frame (cs : Z) (st st' : state) (code : Z) :
  exec cs st code = Continue st' ->
  offset st' = offset st /\ ind st' = ind st /\ oldcode st' = code.
Proof.
  unfold exec. intros H.
  assert (Hrun :
    (if code =? EOI cs then Break st
     else if code =? CLEAR cs then
       Continue (set_oldcode (set_flag
         (set_width (set_table st (lzw_table st) (u32 (Z.shiftl 1 cs + 2)))
            (u16 (cs + 1)) (u16 (Z.shiftl 1 (u16 (cs + 1)) - 1)))
         FIRST) code)
     else match emit st code with
          | Some (seq, s') =>
              match append_codes (set_s st s') seq with
              | Some st1 =>
                  match insert st1 with
                  | Some st2 => Continue (set_oldcode st2 code)
                  | None => Undef
                  end
              | None => Overrun
              end
          | None => Undef
          end) = Continue st' ->
    offset st' = offset st /\ ind st' = ind st /\ oldcode st' = code).
  { clear H. intros H.
    destruct (code =? EOI cs); [discriminate |].
    destruct (code =? CLEAR cs).
    - injection H as <-. fields. auto.
    - destruct (emit st code) as [[seq s'] |] eqn:E1; [| discriminate].
      destruct (append_codes (set_s st s') seq) as [st1 |] eqn:Ea;
        [| discriminate].
      destruct (insert st1) as [st2 |] eqn:E2; [| discriminate].
      injection H as <-. fields.
      destruct (insert_frame _ _ E2) as (-> & -> & _).
      destruct (emit_frame _ _ _ _ Ea) as (-> & -> & _). auto. }
  destruct (flag st); auto.
  - destruct (code =? CLEAR cs); [| discriminate].
    injection H as <-. fields. auto.
  - destruct (code <? CLEAR cs); [| discriminate].
    destruct (append_codes st [code]) as [st1 |] eqn:Ea; [| discriminate].
    injection H as <-. fields.
    pose proof (append_codes_frame _ _ _ Ea) as (_ & _ & _ & -> & -> & _).
    auto.
Qed.

(** In the two states that decode, a pass that continues on a code other
    than CLEAR went through [emit] and [insert]. *)
Lemma exec_decoding (cs : Z) (st st' : state) (code : Z) :
  flag st = NORMAL \/ flag st = DEFERRED ->
  code <> CLEAR cs ->
  exec cs st code = Continue st' ->
  code <> EOI cs /\
  exists seq s' st1 st2,
    emit st code = Some (seq, s') /\
    append_codes (set_s st s') seq = Some st1 /\
    insert st1 = Some st2 /\ st' = set_oldcode st2 code.
Proof.
  intros Hf Hc H. unfold exec in H.
  assert (Hrun :
    (if code =? EOI cs then Break st
     else if code =? CLEAR cs then
       Continue (set_oldcode (set_flag
         (set_width (set_table st (lzw_table st) (u32 (Z.shiftl 1 cs + 2)))
            (u16 (cs + 1)) (u16 (Z.shiftl 1 (u16 (cs + 1)) - 1)))
         FIRST) code)
     else match emit st code with
          | Some (seq, s') =>
              match append_codes (set_s st s') seq with
              | Some st1 =>
                  match insert st1 with
                  | Some st2 => Continue (set_oldcode st2 code)
                  | None => Undef
                  end
              | None => Overrun
              end
          | None => Undef
          end) = Continue st' ->
    code <> EOI cs /\
    exists seq s' st1 st2,
      emit st code = Some (seq, s') /\
      append_codes (set_s st s') seq = Some st1 /\
      insert st1 = Some st2 /\ st' = set_oldcode st2 code).
  { clear H. intros H.
    destruct (Z.eqb_spec code (EOI cs)); [discriminate |].
    destruct (Z.eqb_spec code (CLEAR cs)); [contradiction |].
    destruct (emit st code) as [[seq s'] |] eqn:E1; [| discriminate].
    destruct (append_codes (set_s st s') seq) as [st1 |] eqn:Ea;
      [| discriminate].
    destruct (insert st1) as [st2 |] eqn:E2; [| discriminate].
    injection H as <-. split; [assumption |].
    exists seq, s', st1, st2. auto. }
  destruct Hf as [Hf | Hf]; rewrite Hf in H; auto.
Qed.

(* --------------------------------------------------------------------- *)
(** *** Fuel *)

Section Fuel.

Variables (cs len : Z) (bytes : Z -> Z).

Lemma loop_more_fuel (fuel : nat) :
  forall st e, loop cs len bytes fuel st = e -> e <> OutOfFuel ->
               forall k, loop cs len bytes (fuel + k) st = e.
Proof.
  induction fuel as [| fuel IH]; intros st e H Hne k.
  - simpl in H. congruence.
  - cbn [loop Nat.add] in *.
    destruct (ind st <=? len); [| exact H].
    destruct (body cs bytes st); auto.
Qed.

Lemma returns_unique (e1 e2 : exit) :
  returns cs len bytes e1 -> returns cs len bytes e2 -> e1 = e2.
Proof.
  intros [H1 [f1 E1]] [H2 [f2 E2]]. unfold LZWAlgorythm in *.
  pose proof (loop_more_fuel f1 _ _ E1 H1 f2) as A.
  pose proof (loop_more_fuel f2 _ _ E2 H2 f1) as B.
  rewrite Nat.add_comm in B. congruence.
Qed.

End Fuel.

(* --------------------------------------------------------------------- *)
(** *** The reader only looks at the bits of the code *)

Lemma low_bits (a x k o c : Z) :
  0 <= o -> 0 <= c -> o + c <= k ->
  ((a + 2 ^ k * x) / 2 ^ o) mod 2 ^ c = (a / 2 ^ o) mod 2 ^ c.
Proof.
  intros Ho Hc Hk.
  assert (Ek : 2 ^ k = 2 ^ (k - o - c) * 2 ^ c * 2 ^ o).
  { rewrite <- !Z.pow_add_r by lia. f_equal. lia. }
  assert (Hpo : 0 < 2 ^ o) by (apply Z.pow_pos_nonneg; lia).
  assert (Hpc : 0 < 2 ^ c) by (apply Z.pow_pos_nonneg; lia).
  rewrite Ek.
  replace (a + 2 ^ (k - o - c) * 2 ^ c * 2 ^ o * x)
    with (a + (2 ^ (k - o - c) * x * 2 ^ c) * 2 ^ o) by ring.
  rewrite Z.div_add by lia.
  replace (a / 2 ^ o + 2 ^ (k - o - c) * x * 2 ^ c)
    with (a / 2 ^ o + (2 ^ (k - o - c) * x) * 2 ^ c) by ring.
  apply Z.mod_add. lia.
Qed.

Lemma read_code_bits (bytes : Z -> Z) (st : state) :
  0 <= offset st -> 0 <= csize st -> mask st = 2 ^ csize st - 1 ->
  read_code bytes st =
  u16 ((fetch bytes (ind st) / 2 ^ offset st) mod 2 ^ csize st).
Proof.
  intros Ho Hc Hm. unfold read_code. rewrite Hm.
  replace (2 ^ csize st - 1) with (Z.ones (csize st))
    by (rewrite Z.ones_equiv; lia).
  rewrite Z.land_ones, Z.shiftr_div_pow2 by assumption. reflexivity.
Qed.

Lemma read_code_local (m1 m2 : Z -> Z) (L : Z) (st : state) :
  0 <= offset st -> 0 <= csize st -> mask st = 2 ^ csize st - 1 ->
  within L st = true ->
  (forall i, 0 <= i < L -> m1 i = m2 i) ->
  0 <= ind st ->
  read_code m1 st = read_code m2 st.
Proof.
  intros Ho Hc Hm Hw Hagree Hi.
  rewrite !read_code_bits by assumption. f_equal.
  unfold within in Hw. apply Z.leb_le in Hw.
  unfold fetch, byte_at.
  destruct (Z_lt_le_dec (ind st + 2) L) as [H3 | H3].
  - rewrite !Hagree by lia. reflexivity.
  - destruct (Z_lt_le_dec (ind st + 1) L) as [H2 | H2].
    + rewrite <- !Z.add_assoc, !Hagree by lia.
      rewrite !Z.add_assoc.
      rewrite !(low_bits _ _ 16) by lia. reflexivity.
    + destruct (Z_lt_le_dec (ind st) L) as [H1 | H1].
      * rewrite (Hagree (ind st)) by lia.
        replace (m2 (ind st) mod 256 + 2 ^ 8 * (m1 (ind st + 1) mod 256)
                 + 2 ^ 16 * (m1 (ind st + 2) mod 256))
          with (m2 (ind st) mod 256
                + 2 ^ 8 * (m1 (ind st + 1) mod 256
                           + 2 ^ 8 * (m1 (ind st + 2) mod 256)))
          by (change (2 ^ 16) with (2 ^ 8 * 2 ^ 8); ring).
        replace (m2 (ind st) mod 256 + 2 ^ 8 * (m2 (ind st + 1) mod 256)
                 + 2 ^ 16 * (m2 (ind st + 2) mod 256))
          with (m2 (ind st) mod 256
                + 2 ^ 8 * (m2 (ind st + 1) mod 256
                           + 2 ^ 8 * (m2 (ind st + 2) mod 256)))
          by (change (2 ^ 16) with (2 ^ 8 * 2 ^ 8); ring).
        rewrite !(low_bits _ _ 8) by lia. reflexivity.
      * assert (csize st = 0) as -> by lia.
        rewrite !Z.mod_1_r. reflexivity.
Qed.

Lemma memory_agree (buf : list Z) (r1 r2 : Z -> Z) (i : Z) :
  0 <= i < Z.of_nat (length buf) -> memory buf r1 i = memory buf r2 i.
Proof.
  intros Hi. unfold memory.
  destruct (Z.leb_spec 0 i); [| lia].
  destruct (Z.ltb_spec i (Z.of_nat (length buf))); [reflexivity | lia].
Qed.

Section Within.

Variable cs : Z.
Hypothesis Hcs : 2 <= cs <= 8.
Variables (len L : Z) (m1 m2 : Z -> Z).
Hypothesis Hagree : forall i, 0 <= i < L -> m1 i = m2 i.

Lemma body_within (st : state) :
  Inv cs st -> within L st = true -> body cs m1 st = body cs m2 st.
Proof.
  intros I Hw. unfold body. f_equal.
  destruct I. unfold MAX_CSIZE in *.
  apply (read_code_local m1 m2 L); try assumption; lia.
Qed.

Lemma loop_within_sound (fuel : nat) :
  forall st e, Inv cs st ->
    loop_within cs len m1 L fuel st = Some e ->
    loop cs len m2 fuel st = e.
Proof.
  induction fuel as [| fuel IH]; intros st e I H.
  - simpl in *. congruence.
  - cbn [loop loop_within] in *.
    destruct (ind st <=? len); [| congruence].
    destruct (within L st) eqn:Hw; [| discriminate].
    rewrite <- (body_within st I Hw).
    destruct (body cs m1 st) as [st' | st' | | |] eqn:Hb; try congruence.
    apply IH; [| exact H]. eapply Inv_body; eauto.
Qed.

End Within.

(** A run on the buffer followed by zeros that never takes a bit from
    outside the buffer is the run on the buffer followed by anything. *)
Lemma run_on_buffer (cs : Z) (buf : list Z) (fuel : nat) (e : exit) :
  2 <= cs <= 8 ->
  loop_within cs (Z.of_nat (length buf)) (memory buf zeros)
              (Z.of_nat (length buf)) fuel (init cs) = Some e ->
  forall rest,
    LZWAlgorythm cs (Z.of_nat (length buf)) (memory buf rest) fuel = e.
Proof.
  intros Hcs H rest. unfold LZWAlgorythm.
  apply (loop_within_sound cs Hcs _ (Z.of_nat (length buf))
           (memory buf zeros) (memory buf rest)).
  - intros i Hi. apply memory_agree. exact Hi.
  - apply Inv_init. exact Hcs.
  - exact H.
Qed.

(* --------------------------------------------------------------------- *)
(** *** Progress of the reader *)

Section Progress.

Variable cs : Z.
Hypothesis Hcs : 2 <= cs <= 8.
Variables (len : Z) (bytes : Z -> Z).
Hypothesis Hlen : len + 2 < 2 ^ 32.

(** While [ind] cannot wrap, a pass moves the bit position forward by the
    width of the code it read. *)
Lemma body_position (st st' : state) :
  Inv cs st -> ind st <= len ->
  body cs bytes st = Continue st' ->
  8 * ind st' + offset st' = 8 * ind st + offset st + csize st.
Proof.
  intros I Hle Hb. unfold body in Hb.
  destruct (exec_frame _ _ _ _ Hb) as (Ho & Hi & _).
  rewrite Ho, Hi. destruct I. unfold MAX_CSIZE in *.
  rewrite advance_eq by lia. fields.
  pose proof (Z.div_mod (offset st + csize st) 8 ltac:(lia)) as Hdm.
  pose proof (Z.mod_pos_bound (offset st + csize st) 8 ltac:(lia)) as Hm.
  rewrite u32_small by lia. lia.
Qed.

Lemma loop_enough_fuel (n : nat) :
  forall st, Inv cs st ->
    8 * (len + 1) - (8 * ind st + offset st) <= Z.of_nat n ->
    loop cs len bytes (S n) st <> OutOfFuel.
Proof.
  induction n as [| n IH]; intros st I Hn.
  - cbn [loop]. destruct (Z.leb_spec (ind st) len) as [Hle | Hgt].
    + destruct I. lia.
    + discriminate.
  - cbn [loop]. destruct (Z.leb_spec (ind st) len) as [Hle | Hgt];
      [| discriminate].
    destruct (body cs bytes st) as [st' | st' | | |] eqn:Hb; try discriminate.
    apply IH; [eapply Inv_body; eauto |].
    rewrite (body_position st st' I Hle Hb).
    destruct I. lia.
Qed.

Lemma LZWAlgorythm_terminates : exists e, returns cs len bytes e.
Proof.
  exists (LZWAlgorythm cs len bytes (S (Z.to_nat (8 * (len + 1))))).
  split; [| eexists; reflexivity].
  apply loop_enough_fuel; [apply Inv_init; exact Hcs |].
  unfold init; fields. lia.
Qed.

End Progress.

(* --------------------------------------------------------------------- *)
(** *** The run on [alternating] with [len = UINT_MAX] *)

Lemma even_u32 (x : Z) : Z.even (u32 x) = Z.even x.
Proof.
  unfold u32. rewrite (Z.div_mod x (2 ^ 32)) at 2 by lia.
  rewrite Z.even_add, Z.even_mul.
  change (Z.even (2 ^ 32)) with true. cbn [orb].
  destruct (Z.even (x mod 2 ^ 32)); reflexivity.
Qed.

Lemma read_code_alternating (st : state) :
  csize st = 8 -> mask st = 255 -> offset st = 0 ->
  read_code alternating st = if Z.even (ind st) then 128 else 0.
Proof.
  intros Hc Hm Ho. rewrite read_code_bits by (rewrite ?Hc, ?Hm; lia).
  rewrite Hc, Ho. unfold fetch.
  change (2 ^ 0) with 1. rewrite Z.div_1_r.
  replace (byte_at alternating (ind st)
           + 2 ^ 8 * byte_at alternating (ind st + 1)
           + 2 ^ 16 * byte_at alternating (ind st + 2))
    with (byte_at alternating (ind st)
          + 2 ^ 8 * (byte_at alternating (ind st + 1)
                     + 2 ^ 8 * byte_at alternating (ind st + 2)))
    by (change (2 ^ 16) with (2 ^ 8 * 2 ^ 8); ring).
  pose proof (low_bits (byte_at alternating (ind st))
                (byte_at alternating (ind st + 1)
                 + 2 ^ 8 * byte_at alternating (ind st + 2)) 8 0 8) as Hl.
  change (2 ^ 0) with 1 in Hl. rewrite !Z.div_1_r in Hl.
  rewrite Hl by lia.
  unfold byte_at, alternating.
  destruct (Z.even (ind st)); reflexivity.
Qed.

(** Appending one value to an output vector whose capacity is a multiple
    of 10: the copy stays inside the block, also when the count wraps. *)
Lemma append_one_value (st : state) (v : Z) :
  Z.of_nat (length (lzw_codes st)) < 2 ^ 32 ->
  Z.of_nat (length (lzw_codes st)) <= codes_alloc st ->
  0 < codes_alloc st < 2 ^ 64 -> codes_alloc st mod 10 = 0 ->
  exists st1,
    append_codes st [v] = Some st1 /\
    Z.of_nat (length (lzw_codes st1)) < 2 ^ 32 /\
    Z.of_nat (length (lzw_codes st1)) <= codes_alloc st1 /\
    0 < codes_alloc st1 < 2 ^ 64 /\ codes_alloc st1 mod 10 = 0.
Proof.
  intros Hcnt Hal Hpos Hmod.
  assert (H64 : 2 ^ 33 < 2 ^ 64) by (apply Z.pow_lt_mono_r; lia).
  assert (H33 : 2 ^ 33 = 2 * 2 ^ 32) by reflexivity.
  assert (H32 : 0 < 2 ^ 32) by (apply Z.pow_pos_nonneg; lia).
  assert (Hdef : exists a,
            append_codes st [v]
            = Some (set_output st
                      (firstn (Z.to_nat (u32 (Z.of_nat (length (lzw_codes st))
                                             + 1)))
                              (lzw_codes st ++ [v])) a) /\
            Z.of_nat (length (lzw_codes st)) + 1 <= a /\
            0 < a < 2 ^ 64 /\ a mod 10 = 0).
  { rewrite append_codes_eq. cbv zeta. cbn [length].
    change (Z.of_nat 1) with 1.
    set (e := Z.of_nat (length (lzw_codes st))) in *.
    assert (He : 0 <= e) by (unfold e; lia).
    destruct (Z_lt_le_dec (e + 1) (2 ^ 32)) as [Hs | Hs].
    - rewrite (u32_small (e + 1)) by lia.
      destruct (Z.ltb_spec (codes_alloc st) (e + 1)) as [Hg | Hg].
      + assert (Ea : codes_alloc st = e) by lia.
        assert (He10 : 10 <= e).
        { destruct (Z_lt_le_dec e 10) as [Hlt | Hge]; [| exact Hge].
          rewrite Ea, Z.mod_small in Hmod by lia. lia. }
        destruct (Z.ltb_spec 1 e) as [_ | Hbad]; [| lia].
        rewrite Ea. unfold usz. rewrite Z.mod_small by lia.
        destruct (Z.leb_spec (e + 1) (e + e)); [| lia].
        eexists. split; [reflexivity |].
        split; [lia |]. split; [lia |].
        rewrite Ea in Hmod. rewrite Z.add_mod, Hmod by lia. reflexivity.
      + rewrite Z.add_0_r. unfold usz. rewrite Z.mod_small by lia.
        destruct (Z.leb_spec (e + 1) (codes_alloc st)); [| lia].
        eexists. split; [reflexivity |]. split; [lia |].
        split; [lia | exact Hmod].
    - assert (Ee : e + 1 = 2 ^ 32) by lia.
      rewrite Ee. change (u32 (2 ^ 32)) with 0.
      destruct (Z.ltb_spec (codes_alloc st) 0) as [Hbad | _]; [lia |].
      rewrite Z.add_0_r. unfold usz. rewrite Z.mod_small by lia.
      assert (Hbig : 2 ^ 32 <= codes_alloc st).
      { destruct (Z.eq_dec (codes_alloc st) (2 ^ 32 - 1)) as [E | E];
          [| lia].
        rewrite E in Hmod. discriminate Hmod. }
      destruct (Z.leb_spec (2 ^ 32) (codes_alloc st)); [| lia].
      eexists. split; [reflexivity |]. split; [lia |].
      split; [lia | exact Hmod]. }
  destruct Hdef as (a & Happ & Hfit & Ha & Ha10).
  eexists. split; [exact Happ |]. fields.
  pose proof (append_codes_frame _ _ _ Happ)
    as (_ & _ & _ & _ & _ & _ & _ & _ & _ & _ & Hlen & _).
  fields. cbn [length] in Hlen. change (Z.of_nat 1) with 1 in Hlen.
  pose proof (u32_bounds (Z.of_nat (length (lzw_codes st)) + 1)) as Hu.
  assert (Hle : u32 (Z.of_nat (length (lzw_codes st)) + 1)
                <= Z.of_nat (length (lzw_codes st)) + 1)
    by (unfold u32; apply Z.mod_le; lia).
  rewrite Hlen. repeat split; lia.
Qed.

Lemma Cycling_step (st : state) :
  Cycling st ->
  exists st', body 7 alternating st = Continue st' /\ Cycling st'.
Proof.
  intros (Hc & Hm & Ho & Hi & Hf & Hcnt & Hal & Hpos & Hmod).
  unfold body. rewrite (read_code_alternating st Hc Hm Ho).
  rewrite advance_eq by lia. rewrite Hc, Ho.
  change ((0 + 8) mod 8) with 0. change ((0 + 8) / 8) with 1.
  assert (Hpar : Z.even (u32 (ind st + 1)) = negb (Z.even (ind st))).
  { rewrite even_u32. replace (ind st + 1) with (Z.succ (ind st)) by lia.
    rewrite Z.even_succ, <- Z.negb_even. reflexivity. }
  pose proof (u32_bounds (ind st + 1)) as Hb.
  unfold Cycling.
  destruct Hf as [[Hf H0] | [[Hf Hodd] | [Hf Hev]]].
  - rewrite H0. change (Z.even 0) with true. cbv iota.
    unfold exec; fields. rewrite Hf. change (128 =? CLEAR 7) with true.
    cbv iota. eexists; split; [reflexivity |]. fields.
    rewrite H0 in *. repeat split; try assumption; try (apply Hb); try lia.
    right; left. split; [reflexivity |]. rewrite Hpar. reflexivity.
  - rewrite Hodd. unfold exec; fields. rewrite Hf.
    change (0 <? CLEAR 7) with true. cbv iota.
    destruct (append_one_value (set_pos st 0 (u32 (ind st + 1))) 0)
      as (st1 & Happ & Hcnt1 & Hal1 & Hpos1 & Hmod1);
      fields; try assumption.
    rewrite Happ.
    pose proof (append_codes_frame _ _ _ Happ)
      as (_ & Hc1 & Hm1 & Ho1 & Hi1 & _).
    fields.
    eexists; split; [reflexivity |]. fields.
    rewrite Hc1, Hm1, Ho1, Hi1.
    repeat split; try assumption; try (apply Hb); try lia.
    right; right. split; [reflexivity |]. rewrite Hpar, Hodd. reflexivity.
  - rewrite Hev. unfold exec; fields. rewrite Hf.
    change (128 =? EOI 7) with false. change (128 =? CLEAR 7) with true.
    cbv iota. eexists; split; [reflexivity |]. fields.
    repeat split; try reflexivity; try assumption; try (apply Hb); try lia.
    right; left. split; [reflexivity |]. rewrite Hpar, Hev. reflexivity.
Qed.

Lemma Cycling_forever (fuel : nat) :
  forall st, Cycling st -> loop 7 UINT_MAX alternating fuel st = OutOfFuel.
Proof.
  induction fuel as [| fuel IH]; intros st C; [reflexivity |].
  cbn [loop].
  destruct (Z.leb_spec (ind st) UINT_MAX) as [_ | Hgt].
  - destruct (Cycling_step st C) as (st' & -> & C'). apply IH. exact C'.
  - unfold UINT_MAX in Hgt. destruct C as (_ & _ & _ & Hi & _). lia.
Qed.

End LZWFacts.

(* ===================================================================== *)
(** ** The properties of the specification *)
(* ===================================================================== *)

Import LZW LZWFacts.

Lemma passes_reachable (cs len : Z) (bytes : Z -> Z) (n : nat) :
  forall st st', reachable cs len bytes st ->
    passes cs len bytes n st = Some st' -> reachable cs len bytes st'.
Proof.
  induction n as [| n IH]; intros st st' R H.
  - injection H as <-. exact R.
  - cbn [passes] in H.
    destruct (Z.leb_spec (ind st) len) as [Hle | ]; [| discriminate].
    destruct (body cs bytes st) as [st1 | | | |] eqn:Hb; try discriminate.
    apply (IH st1); [| exact H]. eapply reach_step; eauto.
Qed.

Lemma observe_buffer_run {A : Type} (f : exit -> A) (cs : Z) (buf : list Z)
    (fuel : nat) (a : A) :
  2 <= cs <= 8 ->
  option_map f (loop_within cs (Z.of_nat (length buf)) (memory buf zeros)
                            (Z.of_nat (length buf)) fuel (init cs)) = Some a ->
  forall rest,
    f (LZWAlgorythm cs (Z.of_nat (length buf)) (memory buf rest) fuel) = a.
Proof.
  intros Hcs H rest.
  destruct (loop_within cs (Z.of_nat (length buf)) (memory buf zeros)
              (Z.of_nat (length buf)) fuel (init cs)) as [e |] eqn:E;
    [| discriminate].
  injection H as <-. f_equal. apply run_on_buffer; assumption.
Qed.

(** A pass in DEFERRED mode that decodes a code still adds a table entry. *)
Lemma deferred_pass_grows_table (cs len : Z) (bytes : Z -> Z) (st st' : state) :
  2 <= cs <= 8 -> reachable cs len bytes st ->
  flag st = DEFERRED -> read_code bytes st <> CLEAR cs ->
  body cs bytes st = Continue st' ->
  table_elements st' = table_elements st + 1 /\ 4096 < table_elements st'.
Proof.
  intros Hcs R Hf Hc Hb. unfold body in Hb.
  apply reachable_Inv in R; [| exact Hcs].
  assert (Hadv : advance st =
            set_pos st ((offset st + csize st) mod 8)
                    (u32 (ind st + (offset st + csize st) / 8))).
  { destruct R. unfold MAX_CSIZE in *. apply advance_eq; lia. }
  rewrite Hadv in Hb.
  assert (Hfa : flag (set_pos st ((offset st + csize st) mod 8)
                        (u32 (ind st + (offset st + csize st) / 8))) = NORMAL
                \/ flag (set_pos st ((offset st + csize st) mod 8)
                        (u32 (ind st + (offset st + csize st) / 8))) = DEFERRED)
    by (right; exact Hf).
  destruct (exec_decoding cs _ st' (read_code bytes st) Hfa Hc Hb)
    as (_ & seq & s' & st1 & st2 & E1 & Ea & E2 & ->).
  destruct (emit_frame _ _ _ _ Ea) as (_ & _ & _ & _ & _ & Hel & _).
  destruct (insert_frame _ _ E2) as (_ & _ & _ & _ & _ & Hel' & _).
  fields. rewrite Hel', Hel.
  destruct (inv_full _ _ R Hf) as [_ H]. unfold MAX_CSIZE in H.
  change (2 ^ 12) with 4096 in H. lia.
Qed.

(** C1 (the code departs from it). On the buffer [4; 0; 0; ...] with code
    size 2 the table reaches 4096 entries, the decoder turns DEFERRED at
    width 12, and the next code still adds an entry: the function returns
    with 4097 table entries. *)
Theorem table_exceeds_4096_entries :
  option_map observe
    (final (LZWAlgorythm 2 5631 (memory [4] zeros) 4100))
  = Some (DEFERRED, 12, 4097).
Proof. vm_compute. reflexivity. Qed.

(* --------------------------------------------------------------------- *)
(** *** The branches of a decoding pass *)

Lemma insert_total (st : state) :
  table_elements st + 1 < 2 ^ 32 -> exists st', insert st = Some st'.
Proof.
  intros H. unfold insert.
  destruct (Z.ltb_spec (table_elements st + 1) (2 ^ 32)); [| lia].
  fields.
  destruct (table_elements st + 1 =? Z.shiftl 1 (csize st));
    [destruct (csize st <? MAX_CSIZE) |]; eexists; reflexivity.
Qed.

Lemma emit_known (st : state) (c x : Z) (e o : list Z) :
  flag st = NORMAL -> c < table_elements st ->
  lzw_table st c = Some (x :: e) -> lzw_table st (oldcode st) = Some o ->
  emit st c = Some (x :: e, o ++ [x]).
Proof.
  intros Hf Hc Hx Ho. unfold emit. rewrite Hf, Hx, Ho.
  destruct (Z.ltb_spec c (table_elements st)); [reflexivity | lia].
Qed.

Lemma emit_next (st : state) (c x : Z) (o : list Z) :
  flag st = NORMAL -> table_elements st <= c ->
  lzw_table st (oldcode st) = Some (x :: o) ->
  emit st c = Some ((x :: o) ++ [x], (x :: o) ++ [x]).
Proof.
  intros Hf Hc Ho. unfold emit. rewrite Hf, Ho.
  destruct (Z.ltb_spec c (table_elements st)); [lia | reflexivity].
Qed.

Lemma emit_deferred (st : state) (c : Z) (e : list Z) :
  flag st = DEFERRED -> lzw_table st c = Some e ->
  emit st c = Some (e, s st).
Proof. intros Hf He. unfold emit. rewrite Hf, He. reflexivity. Qed.

(** A decoding pass whose table reads are defined and whose table has
    room: it is no undefined table access, and it continues when the
    count of the output stays below [2 ^ 32]. *)
Lemma exec_decode (cs : Z) (st : state) (c : Z) (seq s' : list Z) :
  flag st = NORMAL \/ flag st = DEFERRED ->
  c <> EOI cs -> c <> CLEAR cs ->
  emit st c = Some (seq, s') ->
  table_elements st + 1 < 2 ^ 32 ->
  exec cs st c <> Undef /\
  (Z.of_nat (length (lzw_codes st)) <= codes_alloc st < 2 ^ 64 ->
   Z.of_nat (length (lzw_codes st)) + Z.of_nat (length seq) < 2 ^ 32 ->
   exists a st2,
     insert (set_output (set_s st s') (lzw_codes st ++ seq) a) = Some st2 /\
     exec cs st c = Continue (set_oldcode st2 c)).
Proof.
  intros Hf He Hc E1 Hroom.
  assert (Hex : exec cs st c =
                match append_codes (set_s st s') seq with
                | Some st1 =>
                    match insert st1 with
                    | Some st2 => Continue (set_oldcode st2 c)
                    | None => Undef
                    end
                | None => Overrun
                end).
  { unfold exec. apply Z.eqb_neq in He. apply Z.eqb_neq in Hc.
    destruct Hf as [Hf | Hf]; rewrite Hf, He, Hc, E1; reflexivity. }
  rewrite Hex. split.
  - destruct (append_codes (set_s st s') seq) as [st1 |] eqn:Ea;
      [| discriminate].
    destruct (emit_frame _ _ _ _ Ea) as (_ & _ & _ & _ & _ & Hel & _).
    destruct (insert_total st1) as [st2 E2]; [rewrite Hel; exact Hroom |].
    rewrite E2. discriminate.
  - intros Ha Hs.
    destruct (append_codes_small (set_s st s') seq Ha Hs) as (a & Ea & _).
    fields. rewrite Ea.
    destruct (insert_total
                (set_output (set_s st s') (lzw_codes st ++ seq) a))
      as [st2 E2]; [fields; exact Hroom |].
    exists a, st2. rewrite E2. split; reflexivity.
Qed.

Lemma exec_clear (cs : Z) (st : state) :
  2 <= cs <= 8 -> flag st = NORMAL \/ flag st = DEFERRED ->
  exec cs st (CLEAR cs) =
  Continue (set_oldcode
              (set_flag
                 (set_width (set_table st (lzw_table st) (2 ^ cs + 2))
                            (cs + 1) (2 ^ (cs + 1) - 1))
                 FIRST)
              (CLEAR cs)).
Proof.
  intros Hcs Hf.
  pose proof (pow2_code_size cs Hcs) as Hp.
  pose proof (pow2_double cs ltac:(lia)) as Hd.
  assert (Hne : (CLEAR cs =? EOI cs) = false).
  { apply Z.eqb_neq. rewrite (EOI_eq cs Hcs), (CLEAR_eq cs Hcs). lia. }
  assert (Hrun : (if CLEAR cs =? EOI cs then Break st
                  else if CLEAR cs =? CLEAR cs then
                    Continue (set_oldcode (set_flag
                      (set_width (set_table st (lzw_table st)
                                    (u32 (Z.shiftl 1 cs + 2)))
                         (u16 (cs + 1)) (u16 (Z.shiftl 1 (u16 (cs + 1)) - 1)))
                      FIRST) (CLEAR cs))
                  else match emit st (CLEAR cs) with
                       | Some (seq, s') =>
                           match append_codes (set_s st s') seq with
                           | Some st1 =>
                               match insert st1 with
                               | Some st2 =>
                                   Continue (set_oldcode st2 (CLEAR cs))
                               | None => Undef
                               end
                           | None => Overrun
                           end
                       | None => Undef
                       end) =
                 Continue (set_oldcode
                   (set_flag
                      (set_width (set_table st (lzw_table st) (2 ^ cs + 2))
                                 (cs + 1) (2 ^ (cs + 1) - 1))
                      FIRST)
                   (CLEAR cs))).
  { rewrite Hne, Z.eqb_refl.
    rewrite (u16_small (cs + 1)), !Z.shiftl_1_l by lia.
    rewrite u32_small, u16_small by lia. reflexivity. }
  unfold exec. destruct Hf as [Hf | Hf]; rewrite Hf; exact Hrun.
Qed.


(** What [advance] leaves as it was. *)
Lemma advance_keeps (st : state) :
  flag (advance st) = flag st /\ csize (advance st) = csize st /\
  mask (advance st) = mask st /\ lzw_table (advance st) = lzw_table st /\
  table_elements (advance st) = table_elements st /\
  lzw_codes (advance st) = lzw_codes st /\ s (advance st) = s st /\
  oldcode (advance st) = oldcode st.
Proof.
  unfold advance.
  destruct (skip_bytes (Z.to_nat (offset st + csize st))
              (offset st + csize st) (ind st)) as [o i].
  fields. repeat split; reflexivity.
Qed.

(* --------------------------------------------------------------------- *)
(** *** The end of the buffer *)

(** Once the first literal is in, no code makes the function return 0. *)
Lemma decoding_never_returns_0 (cs : Z) (st : state) (code : Z) :
  flag st = NORMAL \/ flag st = DEFERRED -> exec cs st code <> Return0.
Proof.
  intros Hf. unfold exec.
  assert (Hrun :
    (if code =? EOI cs then Break st
     else if code =? CLEAR cs then
       Continue (set_oldcode (set_flag
         (set_width (set_table st (lzw_table st) (u32 (Z.shiftl 1 cs + 2)))
            (u16 (cs + 1)) (u16 (Z.shiftl 1 (u16 (cs + 1)) - 1)))
         FIRST) code)
     else match emit st code with
          | Some (seq, s') =>
              match append_codes (set_s st s') seq with
              | Some st1 =>
                  match insert st1 with
                  | Some st2 => Continue (set_oldcode st2 code)
                  | None => Undef
                  end
              | None => Overrun
              end
          | None => Undef
          end) <> Return0).
  { destruct (code =? EOI cs); [discriminate |].
    destruct (code =? CLEAR cs); [discriminate |].
    destruct (emit st code) as [[seq s'] |]; [| discriminate].
    destruct (append_codes (set_s st s') seq) as [st1 |]; [| discriminate].
    destruct (insert st1); discriminate. }
  destruct Hf as [Hf | Hf]; rewrite Hf; exact Hrun.
Qed.








(* --------------------------------------------------------------------- *)
(** *** Codes beyond the table *)

(** C3 (the code departs from it). With code size 2 the stream CLEAR, 0,
    7, EOI holds the code 7 while the table has 6 entries.  The code is
    taken through the branch for [code >= lzw_table.elements]: the call
    leaves the loop on EOI and returns [0; 0; 0]. *)
Theorem code_beyond_table_is_decoded :
  forall rest,
    how (LZWAlgorythm 2 2 (memory (pack (at_width 3 [4; 0; 7; 5])) rest) 4)
    = Some ByEOI /\
    returned (LZWAlgorythm 2 2 (memory (pack (at_width 3 [4; 0; 7; 5])) rest) 4)
    = Some [0; 0; 0].
Proof.
  intros rest. split.
  - apply (observe_buffer_run how 2 (pack (at_width 3 [4; 0; 7; 5])) 4);
      [lia | vm_compute; reflexivity].
  - apply (observe_buffer_run returned 2 (pack (at_width 3 [4; 0; 7; 5])) 4);
      [lia | vm_compute; reflexivity].
Qed.

(* --------------------------------------------------------------------- *)
(** *** The stream CLEAR, EOI *)

(** C4, as stated, fails: with code size 2 the stream CLEAR, EOI does not
    decode to the empty output. *)
Lemma clear_then_eoi_counterexample :
  ~ (exists e,
       returns 2 1 (memory (pack (at_width 3 [CLEAR 2; EOI 2])) zeros) e /\
       returned e = Some []).
Proof.
  intros (e & Hr & Hout).
  assert (Hbad : returns 2 1 (memory (pack (at_width 3 [CLEAR 2; EOI 2])) zeros)
                   BadCode).
  { split; [discriminate |]. exists 2%nat. vm_compute. reflexivity. }
  rewrite (returns_unique _ _ _ _ _ Hr Hbad) in Hout. discriminate Hout.
Qed.

(** C4, amended. For every code size in 2..8 the two-code stream CLEAR,
    EOI packed at width code size + 1 is rejected: the code after CLEAR has
    to be a literal, EOI is not one, and the function returns 0. *)
Theorem clear_then_eoi_is_rejected (cs : Z) (rest : Z -> Z) :
  2 <= cs <= 8 ->
  returns cs
    (Z.of_nat (length (pack (at_width (cs + 1) [CLEAR cs; EOI cs]))))
    (memory (pack (at_width (cs + 1) [CLEAR cs; EOI cs])) rest)
    BadCode.
Proof.
  intros Hcs. split; [discriminate |]. exists 2%nat.
  assert (E : cs = 2 \/ cs = 3 \/ cs = 4 \/ cs = 5 \/ cs = 6 \/ cs = 7 \/ cs = 8)
    by lia.
  destruct E as [-> | [-> | [-> | [-> | [-> | [-> | ->]]]]]];
    (apply run_on_buffer; [lia | vm_compute; reflexivity]).
Qed.

Lemma clear_then_eoi_is_rejected_witness :
  returns 2 (Z.of_nat (length (pack (at_width (2 + 1) [CLEAR 2; EOI 2]))))
    (memory (pack (at_width (2 + 1) [CLEAR 2; EOI 2])) zeros) BadCode.
Proof.
  apply (clear_then_eoi_is_rejected 2 zeros). lia.
Defined.

(* --------------------------------------------------------------------- *)
(** *** The scenario with code size 2 *)

(** The scenario's buffer after five passes: the table reached 8 entries on
    the fourth code, so the fifth was read with 4 bits and came out as 11. *)
Example scenario_fifth_code :
  option_map (fun st => (csize st, oldcode st, lzw_codes st))
    (passes 2 3 (memory (pack (at_width 3 [4; 0; 1; 2; 3; 5])) zeros) 5
            (init 2))
  = Some (4, 11, [0; 1; 2; 2; 2]).
Proof. vm_compute. reflexivity. Qed.

(** C5, as stated, fails: the buffer that packs 4, 0, 1, 2, 3, 5 at width 3
    throughout does not decode to [0; 1; 2; 3]. *)
Lemma scenario_width_3_counterexample :
  ~ (exists e,
       returns 2 3 (memory (pack (at_width 3 [4; 0; 1; 2; 3; 5])) zeros) e /\
       returned e = Some [0; 1; 2; 3]).
Proof.
  intros (e & Hr & Hout).
  assert (Hu : returns 2 3 (memory (pack (at_width 3 [4; 0; 1; 2; 3; 5])) zeros)
                 Undefined).
  { split; [discriminate |]. exists 6%nat. vm_compute. reflexivity. }
  rewrite (returns_unique _ _ _ _ _ Hr Hu) in Hout. discriminate Hout.
Qed.

(** C5, amended. With code size 2, the buffer that packs 4, 0, 1, 2 at
    width 3 and then 3, 5 at width 4 (the width in force once the table
    holds 8 entries) decodes to exactly [0; 1; 2; 3], ending on EOI. *)
Theorem scenario_with_width_4_tail :
  forall rest,
    exists e,
      returns 2 3
        (memory (pack (at_width 3 [4; 0; 1; 2] ++ at_width 4 [3; 5])) rest) e /\
      how e = Some ByEOI /\ returned e = Some [0; 1; 2; 3].
Proof.
  intros rest.
  pose proof (observe_buffer_run how 2
                (pack (at_width 3 [4; 0; 1; 2] ++ at_width 4 [3; 5])) 6
                (Some ByEOI) ltac:(lia)
                ltac:(vm_compute; reflexivity) rest) as Hhow.
  pose proof (observe_buffer_run returned 2
                (pack (at_width 3 [4; 0; 1; 2] ++ at_width 4 [3; 5])) 6
                (Some [0; 1; 2; 3]) ltac:(lia)
                ltac:(vm_compute; reflexivity) rest) as Hout.
  change (Z.of_nat (length (pack (at_width 3 [4; 0; 1; 2] ++ at_width 4 [3; 5]))))
    with 3 in Hhow, Hout.
  exists (LZWAlgorythm 2 3
            (memory (pack (at_width 3 [4; 0; 1; 2] ++ at_width 4 [3; 5])) rest) 6).
  split; [split; [| exists 6%nat; reflexivity] | split; assumption].
  intros E. rewrite E in Hhow. discriminate Hhow.
Qed.

(* --------------------------------------------------------------------- *)
(** *** A slot that [calloc] zeroed *)

(** With code size 2 the block of the table has [MIN_ALLOC] = 10 slots, of
    which 6 are initialised.  In the stream 4, 0, 7, 0, 5 the fourth pass
    finds 7 as the previous code: [myv_copy] from slot 7 leaves [s] empty,
    the literal 0 is put behind, and the entry [0] brings the table to 8
    entries and the width to 4.  The call ends on EOI with four values. *)
Example zeroed_slot_is_copied :
  zeroed_slot_stream = [196; 81] /\
  option_map (fun st => (csize st, table_elements st, s st, lzw_codes st))
    (passes 2 2 (memory zeroed_slot_stream zeros) 4 (init 2))
  = Some (4, 8, [0], [0; 0; 0; 0]) /\
  forall rest,
    how (LZWAlgorythm 2 2 (memory zeroed_slot_stream rest) 5) = Some ByEOI /\
    returned (LZWAlgorythm 2 2 (memory zeroed_slot_stream rest) 5)
    = Some [0; 0; 0; 0].
Proof.
  split; [vm_compute; reflexivity |].
  split; [vm_compute; reflexivity |].
  intros rest. split.
  - apply (observe_buffer_run how 2 zeroed_slot_stream 5);
      [lia | vm_compute; reflexivity].
  - apply (observe_buffer_run returned 2 zeroed_slot_stream 5);
      [lia | vm_compute; reflexivity].
Qed.

(* --------------------------------------------------------------------- *)
(** *** The clear code *)



(* --------------------------------------------------------------------- *)
(** *** The code width *)

(** The code read is the [csize] bits at the current bit position. *)
Lemma read_code_exact (cs : Z) (Hcs : 2 <= cs <= 8) (bytes : Z -> Z)
    (st : state) :
  Inv cs st ->
  read_code bytes st
  = (fetch bytes (ind st) / 2 ^ offset st) mod 2 ^ csize st.
Proof.
  intros I. destruct I. unfold MAX_CSIZE in *.
  rewrite read_code_bits by (try assumption; lia).
  apply u16_small.
  pose proof (Z.mod_pos_bound (fetch bytes (ind st) / 2 ^ offset st)
                (2 ^ csize st) ltac:(apply Z.pow_pos_nonneg; lia)) as Hmod.
  assert (2 ^ csize st <= 2 ^ 12) by (apply Z.pow_le_mono_r; lia).
  lia.
Qed.

(** C6. A pass in NORMAL mode that decodes a code adds one table entry.  If
    that brings the table to exactly 2^csize entries, then csize goes up by
    one when it was below 12, and otherwise (csize = 12) the decoder turns
    DEFERRED with csize still 12; in every other case csize and the mode
    stay.  A decoding pass in DEFERRED mode keeps the mode and csize = 12,
    so only a CLEAR leaves it.  The code of the next pass is cut out with
    the resulting width, and the reader then moves on by that many bits. *)
Theorem full_table_widens_codes (cs len : Z) (bytes : Z -> Z)
    (st st' : state) :
  2 <= cs <= 8 ->
  reachable cs len bytes st ->
  flag st = NORMAL \/ flag st = DEFERRED ->
  read_code bytes st <> CLEAR cs ->
  body cs bytes st = Continue st' ->
  (flag st = NORMAL ->
     table_elements st' = table_elements st + 1 /\
     (table_elements st' = 2 ^ csize st -> csize st < 12 ->
        flag st' = NORMAL /\ csize st' = csize st + 1) /\
     (table_elements st' = 2 ^ csize st -> csize st = 12 ->
        flag st' = DEFERRED /\ csize st' = 12) /\
     (table_elements st' <> 2 ^ csize st ->
        flag st' = NORMAL /\ csize st' = csize st)) /\
  (flag st = DEFERRED -> flag st' = DEFERRED /\ csize st' = 12) /\
  csize st <= 12 /\
  read_code bytes st'
  = (fetch bytes (ind st') / 2 ^ offset st') mod 2 ^ csize st' /\
  advance st'
  = set_pos st' ((offset st' + csize st') mod 8)
            (u32 (ind st' + (offset st' + csize st') / 8)).
Proof.
  intros Hcs R Hf Hc Hb.
  pose proof (reachable_Inv cs Hcs len bytes st R) as I.
  pose proof (Inv_body cs Hcs bytes st st' I Hb) as I'.
  assert (Hadv : forall x, Inv cs x -> advance x =
            set_pos x ((offset x + csize x) mod 8)
                    (u32 (ind x + (offset x + csize x) / 8))).
  { intros x Ix. destruct Ix. unfold MAX_CSIZE in *. apply advance_eq; lia. }
  unfold body in Hb.
  assert (Hfa : flag (advance st) = NORMAL \/ flag (advance st) = DEFERRED)
    by (rewrite (Hadv st I); exact Hf).
  destruct (exec_decoding cs (advance st) st' (read_code bytes st) Hfa Hc Hb)
    as (_ & seq & s' & st1 & st2 & E1 & Ea & E2 & ->).
  destruct (emit_frame _ _ _ _ Ea) as (_ & _ & Hcs1 & Hm1 & Hf1 & Hel1 & _).
  destruct (insert_frame _ _ E2) as (_ & _ & _ & _ & _ & Hel2 & _).
  rewrite (Hadv st I) in Hcs1, Hm1, Hf1, Hel1. fields.
  assert (Hrange : 0 <= csize st1 < MAX_CSIZE + 1).
  { rewrite Hcs1. destruct I. unfold MAX_CSIZE in *. lia. }
  destruct (insert_width st1 st2 Hrange E2) as (Hup & Hdef & Hsame).
  rewrite Hcs1, Hel1 in Hup, Hdef, Hsame. rewrite Hf1 in Hup, Hsame.
  rewrite Hm1 in Hdef, Hsame. rewrite Hel1 in Hel2.
  unfold MAX_CSIZE in *.
  split; [| split; [| split; [| split]]].
  - intros Hn. rewrite Hn in *. split; [exact Hel2 |].
    rewrite Hel2. split; [| split].
    + intros Hfull Hlt. destruct (Hup Hfull Hlt) as (? & _ & ?). auto.
    + intros Hfull H12. destruct (Hdef Hfull H12) as (? & _ & ?).
      split; [assumption | lia].
    + intros Hnot. destruct (Hsame Hnot) as (? & _ & ?). auto.
  - intros Hd. destruct (inv_full _ _ I Hd) as [H12 Hbig].
    unfold MAX_CSIZE in *. change (2 ^ 12) with 4096 in Hbig.
    assert (Hnot : table_elements st + 1 <> 2 ^ csize st).
    { rewrite H12. change (2 ^ 12) with 4096. lia. }
    destruct (Hsame Hnot) as (? & _ & ?).
    split; [congruence | lia].
  - destruct I. unfold MAX_CSIZE in *. lia.
  - apply (read_code_exact cs Hcs bytes _ I').
  - apply (Hadv _ I').
Qed.

Lemma full_table_widens_codes_witness :
  table_elements (state_after 2 2 (memory zeroed_slot_stream zeros) 4) = 2 ^ 3 /\
  csize (state_after 2 2 (memory zeroed_slot_stream zeros) 3) = 3 /\
  csize (state_after 2 2 (memory zeroed_slot_stream zeros) 4) = 3 + 1 /\
  read_code (memory zeroed_slot_stream zeros)
            (state_after 2 2 (memory zeroed_slot_stream zeros) 4)
  = (fetch (memory zeroed_slot_stream zeros)
           (ind (state_after 2 2 (memory zeroed_slot_stream zeros) 4))
     / 2 ^ offset (state_after 2 2 (memory zeroed_slot_stream zeros) 4))
    mod 2 ^ csize (state_after 2 2 (memory zeroed_slot_stream zeros) 4).
Proof.
  assert (Hn : flag (state_after 2 2 (memory zeroed_slot_stream zeros) 3) = NORMAL)
    by (vm_compute; reflexivity).
  assert (Hc3 : csize (state_after 2 2 (memory zeroed_slot_stream zeros) 3) = 3)
    by (vm_compute; reflexivity).
  assert (He4 : table_elements (state_after 2 2 (memory zeroed_slot_stream zeros) 4)
                = 2 ^ 3)
    by (vm_compute; reflexivity).
  destruct (full_table_widens_codes 2 2 (memory zeroed_slot_stream zeros)
              (state_after 2 2 (memory zeroed_slot_stream zeros) 3)
              (state_after 2 2 (memory zeroed_slot_stream zeros) 4))
    as (Hnormal & _ & _ & Hread & _).
  - lia.
  - apply (passes_reachable 2 2 (memory zeroed_slot_stream zeros) 3 (init 2)).
    + apply reach_init.
    + vm_compute. reflexivity.
  - left. exact Hn.
  - vm_compute. discriminate.
  - vm_compute. reflexivity.
  - destruct (Hnormal Hn) as (_ & Hup & _).
    rewrite Hc3 in Hup.
    destruct (Hup He4 ltac:(lia)) as [_ Hw].
    repeat split; assumption.
Defined.

(* --------------------------------------------------------------------- *)
(** *** The values of the output *)

Lemma exec_break (cs : Z) (st st' : state) (code : Z) :
  exec cs st code = Break st' -> st' = st.
Proof.
  unfold exec. intros H.
  destruct (flag st).
  - destruct (code =? CLEAR cs); discriminate.
  - destruct (code <? CLEAR cs); [| discriminate].
    destruct (append_codes st [code]); discriminate.
  - destruct (code =? EOI cs); [injection H as <-; reflexivity |].
    destruct (code =? CLEAR cs); [discriminate |].
    destruct (emit st code) as [[seq s'] |]; [| discriminate].
    destruct (append_codes (set_s st s') seq) as [st1 |]; [| discriminate].
    destruct (insert st1); discriminate.
  - destruct (code =? EOI cs); [injection H as <-; reflexivity |].
    destruct (code =? CLEAR cs); [discriminate |].
    destruct (emit st code) as [[seq s'] |]; [| discriminate].
    destruct (append_codes (set_s st s') seq) as [st1 |]; [| discriminate].
    destruct (insert st1); discriminate.
Qed.

Lemma loop_final_Inv (cs : Z) (Hcs : 2 <= cs <= 8) (len : Z) (bytes : Z -> Z)
    (fuel : nat) :
  forall st why st', Inv cs st ->
    loop cs len bytes fuel st = Done why st' -> Inv cs st'.
Proof.
  induction fuel as [| fuel IH]; intros st why st' I H.
  - discriminate.
  - cbn [loop] in H. destruct (ind st <=? len).
    + destruct (body cs bytes st) as [st1 | st1 | | |] eqn:Hb; try discriminate.
      * apply (IH st1 why); [eapply Inv_body; eauto | exact H].
      * injection H as _ <-. unfold body in Hb.
        apply exec_break in Hb. subst st1. apply Inv_advance; assumption.
    + injection H as _ <-. exact I.
Qed.

(** C8. Every value in the output vector, at any point of the decoding and
    in what the function returns, is a literal index between 0 and
    CLEAR - 1: neither CLEAR nor EOI nor the code of a table entry is ever
    appended, only the literals an entry stands for. *)
Theorem output_values_are_literals (cs len : Z) (bytes : Z -> Z) :
  2 <= cs <= 8 ->
  (forall st, reachable cs len bytes st ->
     Forall (fun v => 0 <= v <= CLEAR cs - 1) (lzw_codes st)) /\
  (forall fuel out,
     returned (LZWAlgorythm cs len bytes fuel) = Some out ->
     Forall (fun v => 0 <= v <= CLEAR cs - 1) out /\
     ~ In (CLEAR cs) out /\ ~ In (EOI cs) out).
Proof.
  intros Hcs.
  assert (Hlit : forall l, Forall (literal cs) l ->
            Forall (fun v => 0 <= v <= CLEAR cs - 1) l).
  { intros l. apply Forall_impl. unfold literal. intros v Hv. lia. }
  split.
  - intros st R. apply Hlit. apply (inv_codes cs st).
    eapply reachable_Inv; eauto.
  - intros fuel out Hout.
    destruct (LZWAlgorythm cs len bytes fuel) as [| why st | | |] eqn:E;
      try discriminate.
    injection Hout as <-. unfold LZWAlgorythm in E.
    pose proof (loop_final_Inv cs Hcs len bytes fuel _ why st
                  (Inv_init cs Hcs) E) as I.
    pose proof (Hlit _ (inv_codes cs st I)) as Hall.
    rewrite Forall_forall in Hall.
    split; [apply Forall_forall; exact Hall |].
    split; intros Hin; apply Hall in Hin.
    + lia.
    + rewrite (EOI_eq cs Hcs), (CLEAR_eq cs Hcs) in Hin. lia.
Qed.

Lemma output_values_are_literals_witness :
  Forall (fun v => 0 <= v <= CLEAR 2 - 1) [0; 0; 0; 0] /\
  ~ In (CLEAR 2) [0; 0; 0; 0] /\ ~ In (EOI 2) [0; 0; 0; 0].
Proof.
  destruct (output_values_are_literals 2 2 (memory zeroed_slot_stream zeros))
    as [_ H].
  - lia.
  - apply (H 5%nat). vm_compute. reflexivity.
Defined.

(* --------------------------------------------------------------------- *)
(** *** Termination *)

(** C9 (the code departs from it). With [len = UINT_MAX] the test
    [ind <= len] holds for every value of [ind], and [ind++] wraps from
    UINT_MAX to 0.  On a memory that alternates 128 (CLEAR for code size 7)
    and 0 (a literal) the decoder goes FIRST, NORMAL, FIRST, ... one byte at
    a time and meets no EOI and no bad code: no number of passes leaves
    the loop. *)
Theorem loop_never_left_at_uint_max :
  forall fuel, LZWAlgorythm 7 UINT_MAX alternating fuel = OutOfFuel.
Proof.
  intros fuel. unfold LZWAlgorythm. apply Cycling_forever.
  unfold Cycling, init. fields.
  change (MyVector.alloc_elements (MyVector.myv_init 2 0 false 1)) with 10.
  assert (H64 : 0 < 2 ^ 64) by (apply Z.pow_pos_nonneg; lia).
  cbn [length].
  repeat split; try reflexivity; try lia.
  left. split; reflexivity.
Qed.

(** Below that, the loop is left: for code sizes 2..8 and [len + 2] within
    the range of [unsigned int], every call returns. *)
Lemma every_shorter_buffer_returns (cs len : Z) (bytes : Z -> Z) :
  2 <= cs <= 8 -> len + 2 <= UINT_MAX ->
  exists e, returns cs len bytes e.
Proof.
  intros Hcs Hlen. apply LZWAlgorythm_terminates; [exact Hcs |].
  unfold UINT_MAX in Hlen. lia.
Qed.

(* ===================================================================== *)
(** ** Further properties of the decoder *)
(* ===================================================================== *)

(** X1. A call whose first code is not CLEAR returns 0 at once, for every
    buffer length: the first [code size + 1] bits at [bytes] decide. *)
Theorem stream_must_open_with_clear (cs len : Z) (bytes : Z -> Z) :
  2 <= cs <= 8 -> 0 <= len ->
  fetch bytes 0 mod 2 ^ (cs + 1) <> 2 ^ cs ->
  LZWAlgorythm cs len bytes 1 = BadCode.
Proof.
  intros Hcs Hlen Hfirst.
  pose proof (Inv_init cs Hcs) as I.
  assert (Hcode : read_code bytes (init cs) = fetch bytes 0 mod 2 ^ (cs + 1)).
  { rewrite (read_code_exact cs Hcs bytes _ I).
    clear I.
    replace (ind (init cs)) with 0 by reflexivity.
    replace (offset (init cs)) with 0 by reflexivity.
    replace (csize (init cs)) with (cs + 1)
      by (unfold init; cbn [csize]; rewrite u16_small; lia).
    change (2 ^ 0) with 1. rewrite Z.div_1_r. reflexivity. }
  unfold LZWAlgorythm. cbn [loop].
  replace (ind (init cs) <=? len) with true
    by (symmetry; apply Z.leb_le; exact Hlen).
  unfold body. rewrite Hcode.
  assert (Hadv : flag (advance (init cs)) = MUSTCLEAR).
  { destruct I. unfold MAX_CSIZE in *. rewrite advance_eq by lia. reflexivity. }
  unfold exec. rewrite Hadv, (CLEAR_eq cs Hcs).
  destruct (Z.eqb_spec (fetch bytes 0 mod 2 ^ (cs + 1)) (2 ^ cs));
    [contradiction | reflexivity].
Qed.

Lemma stream_must_open_with_clear_witness :
  LZWAlgorythm 2 1 (memory [5] zeros) 1 = BadCode.
Proof.
  apply (stream_must_open_with_clear 2 1 (memory [5] zeros)).
  - lia.
  - lia.
  - vm_compute. discriminate.
Defined.

(* --------------------------------------------------------------------- *)
(** *** The output vector only grows *)

Lemma advance_alloc (st : state) : codes_alloc (advance st) = codes_alloc st.
Proof.
  unfold advance.
  destruct (skip_bytes (Z.to_nat (offset st + csize st))
              (offset st + csize st) (ind st)) as [o i].
  reflexivity.
Qed.






(* --------------------------------------------------------------------- *)
(** *** Ranges of the reader's variables *)

(** X3. At the head of every pass the code width lies between
    code size + 1 and 12, the mask is 2^csize - 1, the bit offset is below
    8, the code about to be read is below 2^csize, and the table holds at
    least CLEAR + 2 entries: fewer than 2^csize outside DEFERRED mode, at
    least 4096 in it. *)
Theorem loop_head_ranges (cs len : Z) (bytes : Z -> Z) (st : state) :
  2 <= cs <= 8 ->
  reachable cs len bytes st ->
  cs + 1 <= csize st <= 12 /\
  mask st = 2 ^ csize st - 1 /\
  0 <= offset st < 8 /\
  0 <= read_code bytes st < 2 ^ csize st /\
  CLEAR cs + 2 <= table_elements st /\
  (flag st <> DEFERRED -> table_elements st < 2 ^ csize st <= 4096) /\
  (flag st = DEFERRED -> csize st = 12 /\ 4096 <= table_elements st).
Proof.
  intros Hcs R.
  pose proof (reachable_Inv cs Hcs len bytes st R) as I.
  pose proof (read_code_exact cs Hcs bytes st I) as Hrc.
  destruct I. unfold MAX_CSIZE in *.
  pose proof (pow2_width cs (csize st) ltac:(lia) inv_csize0) as Hw.
  repeat split; try lia; try assumption.
  - rewrite Hrc. apply Z.mod_pos_bound. lia.
  - rewrite Hrc. apply Z.mod_pos_bound. lia.
  - rewrite (CLEAR_eq cs Hcs). lia.
  - apply inv_room0. assumption.
  - apply inv_full0. assumption.
  - change 4096 with (2 ^ 12). apply inv_full0. assumption.
Qed.

Lemma loop_head_ranges_witness :
  2 + 1 <= csize (state_after 2 3 (memory growth_stream zeros) 4) <= 12 /\
  mask (state_after 2 3 (memory growth_stream zeros) 4)
  = 2 ^ csize (state_after 2 3 (memory growth_stream zeros) 4) - 1 /\
  0 <= offset (state_after 2 3 (memory growth_stream zeros) 4) < 8 /\
  0 <= read_code (memory growth_stream zeros)
                 (state_after 2 3 (memory growth_stream zeros) 4)
    < 2 ^ csize (state_after 2 3 (memory growth_stream zeros) 4) /\
  CLEAR 2 + 2
  <= table_elements (state_after 2 3 (memory growth_stream zeros) 4) /\
  (flag (state_after 2 3 (memory growth_stream zeros) 4) <> DEFERRED ->
   table_elements (state_after 2 3 (memory growth_stream zeros) 4)
   < 2 ^ csize (state_after 2 3 (memory growth_stream zeros) 4) <= 4096) /\
  (flag (state_after 2 3 (memory growth_stream zeros) 4) = DEFERRED ->
   csize (state_after 2 3 (memory growth_stream zeros) 4) = 12 /\
   4096 <= table_elements (state_after 2 3 (memory growth_stream zeros) 4)).
Proof.
  apply (loop_head_ranges 2 3 (memory growth_stream zeros)).
  - lia.
  - apply (passes_reachable 2 3 (memory growth_stream zeros) 4 (init 2)).
    + apply reach_init.
    + vm_compute. reflexivity.
Defined.

(* --------------------------------------------------------------------- *)
(** *** The reader's position and the number of passes *)

(** X4. While [ind] cannot wrap ([len + 2 <= UINT_MAX]), a pass that
    continues has moved the bit position [8 * ind + offset] forward by
    exactly the width of the code it read. *)
Theorem pass_consumes_code_width (cs len : Z) (bytes : Z -> Z)
    (st st' : state) :
  2 <= cs <= 8 -> len + 2 <= UINT_MAX ->
  reachable cs len bytes st -> ind st <= len ->
  body cs bytes st = Continue st' ->
  8 * ind st' + offset st' = 8 * ind st + offset st + csize st.
Proof.
  intros Hcs Hlen R Hle Hb.
  apply (body_position cs Hcs len bytes); try assumption.
  - unfold UINT_MAX in Hlen. lia.
  - eapply reachable_Inv; eauto.
Qed.

Lemma pass_consumes_code_width_witness :
  8 * ind (state_after 2 3 (memory growth_stream zeros) 4)
  + offset (state_after 2 3 (memory growth_stream zeros) 4)
  = 8 * ind (state_after 2 3 (memory growth_stream zeros) 3)
    + offset (state_after 2 3 (memory growth_stream zeros) 3)
    + csize (state_after 2 3 (memory growth_stream zeros) 3).
Proof.
  apply (pass_consumes_code_width 2 3 (memory growth_stream zeros)).
  - lia.
  - vm_compute. discriminate.
  - apply (passes_reachable 2 3 (memory growth_stream zeros) 3 (init 2)).
    + apply reach_init.
    + vm_compute. reflexivity.
  - vm_compute. discriminate.
  - vm_compute. reflexivity.
Defined.

(** X5. For code sizes 2..8 and [len + 2 <= UINT_MAX] the loop is over
    within [8 * (len + 1) + 1] passes: by then the call has returned, or a
    pass has made an undefined access; the work is linear in the length
    of the buffer. *)
Theorem decode_ends_within_linear_passes (cs len : Z) (bytes : Z -> Z) :
  2 <= cs <= 8 -> 0 <= len -> len + 2 <= UINT_MAX ->
  LZWAlgorythm cs len bytes (S (Z.to_nat (8 * (len + 1)))) <> OutOfFuel.
Proof.
  intros Hcs H0 Hlen. unfold LZWAlgorythm.
  apply (loop_enough_fuel cs Hcs len bytes).
  - unfold UINT_MAX in Hlen. lia.
  - apply Inv_init. exact Hcs.
  - unfold init; fields. lia.
Qed.

Lemma decode_ends_within_linear_passes_witness :
  LZWAlgorythm 2 3 (memory growth_stream zeros)
               (S (Z.to_nat (8 * (3 + 1)))) <> OutOfFuel.
Proof.
  apply (decode_ends_within_linear_passes 2 3 (memory growth_stream zeros)).
  - lia.
  - lia.
  - vm_compute. discriminate.
Defined.

(* --------------------------------------------------------------------- *)
(** *** Streams whose codes stay within the table *)

Import LZWStream.

Lemma valid_reachable_reachable (cs len : Z) (bytes : Z -> Z) (st : state) :
  valid_reachable cs len bytes st -> reachable cs len bytes st.
Proof.
  induction 1 as [| st st' _ IH Hle _ Hb].
  - apply reach_init.
  - eapply reach_step; eauto.
Qed.

Lemma Safe_init (cs : Z) : 2 <= cs <= 8 -> Safe (init cs).
Proof.
  intros Hcs. pose proof (Inv_init cs Hcs) as I.
  constructor.
  - intros i Hi. exists i, [].
    apply (inv_alphabet cs _ I).
    assert (table_elements (init cs) = 2 ^ cs + 2).
    { unfold init; fields. rewrite Z.shiftl_1_l. apply u32_small.
      pose proof (pow2_code_size cs Hcs). lia. }
    lia.
  - intros H. discriminate H.
  - intros H. discriminate H.
Qed.

Lemma Safe_body (cs : Z) (bytes : Z -> Z) (st st' : state) :
  2 <= cs <= 8 -> Inv cs st -> Safe st ->
  (flag st = NORMAL -> read_code bytes st <= table_elements st) ->
  body cs bytes st = Continue st' -> Safe st'.
Proof.
  intros Hcs I S Hvalid Hb.
  pose proof (pow2_code_size cs Hcs) as Hp.
  pose proof (CLEAR_eq cs Hcs) as HC.
  pose proof (EOI_eq cs Hcs) as HE.
  pose proof (read_code_nonneg bytes st) as Hnn.
  pose proof (Inv_body cs Hcs bytes st st' I Hb) as I'.
  destruct (advance_keeps st) as (Af & Ac & Am & At & Ae & Ao & As & Aold).
  unfold body in Hb.
  set (c := read_code bytes st) in *.
  destruct (flag st) eqn:Ef.
  - (* MUSTCLEAR *)
    unfold exec in Hb. rewrite Af in Hb.
    destruct (c =? CLEAR cs); [| discriminate].
    injection Hb as <-. destruct S.
    constructor; fields; rewrite ?At, ?Ae; try assumption;
      intros H; discriminate H.
  - (* FIRST *)
    unfold exec in Hb. rewrite Af in Hb.
    destruct (Z.ltb_spec c (CLEAR cs)); [| discriminate].
    destruct (append_codes (advance st) [c]) as [st0 |] eqn:Ea0;
      [| discriminate].
    injection Hb as <-. destruct S.
    pose proof (append_codes_frame _ _ _ Ea0)
      as (_ & _ & _ & _ & _ & Ht0 & Hn0 & _).
    constructor; fields; rewrite ?Ht0, ?Hn0, ?At, ?Ae; try assumption.
    + intros _. destruct I. lia.
    + intros H'. discriminate H'.
  - (* NORMAL *)
    destruct (Z.eq_dec c (CLEAR cs)) as [Hcl | Hncl].
    + rewrite Hcl in Hb. rewrite exec_clear in Hb;
        [| exact Hcs | left; rewrite Af; reflexivity].
      injection Hb as <-.
      constructor; fields.
      * intros i Hi. exists i, []. rewrite At.
        apply (inv_alphabet cs _ I). exact Hi.
      * intros H; discriminate H.
      * intros H; discriminate H.
    + assert (Hfa : flag (advance st) = NORMAL \/ flag (advance st) = DEFERRED)
        by (left; rewrite Af; reflexivity).
      destruct (exec_decoding cs _ _ _ Hfa Hncl Hb)
        as (Hne & seq & s' & st1 & st2 & E1 & Ea & E2 & ->).
      destruct (emit_frame _ _ _ _ Ea)
        as (_ & _ & _ & _ & Hf1 & Hel1 & Ht1 & Ho1 & Hs').
      destruct (insert_frame _ _ E2)
        as (_ & _ & _ & Hs2 & Ho2 & Hel2 & Hnew & Hkeep).
      rewrite Hel1, Ae in Hel2, Hnew. rewrite Ht1, At in Hkeep.
      rewrite Hel1, Ae in Hkeep.
      assert (Hs1 : exists x e, s st1 = x :: e).
      { rewrite Hs'. unfold emit in E1. rewrite Af, Ae, At, Aold in E1.
        destruct (c <? table_elements st).
        - destruct (lzw_table st c) as [[| x e] |]; try discriminate E1.
          destruct (lzw_table st (oldcode st)) as [o |] eqn:Eo;
            try discriminate E1.
          injection E1 as _ <-.
          destruct (safe_live _ S (oldcode st) (safe_oldcode _ S Ef))
            as (y & o' & Ho'). rewrite Ho' in Eo. injection Eo as <-.
          eexists; eexists; reflexivity.
        - destruct (lzw_table st (oldcode st)) as [[| x o] |];
            try discriminate E1.
          injection E1 as _ <-. eexists; eexists; reflexivity. }
      destruct Hs1 as (x1 & e1 & Hs1).
      constructor; fields.
      * intros i Hi. rewrite Hel2 in Hi.
        destruct (Z.eq_dec i (table_elements st)) as [-> | Hi'].
        -- rewrite Hnew, Hs1. eexists; eexists; reflexivity.
        -- rewrite (Hkeep i Hi'). apply (safe_live _ S). lia.
      * intros _. rewrite Hel2. specialize (Hvalid eq_refl). lia.
      * intros _. rewrite Hs2, Hs1. discriminate.
  - (* DEFERRED *)
    destruct (Z.eq_dec c (CLEAR cs)) as [Hcl | Hncl].
    + rewrite Hcl in Hb. rewrite exec_clear in Hb;
        [| exact Hcs | right; rewrite Af; reflexivity].
      injection Hb as <-.
      constructor; fields.
      * intros i Hi. exists i, []. rewrite At.
        apply (inv_alphabet cs _ I). exact Hi.
      * intros H; discriminate H.
      * intros H; discriminate H.
    + assert (Hfa : flag (advance st) = NORMAL \/ flag (advance st) = DEFERRED)
        by (right; rewrite Af; reflexivity).
      destruct (exec_decoding cs _ _ _ Hfa Hncl Hb)
        as (Hne & seq & s' & st1 & st2 & E1 & Ea & E2 & ->).
      destruct (emit_frame _ _ _ _ Ea)
        as (_ & _ & Hc1 & _ & Hf1 & Hel1 & Ht1 & Ho1 & Hs').
      destruct (insert_frame _ _ E2)
        as (_ & _ & _ & Hs2 & Ho2 & Hel2 & Hnew & Hkeep).
      rewrite Hel1, Ae in Hel2, Hnew. rewrite Ht1, At in Hkeep.
      rewrite Hel1, Ae in Hkeep.
      assert (Hs1 : s st1 = s st).
      { rewrite Hs'. unfold emit in E1. rewrite Af in E1.
        destruct (lzw_table (advance st) c); [| discriminate E1].
        injection E1 as _ <-. exact As. }
      pose proof (safe_s _ S Ef) as Hsne.
      destruct (s st) as [| x1 e1] eqn:Es; [contradiction |].
      constructor; fields.
      * intros i Hi. rewrite Hel2 in Hi.
        destruct (Z.eq_dec i (table_elements st)) as [-> | Hi'].
        -- rewrite Hnew, Hs1. eexists; eexists; reflexivity.
        -- rewrite (Hkeep i Hi'). apply (safe_live _ S). lia.
      * intros Hn. exfalso.
        assert (Hrange : 0 <= csize st1 < MAX_CSIZE + 1).
        { rewrite Hc1, Ac. destruct I. unfold MAX_CSIZE in *. lia. }
        destruct (insert_width st1 st2 Hrange E2) as (_ & _ & Hsame).
        rewrite Hc1, Ac, Hel1, Ae, Hf1, Af in Hsame.
        destruct (inv_full cs _ I Ef) as [H12 Hbig].
        assert (Hnot : table_elements st + 1 <> 2 ^ csize st).
        { rewrite H12. unfold MAX_CSIZE in *.
          change (2 ^ 12) with 4096 in *. lia. }
        destruct (Hsame Hnot) as (_ & _ & Hfl). congruence.
      * intros _. rewrite Hs2, Hs1. discriminate.
Qed.

Lemma valid_reachable_Safe (cs len : Z) (bytes : Z -> Z) (st : state) :
  2 <= cs <= 8 -> valid_reachable cs len bytes st -> Safe st.
Proof.
  intros Hcs R. induction R as [| st st' R IH Hle Hv Hb].
  - apply Safe_init. exact Hcs.
  - apply (Safe_body cs bytes st st' Hcs); try assumption.
    apply (reachable_Inv cs Hcs len bytes).
    apply valid_reachable_reachable. exact R.
Qed.

Lemma normal_known_code (cs len : Z) (bytes : Z -> Z) (st : state) :
  2 <= cs <= 8 ->
  valid_reachable cs len bytes st ->
  flag st = NORMAL ->
  read_code bytes st <> CLEAR cs ->
  read_code bytes st <> EOI cs ->
  read_code bytes st < table_elements st ->
  exists x seq prior,
    lzw_table st (read_code bytes st) = Some (x :: seq) /\
    lzw_table st (oldcode st) = Some prior /\
    body cs bytes st <> Undef /\
    (Z.of_nat (length (lzw_codes st)) + Z.of_nat (length (x :: seq))
     < 2 ^ 32 ->
     exists st',
       body cs bytes st = Continue st' /\
       lzw_codes st' = lzw_codes st ++ x :: seq /\
       table_elements st' = table_elements st + 1 /\
       lzw_table st' (table_elements st) = Some (prior ++ [x]) /\
       (forall i, i <> table_elements st ->
                  lzw_table st' i = lzw_table st i) /\
       oldcode st' = read_code bytes st).
Proof.
  intros Hcs R Hf Hcl He Hlt.
  pose proof (valid_reachable_Safe cs len bytes st Hcs R) as S.
  pose proof (reachable_Inv cs Hcs len bytes st
                (valid_reachable_reachable _ _ _ _ R)) as I.
  pose proof (read_code_nonneg bytes st) as Hnn.
  destruct (advance_keeps st) as (Af & Ac & Am & At & Ae & Ao & As & Aold).
  pose proof (advance_alloc st) as Aa.
  destruct (safe_live _ S (read_code bytes st) ltac:(lia)) as (x & seq & Hx).
  destruct (safe_live _ S (oldcode st) (safe_oldcode _ S Hf))
    as (y & o & Ho).
  assert (E1 : emit (advance st) (read_code bytes st)
               = Some (x :: seq, (y :: o) ++ [x])).
  { apply emit_known; rewrite ?Af, ?Ae, ?At, ?Aold; assumption. }
  assert (Hroom : table_elements (advance st) + 1 < 2 ^ 32).
  { rewrite Ae. destruct I.
    pose proof (pow2_width cs (csize st) ltac:(lia) inv_csize0).
    specialize (inv_room0 ltac:(rewrite Hf; discriminate)). lia. }
  destruct (exec_decode cs (advance st) (read_code bytes st) _ _
              (or_introl (eq_trans Af Hf)) He Hcl E1 Hroom) as [Hdef Hgo].
  exists x, seq, (y :: o).
  split; [exact Hx |]. split; [exact Ho |]. split; [exact Hdef |].
  intros Hcount.
  destruct Hgo as (a & st2 & E2 & Hb).
  { rewrite Ao, Aa. apply (inv_alloc _ _ I). }
  { rewrite Ao. exact Hcount. }
  destruct (insert_frame _ _ E2)
    as (_ & _ & Hc2 & _ & _ & Hel2 & Hnew & Hkeep).
  fields. rewrite Ae in Hel2, Hnew, Hkeep. rewrite At in Hkeep.
  rewrite Ao in Hc2.
  exists (set_oldcode st2 (read_code bytes st)).
  split; [exact Hb |].
  fields. repeat split; assumption.
Qed.

(** X6. A code already in the table, read in NORMAL mode of a run whose
    codes so far stayed within the table: its entry [seq] and the entry
    [prior] of the previous code are there to be read; and as long as the
    count of the output stays below [2 ^ 32], [seq] is appended to the
    output, the entry [prior ++ [first of seq]] is stored in the next free
    slot, no other slot changes, and the code becomes the previous
    code. *)
Theorem known_code_step (cs len : Z) (bytes : Z -> Z) (st : state) :
  2 <= cs <= 8 ->
  valid_reachable cs len bytes st ->
  flag st = NORMAL ->
  read_code bytes st <> CLEAR cs ->
  read_code bytes st <> EOI cs ->
  read_code bytes st < table_elements st ->
  exists x seq prior,
    lzw_table st (read_code bytes st) = Some (x :: seq) /\
    lzw_table st (oldcode st) = Some prior /\
    (Z.of_nat (length (lzw_codes st)) + Z.of_nat (length (x :: seq))
     < 2 ^ 32 ->
     exists st',
       body cs bytes st = Continue st' /\
       lzw_codes st' = lzw_codes st ++ x :: seq /\
       table_elements st' = table_elements st + 1 /\
       lzw_table st' (table_elements st) = Some (prior ++ [x]) /\
       (forall i, i <> table_elements st ->
                  lzw_table st' i = lzw_table st i) /\
       oldcode st' = read_code bytes st).
Proof.
  intros Hcs R Hf Hcl He Hlt.
  destruct (normal_known_code cs len bytes st Hcs R Hf Hcl He Hlt)
    as (x & seq & prior & Hx & Ho & _ & Hgo).
  exists x, seq, prior. auto.
Qed.

Lemma known_code_step_witness :
  exists x seq prior,
    lzw_table (state_after 2 3 (memory growth_stream zeros) 2)
      (read_code (memory growth_stream zeros)
                 (state_after 2 3 (memory growth_stream zeros) 2))
    = Some (x :: seq) /\
    lzw_table (state_after 2 3 (memory growth_stream zeros) 2)
      (oldcode (state_after 2 3 (memory growth_stream zeros) 2))
    = Some prior /\
    (Z.of_nat (length (lzw_codes
                         (state_after 2 3 (memory growth_stream zeros) 2)))
     + Z.of_nat (length (x :: seq)) < 2 ^ 32 ->
     exists st',
       body 2 (memory growth_stream zeros)
            (state_after 2 3 (memory growth_stream zeros) 2) = Continue st' /\
       lzw_codes st'
       = lzw_codes (state_after 2 3 (memory growth_stream zeros) 2)
         ++ x :: seq /\
       table_elements st'
       = table_elements (state_after 2 3 (memory growth_stream zeros) 2) + 1 /\
       lzw_table st'
         (table_elements (state_after 2 3 (memory growth_stream zeros) 2))
       = Some (prior ++ [x]) /\
       (forall i,
          i <> table_elements (state_after 2 3 (memory growth_stream zeros) 2) ->
          lzw_table st' i
          = lzw_table (state_after 2 3 (memory growth_stream zeros) 2) i) /\
       oldcode st'
       = read_code (memory growth_stream zeros)
                   (state_after 2 3 (memory growth_stream zeros) 2)).
Proof.
  apply (known_code_step 2 3 (memory growth_stream zeros)
           (state_after 2 3 (memory growth_stream zeros) 2)).
  - lia.
  - apply (valid_step 2 3 (memory growth_stream zeros)
             (state_after 2 3 (memory growth_stream zeros) 1)).
    + apply (valid_step 2 3 (memory growth_stream zeros) (init 2)).
      * apply valid_init.
      * vm_compute. discriminate.
      * intros H. discriminate H.
      * vm_compute. reflexivity.
    + vm_compute. discriminate.
    + intros H. vm_compute in H. discriminate H.
    + vm_compute. reflexivity.
  - vm_compute. reflexivity.
  - vm_compute. discriminate.
  - vm_compute. discriminate.
  - vm_compute. reflexivity.
Defined.

Lemma valid_passes_reachable (cs len : Z) (bytes : Z -> Z) (n : nat) :
  forall st st', valid_reachable cs len bytes st ->
    valid_passes cs len bytes n st = Some st' ->
    valid_reachable cs len bytes st'.
Proof.
  induction n as [| n IH]; intros st st' R H.
  - injection H as <-. exact R.
  - cbn [valid_passes] in H.
    destruct (Z.leb_spec (ind st) len) as [Hle |]; [| discriminate].
    cbn [andb] in H.
    destruct (match flag st with
              | NORMAL => read_code bytes st <=? table_elements st
              | _ => true
              end) eqn:Hv; [| discriminate].
    destruct (body cs bytes st) as [st1 | | | |] eqn:Hb; try discriminate.
    apply (IH st1); [| exact H].
    apply (valid_step cs len bytes st st1 R Hle); [| exact Hb].
    intros Hn. rewrite Hn in Hv. apply Z.leb_le. exact Hv.
Qed.

Lemma normal_code_from_prior (cs len : Z) (bytes : Z -> Z) (st : state) :
  2 <= cs <= 8 ->
  valid_reachable cs len bytes st ->
  flag st = NORMAL ->
  table_elements st <= read_code bytes st ->
  exists x prior,
    lzw_table st (oldcode st) = Some (x :: prior) /\
    body cs bytes st <> Undef /\
    (Z.of_nat (length (lzw_codes st))
     + Z.of_nat (length ((x :: prior) ++ [x])) < 2 ^ 32 ->
     exists st',
       body cs bytes st = Continue st' /\
       lzw_codes st' = lzw_codes st ++ (x :: prior) ++ [x] /\
       table_elements st' = table_elements st + 1 /\
       lzw_table st' (table_elements st) = Some ((x :: prior) ++ [x]) /\
       (forall i, i <> table_elements st ->
                  lzw_table st' i = lzw_table st i) /\
       oldcode st' = read_code bytes st).
Proof.
  intros Hcs R Hf Hge.
  pose proof (valid_reachable_Safe cs len bytes st Hcs R) as S.
  pose proof (reachable_Inv cs Hcs len bytes st
                (valid_reachable_reachable _ _ _ _ R)) as I.
  pose proof (pow2_code_size cs Hcs) as Hp.
  destruct (advance_keeps st) as (Af & Ac & Am & At & Ae & Ao & As & Aold).
  pose proof (advance_alloc st) as Aa.
  destruct (safe_live _ S (oldcode st) (safe_oldcode _ S Hf))
    as (x & o & Ho).
  assert (Hel : 2 ^ cs + 2 <= table_elements st) by (destruct I; lia).
  assert (Hcl : read_code bytes st <> CLEAR cs)
    by (rewrite (CLEAR_eq cs Hcs); lia).
  assert (He : read_code bytes st <> EOI cs)
    by (rewrite (EOI_eq cs Hcs); lia).
  assert (E1 : emit (advance st) (read_code bytes st)
               = Some ((x :: o) ++ [x], (x :: o) ++ [x])).
  { apply emit_next; rewrite ?Af, ?Ae, ?At, ?Aold; try assumption. }
  assert (Hroom : table_elements (advance st) + 1 < 2 ^ 32).
  { rewrite Ae. destruct I.
    pose proof (pow2_width cs (csize st) ltac:(lia) inv_csize0).
    specialize (inv_room0 ltac:(rewrite Hf; discriminate)). lia. }
  destruct (exec_decode cs (advance st) (read_code bytes st) _ _
              (or_introl (eq_trans Af Hf)) He Hcl E1 Hroom) as [Hdef Hgo].
  exists x, o.
  split; [exact Ho |]. split; [exact Hdef |].
  intros Hcount.
  destruct Hgo as (a & st2 & E2 & Hb).
  { rewrite Ao, Aa. apply (inv_alloc _ _ I). }
  { rewrite Ao. exact Hcount. }
  destruct (insert_frame _ _ E2)
    as (_ & _ & Hc2 & _ & _ & Hel2 & Hnew & Hkeep).
  fields. rewrite Ae in Hel2, Hnew, Hkeep. rewrite At in Hkeep.
  rewrite Ao in Hc2.
  exists (set_oldcode st2 (read_code bytes st)).
  split; [exact Hb |].
  fields. repeat split; assumption.
Qed.

Lemma normal_next_code (cs len : Z) (bytes : Z -> Z) (st : state) :
  2 <= cs <= 8 ->
  valid_reachable cs len bytes st ->
  flag st = NORMAL ->
  read_code bytes st = table_elements st ->
  exists x prior,
    lzw_table st (oldcode st) = Some (x :: prior) /\
    body cs bytes st <> Undef /\
    (Z.of_nat (length (lzw_codes st))
     + Z.of_nat (length ((x :: prior) ++ [x])) < 2 ^ 32 ->
     exists st',
       body cs bytes st = Continue st' /\
       lzw_codes st' = lzw_codes st ++ (x :: prior) ++ [x] /\
       table_elements st' = table_elements st + 1 /\
       lzw_table st' (read_code bytes st) = Some ((x :: prior) ++ [x]) /\
       (forall i, i <> table_elements st ->
                  lzw_table st' i = lzw_table st i) /\
       oldcode st' = read_code bytes st).
Proof.
  intros Hcs R Hf Heq.
  destruct (normal_code_from_prior cs len bytes st Hcs R Hf ltac:(lia))
    as (x & prior & Ho & Hdef & Hgo).
  exists x, prior. split; [exact Ho |]. split; [exact Hdef |].
  intros Hcount.
  destruct (Hgo Hcount) as (st' & Hb & Hc & Hel & Hnew & Hkeep & Hold).
  exists st'. rewrite Heq at 1.
  repeat split; assumption.
Qed.

(** X7. The code equal to the number of table entries, read in NORMAL mode
    of a run whose codes so far stayed within the table: the entry [prior]
    of the previous code is there and not empty; and as long as the count
    of the output stays below [2 ^ 32], the sequence
    [prior ++ [first of prior]] is appended to the output and stored as
    the entry of that very code, no other slot changes, and the code
    becomes the previous code. *)
Theorem next_code_step (cs len : Z) (bytes : Z -> Z) (st : state) :
  2 <= cs <= 8 ->
  valid_reachable cs len bytes st ->
  flag st = NORMAL ->
  read_code bytes st = table_elements st ->
  exists x prior,
    lzw_table st (oldcode st) = Some (x :: prior) /\
    (Z.of_nat (length (lzw_codes st))
     + Z.of_nat (length ((x :: prior) ++ [x])) < 2 ^ 32 ->
     exists st',
       body cs bytes st = Continue st' /\
       lzw_codes st' = lzw_codes st ++ (x :: prior) ++ [x] /\
       table_elements st' = table_elements st + 1 /\
       lzw_table st' (read_code bytes st) = Some ((x :: prior) ++ [x]) /\
       (forall i, i <> table_elements st ->
                  lzw_table st' i = lzw_table st i) /\
       oldcode st' = read_code bytes st).
Proof.
  intros Hcs R Hf Heq.
  destruct (normal_next_code cs len bytes st Hcs R Hf Heq)
    as (x & prior & Ho & _ & Hgo).
  exists x, prior. auto.
Qed.

Lemma next_code_step_witness :
  exists st,
    valid_reachable 2 2 (memory repeat_stream zeros) st /\
    flag st = NORMAL /\
    read_code (memory repeat_stream zeros) st = table_elements st /\
    exists x prior,
      lzw_table st (oldcode st) = Some (x :: prior) /\
      (Z.of_nat (length (lzw_codes st))
       + Z.of_nat (length ((x :: prior) ++ [x])) < 2 ^ 32 ->
       exists st',
         body 2 (memory repeat_stream zeros) st = Continue st' /\
         lzw_codes st' = lzw_codes st ++ (x :: prior) ++ [x] /\
         table_elements st' = table_elements st + 1 /\
         lzw_table st' (read_code (memory repeat_stream zeros) st)
         = Some ((x :: prior) ++ [x]) /\
         (forall i, i <> table_elements st ->
                    lzw_table st' i = lzw_table st i) /\
         oldcode st' = read_code (memory repeat_stream zeros) st).
Proof.
  destruct (valid_passes 2 2 (memory repeat_stream zeros) 2 (init 2))
    as [st |] eqn:E; [| vm_compute in E; discriminate E].
  assert (R : valid_reachable 2 2 (memory repeat_stream zeros) st).
  { apply (valid_passes_reachable 2 2 (memory repeat_stream zeros) 2 (init 2));
      [apply valid_init | exact E]. }
  assert (Hf : flag st = NORMAL).
  { assert (H : option_map flag
                  (valid_passes 2 2 (memory repeat_stream zeros) 2 (init 2))
                = Some NORMAL) by (vm_compute; reflexivity).
    rewrite E in H. injection H as H. exact H. }
  assert (Hc : read_code (memory repeat_stream zeros) st = table_elements st).
  { assert (H : option_map
                  (fun st => read_code (memory repeat_stream zeros) st
                             - table_elements st)
                  (valid_passes 2 2 (memory repeat_stream zeros) 2 (init 2))
                = Some 0) by (vm_compute; reflexivity).
    rewrite E in H. injection H as H. lia. }
  exists st. split; [exact R |]. split; [exact Hf |]. split; [exact Hc |].
  apply (next_code_step 2 2 (memory repeat_stream zeros) st);
    [lia | exact R | exact Hf | exact Hc].
Defined.

Lemma deferred_any_code (cs len : Z) (bytes : Z -> Z) (st : state) :
  2 <= cs <= 8 ->
  valid_reachable cs len bytes st ->
  flag st = DEFERRED ->
  read_code bytes st <> CLEAR cs ->
  read_code bytes st <> EOI cs ->
  table_elements st + 1 < 2 ^ 32 ->
  exists seq,
    lzw_table st (read_code bytes st) = Some seq /\
    body cs bytes st <> Undef /\
    (Z.of_nat (length (lzw_codes st)) + Z.of_nat (length seq) < 2 ^ 32 ->
     exists st',
       body cs bytes st = Continue st' /\
       lzw_codes st' = lzw_codes st ++ seq /\
       s st' = s st /\
       table_elements st' = table_elements st + 1 /\
       lzw_table st' (table_elements st) = Some (s st) /\
       (forall i, i <> table_elements st ->
                  lzw_table st' i = lzw_table st i) /\
       flag st' = DEFERRED /\ csize st' = 12 /\
       oldcode st' = read_code bytes st).
Proof.
  intros Hcs R Hf Hcl He Hroom.
  pose proof (valid_reachable_Safe cs len bytes st Hcs R) as S.
  pose proof (reachable_Inv cs Hcs len bytes st
                (valid_reachable_reachable _ _ _ _ R)) as I.
  pose proof (read_code_exact cs Hcs bytes st I) as Hrc.
  destruct (inv_full cs _ I Hf) as [H12 Hbig]. unfold MAX_CSIZE in *.
  destruct (advance_keeps st) as (Af & Ac & Am & At & Ae & Ao & As & Aold).
  pose proof (advance_alloc st) as Aa.
  assert (Hcode : 0 <= read_code bytes st < table_elements st).
  { rewrite Hrc, H12.
    pose proof (Z.mod_pos_bound (fetch bytes (ind st) / 2 ^ offset st)
                  (2 ^ 12) ltac:(lia)). lia. }
  destruct (safe_live _ S (read_code bytes st) Hcode) as (x & e & Hx).
  assert (E1 : emit (advance st) (read_code bytes st)
               = Some (x :: e, s (advance st))).
  { apply emit_deferred; rewrite ?Af, ?At; assumption. }
  assert (Hroom' : table_elements (advance st) + 1 < 2 ^ 32)
    by (rewrite Ae; exact Hroom).
  destruct (exec_decode cs (advance st) (read_code bytes st) _ _
              (or_intror (eq_trans Af Hf)) He Hcl E1 Hroom') as [Hdef Hgo].
  exists (x :: e).
  split; [exact Hx |]. split; [exact Hdef |].
  intros Hcount.
  destruct Hgo as (a & st2 & E2 & Hb).
  { rewrite Ao, Aa. apply (inv_alloc _ _ I). }
  { rewrite Ao. exact Hcount. }
  destruct (insert_frame _ _ E2)
    as (_ & _ & Hc2 & Hs2 & _ & Hel2 & Hnew & Hkeep).
  assert (Hrange : 0 <= csize (set_output (set_s (advance st) (s (advance st)))
                                 (lzw_codes (advance st) ++ x :: e) a)
                   < MAX_CSIZE + 1).
  { fields. rewrite Ac, H12. unfold MAX_CSIZE. lia. }
  destruct (insert_width _ st2 Hrange E2) as (_ & _ & Hsame).
  fields. rewrite Ae in Hel2, Hnew, Hkeep, Hsame. rewrite At in Hkeep.
  rewrite Ao in Hc2. rewrite As in Hs2, Hnew.
  rewrite Ac, Af, Am in Hsame.
  destruct Hsame as (Hcs2 & _ & Hf2).
  { rewrite H12. change (2 ^ 12) with 4096 in *. lia. }
  exists (set_oldcode st2 (read_code bytes st)).
  split; [exact Hb |].
  fields. repeat split; try assumption; congruence.
Qed.

(** X8. A code other than CLEAR and EOI read in DEFERRED mode of a run
    whose codes stayed within the table: its entry is there to be read;
    and as long as the count of the output stays below [2 ^ 32], the entry
    is appended to the output and nothing else is looked up; [s] is left
    as it was and is stored once more, in the slot after the last one, so
    the table grows by an entry; the mode stays DEFERRED and the width
    12. *)
Theorem deferred_code_step (cs len : Z) (bytes : Z -> Z) (st : state) :
  2 <= cs <= 8 ->
  valid_reachable cs len bytes st ->
  flag st = DEFERRED ->
  read_code bytes st <> CLEAR cs ->
  read_code bytes st <> EOI cs ->
  table_elements st + 1 < 2 ^ 32 ->
  exists seq,
    lzw_table st (read_code bytes st) = Some seq /\
    (Z.of_nat (length (lzw_codes st)) + Z.of_nat (length seq) < 2 ^ 32 ->
     exists st',
       body cs bytes st = Continue st' /\
       lzw_codes st' = lzw_codes st ++ seq /\
       s st' = s st /\
       table_elements st' = table_elements st + 1 /\
       lzw_table st' (table_elements st) = Some (s st) /\
       (forall i, i <> table_elements st ->
                  lzw_table st' i = lzw_table st i) /\
       flag st' = DEFERRED /\ csize st' = 12 /\
       oldcode st' = read_code bytes st).
Proof.
  intros Hcs R Hf Hcl He Hroom.
  destruct (deferred_any_code cs len bytes st Hcs R Hf Hcl He Hroom)
    as (seq & Hx & _ & Hgo).
  exists seq. auto.
Qed.

Lemma deferred_code_step_witness :
  exists st,
    valid_reachable 2 5631 (memory [4] zeros) st /\
    flag st = DEFERRED /\
    exists seq,
      lzw_table st (read_code (memory [4] zeros) st) = Some seq /\
      (Z.of_nat (length (lzw_codes st)) + Z.of_nat (length seq) < 2 ^ 32 ->
       exists st',
         body 2 (memory [4] zeros) st = Continue st' /\
         lzw_codes st' = lzw_codes st ++ seq /\
         s st' = s st /\
         table_elements st' = table_elements st + 1 /\
         lzw_table st' (table_elements st) = Some (s st) /\
         (forall i, i <> table_elements st ->
                    lzw_table st' i = lzw_table st i) /\
         flag st' = DEFERRED /\ csize st' = 12 /\
         oldcode st' = read_code (memory [4] zeros) st).
Proof.
  assert (H : option_map
                (fun st => (flag st, read_code (memory [4] zeros) st,
                            table_elements st))
                (valid_passes 2 5631 (memory [4] zeros) 4092 (init 2))
              = Some (DEFERRED, 0, 4096)) by (vm_compute; reflexivity).
  destruct (valid_passes 2 5631 (memory [4] zeros) 4092 (init 2))
    as [st |] eqn:E; [| discriminate H].
  cbn [option_map] in H. injection H as Hf Hc Hel.
  assert (R : valid_reachable 2 5631 (memory [4] zeros) st).
  { apply (valid_passes_reachable 2 5631 (memory [4] zeros) 4092 (init 2));
      [apply valid_init | exact E]. }
  exists st. split; [exact R |]. split; [exact Hf |].
  apply (deferred_code_step 2 5631 (memory [4] zeros) st).
  - lia.
  - exact R.
  - exact Hf.
  - rewrite Hc. vm_compute. discriminate.
  - rewrite Hc. vm_compute. discriminate.
  - rewrite Hel. lia.
Defined.

(** X9. A run whose codes stay within the table never reads a table slot
    that was not written, nor the first element of an empty entry, and
    never wraps the entry counter: if every code met in NORMAL mode was at
    most the number of table entries, and so is the next one, the pass is
    no undefined read or write (in DEFERRED mode as long as the counter is
    below UINT_MAX). *)
Theorem valid_stream_stays_in_table (cs len : Z) (bytes : Z -> Z)
    (st : state) :
  2 <= cs <= 8 ->
  valid_reachable cs len bytes st ->
  (flag st = NORMAL -> read_code bytes st <= table_elements st) ->
  (flag st = DEFERRED -> table_elements st + 1 < 2 ^ 32) ->
  body cs bytes st <> Undef.
Proof.
  intros Hcs R Hv Hd.
  set (c := read_code bytes st).
  destruct (advance_keeps st) as (Af & _).
  destruct (Z.eq_dec c (CLEAR cs)) as [Hcl | Hcl].
  { unfold body. fold c. rewrite Hcl.
    destruct (flag st) eqn:Ef.
    - unfold exec. rewrite Af, Z.eqb_refl. discriminate.
    - unfold exec. rewrite Af.
      destruct (CLEAR cs <? CLEAR cs);
        [destruct (append_codes (advance st) [CLEAR cs]) |]; discriminate.
    - rewrite exec_clear; [discriminate | exact Hcs | left; exact Af].
    - rewrite exec_clear; [discriminate | exact Hcs | right; exact Af]. }
  destruct (Z.eq_dec c (EOI cs)) as [He | He].
  { unfold body. fold c. rewrite He. unfold exec. rewrite Af.
    destruct (flag st); rewrite ?Z.eqb_refl;
      try discriminate;
      try (destruct (EOI cs =? CLEAR cs); discriminate);
      try (destruct (EOI cs <? CLEAR cs);
           [destruct (append_codes (advance st) [EOI cs]) |];
           discriminate). }
  destruct (flag st) eqn:Ef.
  - unfold body, exec. rewrite Af. fold c.
    destruct (c =? CLEAR cs); discriminate.
  - unfold body, exec. rewrite Af. fold c.
    destruct (c <? CLEAR cs); [| discriminate].
    destruct (append_codes (advance st) [c]); discriminate.
  - specialize (Hv eq_refl). fold c in Hv.
    destruct (Z_lt_le_dec c (table_elements st)) as [Hlt | Hge].
    + destruct (normal_known_code cs len bytes st Hcs R Ef Hcl He Hlt)
        as (? & ? & ? & _ & _ & Hb & _).
      exact Hb.
    + destruct (normal_next_code cs len bytes st Hcs R Ef ltac:(unfold c in *; lia))
        as (? & ? & _ & Hb & _).
      exact Hb.
  - destruct (deferred_any_code cs len bytes st Hcs R Ef Hcl He (Hd eq_refl))
      as (? & _ & Hb & _).
    exact Hb.
Qed.

Lemma valid_stream_stays_in_table_witness :
  exists st,
    valid_reachable 2 2 (memory repeat_stream zeros) st /\
    body 2 (memory repeat_stream zeros) st <> Undef.
Proof.
  assert (H : option_map
                (fun st => (flag st,
                            read_code (memory repeat_stream zeros) st
                            <=? table_elements st))
                (valid_passes 2 2 (memory repeat_stream zeros) 2 (init 2))
              = Some (NORMAL, true)) by (vm_compute; reflexivity).
  destruct (valid_passes 2 2 (memory repeat_stream zeros) 2 (init 2))
    as [st |] eqn:E; [| discriminate H].
  cbn [option_map] in H. injection H as Hf Hc.
  assert (R : valid_reachable 2 2 (memory repeat_stream zeros) st).
  { apply (valid_passes_reachable 2 2 (memory repeat_stream zeros) 2 (init 2));
      [apply valid_init | exact E]. }
  exists st. split; [exact R |].
  apply (valid_stream_stays_in_table 2 2 (memory repeat_stream zeros) st).
  - lia.
  - exact R.
  - intros _. apply Z.leb_le. exact Hc.
  - intros Hd. rewrite Hf in Hd. discriminate Hd.
Defined.

(** X22. A code greater than the number of table entries, which no
    encoder writes, is not rejected.  Read in NORMAL mode of a run whose
    codes so far stayed within the table, it makes the function neither
    return 0 nor read a slot that holds nothing defined; and as long as
    the count of the output stays below [2 ^ 32] it is obeyed like the
    code equal to the number of entries: [prior ++ [first of prior]] is
    appended to the output and stored in the next free slot, and the code
    becomes the previous code although no entry has its number. *)
Theorem code_beyond_table_is_obeyed (cs len : Z) (bytes : Z -> Z)
    (st : state) :
  2 <= cs <= 8 ->
  valid_reachable cs len bytes st ->
  flag st = NORMAL ->
  table_elements st < read_code bytes st ->
  body cs bytes st <> Return0 /\
  body cs bytes st <> Undef /\
  exists x prior,
    lzw_table st (oldcode st) = Some (x :: prior) /\
    (Z.of_nat (length (lzw_codes st))
     + Z.of_nat (length ((x :: prior) ++ [x])) < 2 ^ 32 ->
     exists st',
       body cs bytes st = Continue st' /\
       lzw_codes st' = lzw_codes st ++ (x :: prior) ++ [x] /\
       table_elements st' = table_elements st + 1 /\
       lzw_table st' (table_elements st) = Some ((x :: prior) ++ [x]) /\
       oldcode st' = read_code bytes st /\
       table_elements st' <= oldcode st').
Proof.
  intros Hcs R Hf Hgt.
  destruct (normal_code_from_prior cs len bytes st Hcs R Hf ltac:(lia))
    as (x & prior & Ho & Hdef & Hgo).
  split.
  { unfold body. apply decoding_never_returns_0.
    destruct (advance_keeps st) as (Af & _). rewrite Af. left. exact Hf. }
  split; [exact Hdef |].
  exists x, prior. split; [exact Ho |].
  intros Hcount.
  destruct (Hgo Hcount) as (st' & Hb & Hc & Hel & Hnew & _ & Hold).
  exists st'. repeat split; try assumption. lia.
Qed.

Lemma code_beyond_table_is_obeyed_witness :
  exists st,
    valid_reachable 2 2 (memory zeroed_slot_stream zeros) st /\
    table_elements st < read_code (memory zeroed_slot_stream zeros) st /\
    body 2 (memory zeroed_slot_stream zeros) st <> Return0 /\
    body 2 (memory zeroed_slot_stream zeros) st <> Undef.
Proof.
  assert (H : option_map
                (fun st => (flag st,
                            table_elements st
                            <? read_code (memory zeroed_slot_stream zeros) st))
                (valid_passes 2 2 (memory zeroed_slot_stream zeros) 2 (init 2))
              = Some (NORMAL, true)) by (vm_compute; reflexivity).
  destruct (valid_passes 2 2 (memory zeroed_slot_stream zeros) 2 (init 2))
    as [st |] eqn:E; [| discriminate H].
  cbn [option_map] in H. injection H as Hf Hc.
  apply Z.ltb_lt in Hc.
  assert (R : valid_reachable 2 2 (memory zeroed_slot_stream zeros) st).
  { apply (valid_passes_reachable 2 2 (memory zeroed_slot_stream zeros) 2
             (init 2)); [apply valid_init | exact E]. }
  exists st. split; [exact R |]. split; [exact Hc |].
  destruct (code_beyond_table_is_obeyed 2 2 (memory zeroed_slot_stream zeros)
              st ltac:(lia) R Hf Hc) as (H0 & Hu & _).
  split; assumption.
Defined.

(* --------------------------------------------------------------------- *)
(** *** Packed codes and the reader *)

Lemma to_bytes_length (n : nat) (v : Z) : length (to_bytes n v) = n.
Proof.
  revert v. induction n as [| n IH]; intros v; [reflexivity |].
  cbn [to_bytes length]. rewrite IH. reflexivity.
Qed.

Lemma to_bytes_nth (n : nat) :
  forall v i, (i < n)%nat -> 0 <= v ->
    nth i (to_bytes n v) 0 = (v / 2 ^ (8 * Z.of_nat i)) mod 256.
Proof.
  induction n as [| n IH]; intros v i Hi Hv; [lia |].
  cbn [to_bytes]. destruct i as [| i].
  - cbn [nth]. change (2 ^ (8 * Z.of_nat 0)) with 1.
    rewrite Z.div_1_r. reflexivity.
  - cbn [nth]. rewrite IH; [| lia | apply Z.div_pos; lia].
    f_equal. rewrite Z.div_div by lia. f_equal.
    replace (8 * Z.of_nat (S i)) with (8 + 8 * Z.of_nat i) by lia.
    rewrite Z.pow_add_r by lia. reflexivity.
Qed.

Lemma memory_of_number (n : nat) (v : Z) (rest : Z -> Z) (i : Z) :
  0 <= v -> 0 <= i < Z.of_nat n ->
  memory (to_bytes n v) rest i = bytes_of_number v i.
Proof.
  intros Hv Hi. unfold memory, bytes_of_number.
  rewrite to_bytes_length.
  destruct (Z.leb_spec 0 i); [| lia].
  destruct (Z.ltb_spec i (Z.of_nat n)); [| lia]. cbn [andb].
  rewrite to_bytes_nth by lia. rewrite Z2Nat.id by lia. reflexivity.
Qed.

Lemma fetch_of_number (v i : Z) :
  0 <= v -> 0 <= i ->
  fetch (bytes_of_number v) i = (v / 2 ^ (8 * i)) mod 2 ^ 24.
Proof.
  intros Hv Hi. unfold fetch, byte_at, bytes_of_number.
  rewrite !Z.mod_mod by lia.
  replace (8 * (i + 1)) with (8 * i + 8) by lia.
  replace (8 * (i + 2)) with (8 * i + 16) by lia.
  rewrite !Z.pow_add_r by lia.
  rewrite <- !Z.div_div by (try apply Z.pow_nonneg; lia).
  set (b := v / 2 ^ (8 * i)).
  change (2 ^ 24) with (256 * (256 * 256)).
  rewrite (Z.rem_mul_r b 256 (256 * 256)) by lia.
  rewrite (Z.rem_mul_r (b / 256) 256 256) by lia.
  rewrite Z.div_div by lia.
  change (2 ^ 8) with 256. change (2 ^ 16) with (256 * 256). ring.
Qed.

Lemma read_code_of_number (v : Z) (st : state) :
  0 <= v -> 0 <= ind st -> 0 <= offset st -> 0 <= csize st <= 16 ->
  offset st + csize st <= 24 ->
  mask st = 2 ^ csize st - 1 ->
  read_code (bytes_of_number v) st
  = (v / 2 ^ (8 * ind st + offset st)) mod 2 ^ csize st.
Proof.
  intros Hv Hi Ho Hc Hoc Hm.
  rewrite read_code_bits by (try assumption; lia).
  rewrite fetch_of_number by assumption.
  set (b := v / 2 ^ (8 * ind st)).
  assert (Hb : 0 <= b) by (apply Z.div_pos; [lia | apply Z.pow_pos_nonneg; lia]).
  assert (E : ((b mod 2 ^ 24) / 2 ^ offset st) mod 2 ^ csize st
              = (b / 2 ^ offset st) mod 2 ^ csize st).
  { rewrite (Z.div_mod b (2 ^ 24)) at 2 by lia.
    rewrite Z.add_comm.
    apply eq_sym. apply low_bits; lia. }
  rewrite E. unfold b.
  assert (Hp1 : 0 < 2 ^ (8 * ind st)) by (apply Z.pow_pos_nonneg; lia).
  assert (Hp2 : 0 < 2 ^ offset st) by (apply Z.pow_pos_nonneg; lia).
  rewrite Z.div_div by lia.
  rewrite <- Z.pow_add_r by lia.
  apply u16_small.
  pose proof (Z.mod_pos_bound (v / 2 ^ (8 * ind st + offset st))
                (2 ^ csize st) ltac:(apply Z.pow_pos_nonneg; lia)).
  assert (2 ^ csize st <= 2 ^ 16) by (apply Z.pow_le_mono_r; lia).
  lia.
Qed.

Lemma pack_bits_range (l : list (Z * Z)) :
  Forall fits l -> 0 <= pack_bits l < 2 ^ total_width l /\ 0 <= total_width l.
Proof.
  induction 1 as [| [w c] l [Hw Hc] _ IH]; cbn [pack_bits total_width fold_right fst snd] in *.
  - change (2 ^ 0) with 1. lia.
  - fold (total_width l). destruct IH as [IH Ht].
    rewrite Z.pow_add_r by lia.
    assert (0 < 2 ^ w) by (apply Z.pow_pos_nonneg; lia).
    split; [| lia]. nia.
Qed.

Lemma total_width_app (l1 l2 : list (Z * Z)) :
  total_width (l1 ++ l2) = total_width l1 + total_width l2.
Proof.
  induction l1 as [| [w c] l1 IH]; cbn [app total_width fold_right fst].
  - reflexivity.
  - fold (total_width (l1 ++ l2)). fold (total_width l1). rewrite IH. lia.
Qed.

Lemma pack_bits_app (l1 l2 : list (Z * Z)) :
  Forall fits l1 ->
  pack_bits (l1 ++ l2) = pack_bits l1 + 2 ^ total_width l1 * pack_bits l2.
Proof.
  induction 1 as [| [w c] l1 [Hw Hc] Hl1 IH];
    cbn [app pack_bits total_width fold_right fst snd] in *.
  - change (2 ^ 0) with 1. lia.
  - fold (total_width l1). rewrite IH.
    destruct (pack_bits_range l1 Hl1) as [_ Ht].
    rewrite Z.pow_add_r by lia. ring.
Qed.

(** The bits of the packed stream at the place of a code are that code. *)
Lemma pack_bits_at (pre suf : list (Z * Z)) (w c : Z) :
  Forall fits pre -> Forall fits suf -> fits (w, c) ->
  (pack_bits (pre ++ (w, c) :: suf) / 2 ^ total_width pre) mod 2 ^ w = c.
Proof.
  intros Hpre Hsuf [Hw Hc]. cbn [fst snd] in *.
  rewrite pack_bits_app by assumption. cbn [pack_bits].
  destruct (pack_bits_range pre Hpre) as [Hp Ht].
  destruct (pack_bits_range suf Hsuf) as [Hs _].
  assert (H2 : 0 < 2 ^ total_width pre) by (apply Z.pow_pos_nonneg; lia).
  rewrite (Z.mul_comm (2 ^ total_width pre)).
  rewrite Z.div_add by lia.
  rewrite (Z.div_small (pack_bits pre)) by lia.
  rewrite Z.add_0_l, (Z.mul_comm (2 ^ w)), Z.mod_add
    by (assert (0 < 2 ^ w) by (apply Z.pow_pos_nonneg; lia); lia).
  apply Z.mod_small. lia.
Qed.

(** The reader at the place of a code in a packed buffer reads that code,
    whatever follows the buffer in memory. *)
Lemma read_code_packed (pre suf : list (Z * Z)) (w c : Z) (rest : Z -> Z)
    (st : state) :
  Forall fits pre -> Forall fits suf -> fits (w, c) ->
  csize st = w -> mask st = 2 ^ w - 1 ->
  0 <= offset st < 8 -> 0 <= ind st ->
  8 * ind st + offset st = total_width pre ->
  read_code (memory (pack (pre ++ (w, c) :: suf)) rest) st = c.
Proof.
  intros Hpre Hsuf Hfit Hcs Hm Ho Hi Hpos.
  pose proof Hfit as [Hw Hc]. cbn [fst snd] in Hw, Hc.
  assert (Hall : Forall fits (pre ++ (w, c) :: suf)).
  { apply Forall_app. split; [assumption | constructor; assumption]. }
  destruct (pack_bits_range _ Hall) as [Hv Htot].
  destruct (pack_bits_range pre Hpre) as [_ Htp].
  destruct (pack_bits_range suf Hsuf) as [_ Hts].
  unfold pack.
  set (n := Z.to_nat ((total_width (pre ++ (w, c) :: suf) + 7) / 8)).
  assert (Hn : total_width (pre ++ (w, c) :: suf) <= 8 * Z.of_nat n).
  { unfold n. rewrite Z2Nat.id by (apply Z.div_pos; lia).
    pose proof (Z.div_mod (total_width (pre ++ (w, c) :: suf) + 7) 8
                  ltac:(lia)).
    pose proof (Z.mod_pos_bound (total_width (pre ++ (w, c) :: suf) + 7) 8
                  ltac:(lia)). lia. }
  assert (Htw : total_width (pre ++ (w, c) :: suf)
                = total_width pre + (w + total_width suf)).
  { rewrite total_width_app. reflexivity. }
  rewrite (read_code_local _ (bytes_of_number
                                (pack_bits (pre ++ (w, c) :: suf)))
             (Z.of_nat n) st); try lia.
  - rewrite read_code_of_number; try lia.
    + rewrite Hpos, Hcs. apply pack_bits_at; assumption.
    + rewrite Hm, Hcs. reflexivity.
  - rewrite Hm, Hcs. reflexivity.
  - unfold within. apply Z.leb_le. lia.
  - intros i Hi'. apply memory_of_number; lia.
Qed.

Lemma read_codes_packed (rest : Z -> Z) (suf : list (Z * Z)) :
  forall pre st,
    Forall fits pre -> Forall fits suf ->
    total_width (pre ++ suf) < 8 * (2 ^ 32 - 3) ->
    0 <= offset st < 8 -> 0 <= ind st < 2 ^ 32 ->
    8 * ind st + offset st = total_width pre ->
    read_codes (memory (pack (pre ++ suf)) rest) (map fst suf) st
    = map snd suf.
Proof.
  induction suf as [| [w c] suf IH]; intros pre st Hpre Hsuf Htot Ho Hi Hpos;
    [reflexivity |].
  inversion Hsuf as [| ? ? Hfit Hsuf']; subst.
  pose proof Hfit as [Hw Hc]. cbn [fst snd] in Hw, Hc.
  destruct (pack_bits_range suf Hsuf') as [_ Hts].
  rewrite total_width_app in Htot.
  cbn [total_width fold_right fst] in Htot. fold (total_width suf) in Htot.
  cbn [map fst snd read_codes]. f_equal.
  - apply read_code_packed; fields; try assumption; try reflexivity; lia.
  - rewrite advance_eq by (fields; lia). fields.
    replace (pre ++ (w, c) :: suf) with ((pre ++ [(w, c)]) ++ suf)
      by (rewrite <- app_assoc; reflexivity).
    pose proof (Z.div_mod (offset st + w) 8 ltac:(lia)) as Hdm.
    pose proof (Z.mod_pos_bound (offset st + w) 8 ltac:(lia)) as Hm.
    apply IH; fields.
    + apply Forall_app. split; [assumption | constructor; [assumption | constructor]].
    + assumption.
    + rewrite <- app_assoc. rewrite total_width_app.
      cbn [app total_width fold_right fst]. fold (total_width suf). lia.
    + exact Hm.
    + apply u32_bounds.
    + rewrite u32_small by lia. rewrite total_width_app.
      cbn [total_width fold_right fst]. lia.
Qed.

(** X10. Packing and reading are inverse: for codes that fit their widths
    (1 to 12 bits), the reader started at the first byte of the packed
    buffer and told the widths gives back the codes, whatever follows the
    buffer in memory. *)
Theorem packed_codes_are_read_back (wcs : list (Z * Z)) (rest : Z -> Z)
    (st : state) :
  Forall fits wcs ->
  total_width wcs < 8 * (2 ^ 32 - 3) ->
  offset st = 0 -> ind st = 0 ->
  read_codes (memory (pack wcs) rest) (map fst wcs) st = map snd wcs.
Proof.
  intros Hfit Htot Ho Hi.
  apply (read_codes_packed rest wcs [] st); try assumption.
  - constructor.
  - lia.
  - lia.
  - rewrite Ho, Hi. reflexivity.
Qed.

Lemma packed_codes_are_read_back_witness :
  read_codes (memory (pack [(3, 4); (3, 0); (4, 9); (12, 4095); (5, 17)])
                     zeros)
             (map fst [(3, 4); (3, 0); (4, 9); (12, 4095); (5, 17)])
             (init 2)
  = map snd [(3, 4); (3, 0); (4, 9); (12, 4095); (5, 17)].
Proof.
  apply (packed_codes_are_read_back
           [(3, 4); (3, 0); (4, 9); (12, 4095); (5, 17)] zeros (init 2)).
  - repeat constructor; cbn [fst snd]; lia.
  - vm_compute. reflexivity.
  - reflexivity.
  - reflexivity.
Defined.

(* --------------------------------------------------------------------- *)
(** *** From streams of codes to buffers *)

Lemma pack_length (l : list (Z * Z)) :
  Forall fits l ->
  total_width l <= 8 * Z.of_nat (length (pack l)).
Proof.
  intros Hl. destruct (pack_bits_range l Hl) as [_ Ht].
  unfold pack. rewrite to_bytes_length.
  rewrite Z2Nat.id by (apply Z.div_pos; lia).
  pose proof (Z.div_mod (total_width l + 7) 8 ltac:(lia)).
  pose proof (Z.mod_pos_bound (total_width l + 7) 8 ltac:(lia)). lia.
Qed.

Lemma loop_on_packed (cs : Z) (Hcs : 2 <= cs <= 8) (rest : Z -> Z)
    (codes : list Z) :
  forall pre st e,
    Inv cs st ->
    Forall fits pre -> Forall fits (schedule cs codes st) ->
    8 * ind st + offset st = total_width pre ->
    Z.of_nat (length (pack (pre ++ schedule cs codes st))) + 2 < 2 ^ 32 ->
    run_codes cs codes st = Some e ->
    loop cs (Z.of_nat (length (pack (pre ++ schedule cs codes st))))
         (memory (pack (pre ++ schedule cs codes st)) rest)
         (length codes) st = e.
Proof.
  induction codes as [| c codes IH]; intros pre st e I Hpre Hsch Hpos Hlen Hrun;
    [discriminate |].
  cbn [schedule] in *. cbn [run_codes] in Hrun. cbn [length loop].
  set (tail := match exec cs (advance st) c with
               | Continue st' => schedule cs codes st'
               | _ => []
               end) in *.
  inversion Hsch as [| ? ? Hfit Htail]; subst.
  pose proof Hfit as [Hw Hc]. cbn [fst snd] in Hw, Hc.
  set (all := pre ++ (csize st, c) :: tail) in *.
  assert (Hall : Forall fits all).
  { apply Forall_app. split; [assumption | constructor; assumption]. }
  pose proof (pack_length all Hall) as Hbytes.
  destruct (pack_bits_range tail Htail) as [_ Htt].
  assert (Htw : total_width all
                = total_width pre + (csize st + total_width tail)).
  { unfold all. rewrite total_width_app. reflexivity. }
  assert (Hle : ind st <= Z.of_nat (length (pack all))).
  { destruct I. lia. }
  destruct (Z.leb_spec (ind st) (Z.of_nat (length (pack all)))); [| lia].
  assert (Hread : read_code (memory (pack all) rest) st = c).
  { destruct I. unfold all.
    apply read_code_packed; try assumption; try reflexivity. lia. }
  unfold body. rewrite Hread.
  destruct (exec cs (advance st) c) as [st' | st' | | |] eqn:Hex;
    try (injection Hrun as <-; reflexivity).
  assert (Hb : body cs (memory (pack all) rest) st = Continue st')
    by (unfold body; rewrite Hread; exact Hex).
  pose proof (body_position cs Hcs _ _ Hlen st st' I Hle Hb) as Hpos'.
  unfold all, tail in *.
  replace (pre ++ (csize st, c) :: schedule cs codes st')
    with ((pre ++ [(csize st, c)]) ++ schedule cs codes st') in *
    by (rewrite <- app_assoc; reflexivity).
  apply IH; try assumption.
  - eapply Inv_body; eauto.
  - apply Forall_app. split; [assumption | constructor; [assumption | constructor]].
  - rewrite Hpos', total_width_app.
    cbn [total_width fold_right fst]. lia.
Qed.

(** X11. A stream of codes packed the way the decoder will read it (each
    code at the width in force when the decoder comes to it) is decoded
    code by code: if the codes fit their widths and make the loop end on
    EOI or on a bad code, the call on the packed buffer returns what
    feeding the codes to the loop body one by one returns, whatever
    follows the buffer in memory. *)
Theorem packed_stream_decodes_as_its_codes (cs : Z) (codes : list Z)
    (rest : Z -> Z) (e : exit) :
  2 <= cs <= 8 ->
  Forall fits (schedule cs codes (init cs)) ->
  Z.of_nat (length (encode cs codes)) + 2 <= UINT_MAX ->
  run_codes cs codes (init cs) = Some e ->
  LZWAlgorythm cs (Z.of_nat (length (encode cs codes)))
               (memory (encode cs codes) rest) (length codes) = e.
Proof.
  intros Hcs Hfit Hlen Hrun. unfold LZWAlgorythm, encode.
  apply (loop_on_packed cs Hcs rest codes [] (init cs) e); try assumption.
  - apply Inv_init. exact Hcs.
  - constructor.
  - reflexivity.
  - unfold encode, UINT_MAX in Hlen. cbn [app]. lia.
Qed.

Lemma packed_stream_decodes_as_its_codes_witness :
  returned
    (LZWAlgorythm 2 (Z.of_nat (length (encode 2 [4; 0; 1; 6; 2; 5])))
       (memory (encode 2 [4; 0; 1; 6; 2; 5]) zeros)
       (length [4; 0; 1; 6; 2; 5]))
  = Some [0; 1; 0; 1; 2].
Proof.
  assert (H : option_map returned (run_codes 2 [4; 0; 1; 6; 2; 5] (init 2))
              = Some (Some [0; 1; 0; 1; 2])) by (vm_compute; reflexivity).
  destruct (run_codes 2 [4; 0; 1; 6; 2; 5] (init 2)) as [e |] eqn:E;
    [| discriminate H].
  cbn [option_map] in H. injection H as H.
  rewrite (packed_stream_decodes_as_its_codes 2 [4; 0; 1; 6; 2; 5] zeros e).
  - exact H.
  - lia.
  - let l := eval vm_compute in (schedule 2 [4; 0; 1; 6; 2; 5] (init 2)) in
    change (Forall fits l).
    repeat constructor; cbn [fst snd]; lia.
  - vm_compute. discriminate.
  - exact E.
Defined.

(* --------------------------------------------------------------------- *)
(** *** Streams of literals *)







(* ===================================================================== *)
(** ** Further properties of the vectors *)
(* ===================================================================== *)

Module MyVectorDataFacts.
Import MyVectorData.

Lemma usz_small (x : Z) : 0 <= x < 2 ^ 64 -> usz x = x.
Proof. intros H. unfold usz. apply Z.mod_small. exact H. Qed.

Lemma resize_length (block : list Z) (n : nat) (junk : nat -> Z) :
  length (resize block n junk) = n.
Proof.
  unfold resize.
  rewrite length_app, length_firstn, length_map, length_seq. lia.
Qed.

Lemma resize_prefix (block : list Z) (n k : nat) (junk : nat -> Z) :
  (k <= length block)%nat -> (k <= n)%nat ->
  firstn k (resize block n junk) = firstn k block.
Proof.
  intros Hk Hn. unfold resize.
  rewrite firstn_app, length_firstn, firstn_firstn.
  replace (k - Nat.min n (length block))%nat with 0%nat by lia.
  cbn [firstn]. rewrite app_nil_r. f_equal. lia.
Qed.

Lemma write_at_length (block : list Z) (pos : nat) (src : list Z) :
  (pos + length src <= length block)%nat ->
  length (write_at block pos src) = length block.
Proof.
  intros H. unfold write_at.
  rewrite !length_app, length_firstn, length_skipn. lia.
Qed.

Lemma write_at_prefix (block : list Z) (pos : nat) (src : list Z) :
  (pos + length src <= length block)%nat ->
  firstn (pos + length src) (write_at block pos src)
  = firstn pos block ++ src.
Proof.
  intros H. unfold write_at.
  rewrite app_assoc.
  rewrite firstn_app.
  rewrite length_app, length_firstn.
  replace (Nat.min pos (length block)) with pos by lia.
  replace (pos + length src - (pos + length src))%nat with 0%nat by lia.
  cbn [firstn]. rewrite app_nil_r.
  apply firstn_all2. rewrite length_app, length_firstn. lia.
Qed.

Lemma append_works (v : myvector) (new_el : Z) (src : list Z)
    (answer : option (nat -> Z)) :
  sound v -> ptr v <> None ->
  0 <= new_el -> elements v + new_el < 2 ^ 32 ->
  new_el * element_size v <= Z.of_nat (length src) ->
  (alloc_elements v < elements v + new_el ->
   (alloc_elements v + elements v + new_el) * element_size v < 2 ^ 64 /\
   answer <> None) ->
  exists v',
    myv_append v new_el src answer = Some v' /\
    sound v' /\ ptr v' <> None /\
    element_size v' = element_size v /\
    elements v' = elements v + new_el /\
    alloc_elements v <= alloc_elements v' /\
    contents v'
    = contents v ++ firstn (Z.to_nat (new_el * element_size v)) src.
Proof.
  intros (Hes & Hel & Hcap & Hbytes & Hblock) Hptr Hn Hsum Hsrc Hgrow.
  assert (Hans : alloc_elements v < elements v + new_el -> answer <> None)
    by (intros Hg; apply Hgrow; exact Hg).
  unfold myv_append. destruct (ptr v) as [block |] eqn:Ep; [| contradiction].
  rewrite (LZWFacts.u32_small (elements v + new_el)) by lia.
  set (alloc_el := if alloc_elements v <? elements v + new_el
                   then (if new_el <? elements v then elements v else new_el)
                   else 0).
  assert (Ha : 0 <= alloc_el <= elements v + new_el).
  { unfold alloc_el. destruct (alloc_elements v <? elements v + new_el);
      [destruct (Z.ltb_spec new_el (elements v)) |]; lia. }
  assert (Hfit : elements v + new_el <= alloc_elements v + alloc_el).
  { unfold alloc_el.
    destruct (Z.ltb_spec (alloc_elements v) (elements v + new_el));
      [destruct (Z.ltb_spec new_el (elements v)) |]; lia. }
  assert (Hnew : 0 <= (alloc_elements v + alloc_el) * element_size v < 2 ^ 64).
  { unfold alloc_el in *.
    destruct (Z.ltb_spec (alloc_elements v) (elements v + new_el)) as [Hg | Hg].
    - destruct (Hgrow Hg) as [Hbig _].
      destruct (Z.ltb_spec new_el (elements v)); nia.
    - rewrite Z.add_0_r. nia. }
  assert (Hpos : 0 <= elements v * element_size v
                 <= alloc_elements v * element_size v) by nia.
  assert (Hcnt : 0 <= new_el * element_size v) by nia.
  assert (Hend : elements v * element_size v + new_el * element_size v
                 <= (alloc_elements v + alloc_el) * element_size v) by nia.
  assert (Hblock' : exists block',
            (if alloc_elements v <? elements v + new_el
             then match answer with
                  | Some junk =>
                      Some (resize block
                              (Z.to_nat (usz ((alloc_elements v + alloc_el)
                                              * element_size v))) junk)
                  | None => None
                  end
             else Some block) = Some block' /\
            Z.of_nat (length block')
            = (alloc_elements v + alloc_el) * element_size v /\
            firstn (Z.to_nat (elements v * element_size v)) block'
            = firstn (Z.to_nat (elements v * element_size v)) block).
  { unfold alloc_el in *.
    destruct (Z.ltb_spec (alloc_elements v) (elements v + new_el)) as [Hg | Hg].
    - destruct answer as [junk |]; [| exfalso; apply (Hans Hg); reflexivity].
      eexists. split; [reflexivity |].
      rewrite usz_small by lia. rewrite resize_length.
      split; [lia |]. apply resize_prefix; lia.
    - exists block. split; [reflexivity |]. split; [| reflexivity].
      rewrite Hblock. lia. }
  destruct Hblock' as (block' & -> & Hlen' & Hpre').
  rewrite (usz_small (elements v * element_size v)) by lia.
  rewrite (usz_small (new_el * element_size v)) by lia.
  assert (Hcap' : alloc_elements v + alloc_el < 2 ^ 64).
  { unfold alloc_el.
    destruct (Z.ltb_spec (alloc_elements v) (elements v + new_el));
      [destruct (Z.ltb_spec new_el (elements v)) |]; lia. }
  rewrite (usz_small (alloc_elements v + alloc_el)) by lia.
  destruct (Z.leb_spec (new_el * element_size v) (Z.of_nat (length src)));
    [| lia].
  destruct (Z.leb_spec (elements v * element_size v + new_el * element_size v)
              (Z.of_nat (length block'))); [| lia].
  cbn [andb]. eexists. split; [reflexivity |].
  assert (Hsl : length (firstn (Z.to_nat (new_el * element_size v)) src)
                = Z.to_nat (new_el * element_size v)).
  { rewrite length_firstn. lia. }
  unfold sound, contents. cbn [ptr element_size elements alloc_elements].
  repeat split; try lia; try discriminate.
  - rewrite write_at_length; [lia | rewrite Hsl; lia].
  - replace (Z.to_nat ((elements v + new_el) * element_size v))
      with (Z.to_nat (elements v * element_size v)
            + length (firstn (Z.to_nat (new_el * element_size v)) src))%nat
      by (rewrite Hsl; lia).
    rewrite write_at_prefix by (rewrite Hsl; lia).
    rewrite Hpre', Ep. reflexivity.
Qed.

End MyVectorDataFacts.

(** X13. Appending puts the new elements behind the old ones: when the
    vector has a block, the element counter does not wrap, the source has
    the bytes asked for and the allocator gives a block if one is needed,
    [myv_append] leaves the old contents followed by the [new_el] elements
    at [pt], with the counter raised by [new_el], the capacity not
    lowered, and the block as large as the capacity says. *)
Theorem append_puts_elements_behind (v : MyVectorData.myvector) (new_el : Z)
    (src : list Z) (answer : option (nat -> Z)) :
  MyVectorData.sound v -> MyVectorData.ptr v <> None ->
  0 <= new_el -> MyVectorData.elements v + new_el < 2 ^ 32 ->
  new_el * MyVectorData.element_size v <= Z.of_nat (length src) ->
  (MyVectorData.alloc_elements v < MyVectorData.elements v + new_el ->
   (MyVectorData.alloc_elements v + MyVectorData.elements v + new_el)
   * MyVectorData.element_size v < 2 ^ 64 /\
   answer <> None) ->
  exists v',
    MyVectorData.myv_append v new_el src answer = Some v' /\
    MyVectorData.sound v' /\ MyVectorData.ptr v' <> None /\
    MyVectorData.element_size v' = MyVectorData.element_size v /\
    MyVectorData.elements v' = MyVectorData.elements v + new_el /\
    MyVectorData.alloc_elements v <= MyVectorData.alloc_elements v' /\
    MyVectorData.contents v'
    = MyVectorData.contents v
      ++ firstn (Z.to_nat (new_el * MyVectorData.element_size v)) src.
Proof. exact (MyVectorDataFacts.append_works v new_el src answer). Qed.

Lemma append_puts_elements_behind_witness :
  exists v',
    MyVectorData.myv_append
      (MyVectorData.mkVec (Some [1; 0; 2; 0]) 2 2 2) 1 [3; 0]
      (Some (fun _ => 255)) = Some v' /\
    MyVectorData.sound v' /\ MyVectorData.ptr v' <> None /\
    MyVectorData.element_size v' = 2 /\
    MyVectorData.elements v' = 2 + 1 /\
    2 <= MyVectorData.alloc_elements v' /\
    MyVectorData.contents v'
    = MyVectorData.contents (MyVectorData.mkVec (Some [1; 0; 2; 0]) 2 2 2)
      ++ firstn (Z.to_nat (1 * 2)) [3; 0].
Proof.
  apply (append_puts_elements_behind
           (MyVectorData.mkVec (Some [1; 0; 2; 0]) 2 2 2) 1 [3; 0]
           (Some (fun _ => 255))).
  - unfold MyVectorData.sound; cbn; lia.
  - discriminate.
  - lia.
  - cbn; lia.
  - cbn; lia.
  - intros _. split; [cbn; lia | discriminate].
Defined.

Module MyVectorCopyFacts.
Import MyVectorData MyVectorDataFacts.

Lemma clear_sound (v : myvector) : sound v -> sound (myv_clear v).
Proof.
  intros (Hes & Hel & Hcap & Hbytes & Hblock).
  unfold sound, myv_clear; cbn [ptr element_size elements alloc_elements].
  repeat split; try lia; assumption.
Qed.

Lemma copy_works (v_to v_from : myvector) (answer : option (nat -> Z)) :
  sound v_to -> sound v_from ->
  ptr v_to <> None -> ptr v_from <> None ->
  element_size v_to = element_size v_from ->
  (alloc_elements v_to < elements v_from ->
   (alloc_elements v_to + elements v_from) * element_size v_to < 2 ^ 64 /\
   answer <> None) ->
  exists v',
    myv_copy v_to v_from answer = Some v' /\
    sound v' /\ ptr v' <> None /\
    elements v' = elements v_from /\
    alloc_elements v_to <= alloc_elements v' /\
    contents v' = contents v_from.
Proof.
  intros Sto Sfrom Pto Pfrom Hes Hgrow.
  pose proof (clear_sound v_to Sto) as Sc.
  destruct Sfrom as (Fes & Fel & Fcap & Fbytes & Fblock).
  unfold myv_copy.
  destruct (ptr v_from) as [src |] eqn:Ef; [| contradiction].
  destruct (Z.eqb_spec (elements v_from) 0) as [H0 | H0].
  - exists (myv_clear v_to). split; [reflexivity |].
    split; [exact Sc |]. split; [exact Pto |].
    split; [cbn; lia |]. split; [cbn; lia |].
    unfold contents. cbn [myv_clear ptr elements element_size].
    rewrite Ef, H0. destruct (ptr v_to); reflexivity.
  - destruct (append_works (myv_clear v_to) (elements v_from) src answer)
      as (v' & Happ & Sv' & Pv' & _ & Hel' & Hcap' & Hcont);
      cbn [myv_clear ptr elements element_size alloc_elements];
      try assumption; try lia.
    + rewrite Hes, Fblock. nia.
    + intros Hg. rewrite Z.add_0_l in Hg. rewrite Z.add_0_r.
      exact (Hgrow Hg).
    + exists v'. split; [exact Happ |].
      cbn [myv_clear ptr elements element_size alloc_elements] in *.
      split; [exact Sv' |]. split; [exact Pv' |].
      split; [lia |]. split; [exact Hcap' |].
      rewrite Hcont. unfold contents at 1.
      cbn [myv_clear ptr elements element_size].
      destruct (ptr v_to); [| contradiction].
      cbn [Z.mul Z.to_nat firstn app].
      unfold contents. rewrite Ef, Hes. reflexivity.
Qed.

Lemma firstn_repeat_0 (n m : nat) :
  (n <= m)%nat -> firstn n (repeat 0 m) = repeat 0 n.
Proof.
  revert m. induction n as [| n IH]; intros m H; [reflexivity |].
  destruct m as [| m]; [lia |]. cbn [repeat firstn].
  rewrite IH by lia. reflexivity.
Qed.

Lemma init_sound (el_sz el : Z) (fixed : bool) :
  0 <= el_sz -> 0 <= el < 2 ^ 32 ->
  (if el <=? MyVector.MIN_ALLOC then MyVector.MIN_ALLOC else el) * el_sz
  < 2 ^ 64 ->
  sound (myv_init el_sz el fixed true) /\
  ptr (myv_init el_sz el fixed true) <> None /\
  elements (myv_init el_sz el fixed true) = el /\
  el <= alloc_elements (myv_init el_sz el fixed true) /\
  (fixed = true -> alloc_elements (myv_init el_sz el fixed true) = el) /\
  contents (myv_init el_sz el fixed true)
  = repeat 0 (Z.to_nat (el * el_sz)).
Proof.
  unfold MyVector.MIN_ALLOC. intros Hes Hel Hbig.
  unfold myv_init, sound, contents, MyVector.MIN_ALLOC.
  cbn [ptr element_size elements alloc_elements].
  assert (Hcap : el <= (if fixed then el else if el <=? 10 then 10 else el)
                 < 2 ^ 64).
  { destruct fixed; [lia |]. destruct (Z.leb_spec el 10); lia. }
  assert (Hb : 0 <= (if fixed then el else if el <=? 10 then 10 else el)
               * el_sz < 2 ^ 64).
  { destruct fixed; [| destruct (Z.leb_spec el 10)];
      destruct (Z.leb_spec el 10); nia. }
  rewrite repeat_length.
  repeat split; try lia; try discriminate.
  - intros ->. reflexivity.
  - apply firstn_repeat_0. apply Z2Nat.inj_le; nia.
Qed.

Lemma realloc_works (v : myvector) (alloc_el : Z) (junk : nat -> Z) :
  sound v -> ptr v <> None ->
  0 <= alloc_el < 2 ^ 32 -> alloc_el * element_size v < 2 ^ 64 ->
  sound (myv_realloc v alloc_el (Some junk)) /\
  alloc_elements (myv_realloc v alloc_el (Some junk)) = alloc_el /\
  elements (myv_realloc v alloc_el (Some junk))
  = Z.min alloc_el (elements v) /\
  contents (myv_realloc v alloc_el (Some junk))
  = firstn (Z.to_nat (Z.min alloc_el (elements v) * element_size v))
           (contents v).
Proof.
  intros (Hes & Hel & Hcap & Hbytes & Hblock) Hptr Ha Hb.
  unfold myv_realloc, contents.
  destruct (ptr v) as [block |] eqn:Ep; [| contradiction].
  cbn [ptr element_size elements alloc_elements].
  rewrite usz_small by nia.
  assert (Hmin : (if alloc_el <? elements v then alloc_el else elements v)
                 = Z.min alloc_el (elements v)).
  { destruct (Z.ltb_spec alloc_el (elements v)); lia. }
  rewrite Hmin.
  assert (Hk : 0 <= Z.min alloc_el (elements v) * element_size v
               <= alloc_el * element_size v) by nia.
  assert (Hk' : Z.min alloc_el (elements v) * element_size v
                <= elements v * element_size v) by nia.
  assert (Hk'' : elements v * element_size v
                 <= alloc_elements v * element_size v) by nia.
  unfold sound. cbn [ptr element_size elements alloc_elements].
  rewrite resize_length.
  repeat split; try lia.
  rewrite resize_prefix by lia.
  rewrite firstn_firstn. f_equal. lia.
Qed.

End MyVectorCopyFacts.

(** X14. [myv_copy] makes the target hold what the source holds: for two
    vectors with blocks and the same element size, when the allocator
    gives a block if the target is too small, the target afterwards has
    the source's element count and contents, and its capacity was not
    lowered. *)
Theorem copy_gives_the_source_contents (v_to v_from : MyVectorData.myvector)
    (answer : option (nat -> Z)) :
  MyVectorData.sound v_to -> MyVectorData.sound v_from ->
  MyVectorData.ptr v_to <> None -> MyVectorData.ptr v_from <> None ->
  MyVectorData.element_size v_to = MyVectorData.element_size v_from ->
  (MyVectorData.alloc_elements v_to < MyVectorData.elements v_from ->
   (MyVectorData.alloc_elements v_to + MyVectorData.elements v_from)
   * MyVectorData.element_size v_to < 2 ^ 64 /\
   answer <> None) ->
  exists v',
    MyVectorData.myv_copy v_to v_from answer = Some v' /\
    MyVectorData.sound v' /\ MyVectorData.ptr v' <> None /\
    MyVectorData.elements v' = MyVectorData.elements v_from /\
    MyVectorData.alloc_elements v_to <= MyVectorData.alloc_elements v' /\
    MyVectorData.contents v' = MyVectorData.contents v_from.
Proof. exact (MyVectorCopyFacts.copy_works v_to v_from answer). Qed.

Lemma copy_gives_the_source_contents_witness :
  exists v',
    MyVectorData.myv_copy
      (MyVectorData.mkVec (Some [9; 9]) 2 1 1)
      (MyVectorData.mkVec (Some [1; 0; 2; 0; 7; 7]) 2 2 3)
      (Some (fun _ => 255)) = Some v' /\
    MyVectorData.sound v' /\ MyVectorData.ptr v' <> None /\
    MyVectorData.elements v' = 2 /\
    1 <= MyVectorData.alloc_elements v' /\
    MyVectorData.contents v'
    = MyVectorData.contents
        (MyVectorData.mkVec (Some [1; 0; 2; 0; 7; 7]) 2 2 3).
Proof.
  apply (copy_gives_the_source_contents
           (MyVectorData.mkVec (Some [9; 9]) 2 1 1)
           (MyVectorData.mkVec (Some [1; 0; 2; 0; 7; 7]) 2 2 3)
           (Some (fun _ => 255))).
  - unfold MyVectorData.sound; cbn; lia.
  - unfold MyVectorData.sound; cbn; lia.
  - discriminate.
  - discriminate.
  - reflexivity.
  - intros _. split; [cbn; lia | discriminate].
Defined.

(** X15. The way the decoder stores a table entry: a vector initialised
    with a fixed size of as many elements as the source holds, then filled
    by [myv_copy], ends up an exact copy (same element count, same
    contents, capacity equal to the count), and no reallocation is asked
    for on the way. *)
Theorem fixed_init_then_copy_is_exact (src : MyVectorData.myvector) :
  MyVectorData.sound src -> MyVectorData.ptr src <> None ->
  exists v',
    MyVectorData.myv_copy
      (MyVectorData.myv_init (MyVectorData.element_size src)
                             (MyVectorData.elements src) true true)
      src None = Some v' /\
    MyVectorData.sound v' /\
    MyVectorData.elements v' = MyVectorData.elements src /\
    MyVectorData.alloc_elements v' = MyVectorData.elements src /\
    MyVectorData.contents v' = MyVectorData.contents src.
Proof.
  intros S P.
  pose proof S as (Hes & Hel & Hcap & Hbytes & Hblock).
  assert (Hprod : MyVectorData.elements src * MyVectorData.element_size src
                  < 2 ^ 64) by nia.
  assert (Hinit : MyVectorData.sound
                    (MyVectorData.myv_init (MyVectorData.element_size src)
                       (MyVectorData.elements src) true true)).
  { unfold MyVectorData.myv_init, MyVectorData.sound.
    cbn [MyVectorData.ptr MyVectorData.element_size MyVectorData.elements
         MyVectorData.alloc_elements].
    rewrite repeat_length. repeat split; try lia; nia. }
  unfold MyVectorData.myv_copy.
  destruct (Z.eqb_spec (MyVectorData.elements src) 0) as [H0 | H0].
  - eexists. split; [reflexivity |].
    split; [apply MyVectorCopyFacts.clear_sound; exact Hinit |].
    cbn. rewrite H0. repeat split; try reflexivity.
    unfold MyVectorData.contents. rewrite H0.
    destruct (MyVectorData.ptr src); reflexivity.
  - destruct (MyVectorData.ptr src) as [block |] eqn:Ep; [| contradiction].
    destruct (MyVectorDataFacts.append_works
                (MyVectorData.myv_clear
                   (MyVectorData.myv_init (MyVectorData.element_size src)
                      (MyVectorData.elements src) true true))
                (MyVectorData.elements src) block None)
      as (v' & Happ & Sv' & _ & _ & Hel' & _ & Hcont);
      cbn [MyVectorData.myv_clear MyVectorData.myv_init MyVectorData.ptr
           MyVectorData.elements MyVectorData.element_size
           MyVectorData.alloc_elements];
      try lia; try discriminate.
    + apply MyVectorCopyFacts.clear_sound. exact Hinit.
    + rewrite Hblock. nia.
    + exists v'. split; [exact Happ |]. split; [exact Sv' |].
      cbn [MyVectorData.myv_clear MyVectorData.myv_init MyVectorData.ptr
           MyVectorData.elements MyVectorData.element_size
           MyVectorData.alloc_elements] in *.
      split; [lia |].
      split.
      * unfold MyVectorData.myv_append in Happ.
        cbn [MyVectorData.myv_clear MyVectorData.myv_init MyVectorData.ptr
             MyVectorData.elements MyVectorData.element_size
             MyVectorData.alloc_elements] in Happ.
        rewrite Z.add_0_l, LZWFacts.u32_small, Z.ltb_irrefl in Happ by lia.
        destruct (_ && _) in Happ; [| discriminate].
        injection Happ as <-.
        cbn [MyVectorData.alloc_elements].
        rewrite Z.add_0_r. apply MyVectorDataFacts.usz_small. lia.
      * rewrite Hcont. unfold MyVectorData.contents.
        cbn [MyVectorData.ptr MyVectorData.elements MyVectorData.element_size].
        rewrite Ep. reflexivity.
Qed.

Lemma fixed_init_then_copy_is_exact_witness :
  exists v',
    MyVectorData.myv_copy
      (MyVectorData.myv_init 2 2 true true)
      (MyVectorData.mkVec (Some [1; 0; 2; 0; 7; 7]) 2 2 3) None = Some v' /\
    MyVectorData.sound v' /\
    MyVectorData.elements v' = 2 /\
    MyVectorData.alloc_elements v' = 2 /\
    MyVectorData.contents v'
    = MyVectorData.contents
        (MyVectorData.mkVec (Some [1; 0; 2; 0; 7; 7]) 2 2 3).
Proof.
  apply (fixed_init_then_copy_is_exact
           (MyVectorData.mkVec (Some [1; 0; 2; 0; 7; 7]) 2 2 3)).
  - unfold MyVectorData.sound; cbn; lia.
  - discriminate.
Defined.

(** X16. [myv_realloc] to [alloc_el] elements keeps the first
    [min (alloc_el, elements)] elements and nothing else: shrinking cuts
    the contents, growing leaves them, and the capacity is [alloc_el]. *)
Theorem realloc_keeps_a_prefix (v : MyVectorData.myvector) (alloc_el : Z)
    (junk : nat -> Z) :
  MyVectorData.sound v -> MyVectorData.ptr v <> None ->
  0 <= alloc_el < 2 ^ 32 ->
  alloc_el * MyVectorData.element_size v < 2 ^ 64 ->
  MyVectorData.sound (MyVectorData.myv_realloc v alloc_el (Some junk)) /\
  MyVectorData.alloc_elements (MyVectorData.myv_realloc v alloc_el (Some junk))
  = alloc_el /\
  MyVectorData.elements (MyVectorData.myv_realloc v alloc_el (Some junk))
  = Z.min alloc_el (MyVectorData.elements v) /\
  MyVectorData.contents (MyVectorData.myv_realloc v alloc_el (Some junk))
  = firstn (Z.to_nat (Z.min alloc_el (MyVectorData.elements v)
                      * MyVectorData.element_size v))
           (MyVectorData.contents v).
Proof. exact (MyVectorCopyFacts.realloc_works v alloc_el junk). Qed.

Lemma realloc_keeps_a_prefix_witness :
  MyVectorData.contents
    (MyVectorData.myv_realloc
       (MyVectorData.mkVec (Some [1; 0; 2; 0; 7; 7]) 2 3 3) 2
       (Some (fun _ => 255)))
  = [1; 0; 2; 0].
Proof.
  destruct (realloc_keeps_a_prefix
              (MyVectorData.mkVec (Some [1; 0; 2; 0; 7; 7]) 2 3 3) 2
              (fun _ => 255)) as (_ & _ & _ & H).
  - unfold MyVectorData.sound; cbn; lia.
  - discriminate.
  - lia.
  - cbn; lia.
  - rewrite H. reflexivity.
Defined.

(** X17. A vector that [myv_init] could allocate holds [el] zeroed
    elements; its capacity is [el] when [fixed] and at least [MIN_ALLOC]
    otherwise. *)
Theorem init_gives_zeroed_elements (el_sz el : Z) (fixed : bool) :
  0 <= el_sz -> 0 <= el < 2 ^ 32 ->
  (if el <=? MyVector.MIN_ALLOC then MyVector.MIN_ALLOC else el) * el_sz
  < 2 ^ 64 ->
  MyVectorData.sound (MyVectorData.myv_init el_sz el fixed true) /\
  MyVectorData.elements (MyVectorData.myv_init el_sz el fixed true) = el /\
  (fixed = true ->
   MyVectorData.alloc_elements (MyVectorData.myv_init el_sz el fixed true)
   = el) /\
  (fixed = false ->
   MyVector.MIN_ALLOC
   <= MyVectorData.alloc_elements (MyVectorData.myv_init el_sz el fixed true)) /\
  MyVectorData.contents (MyVectorData.myv_init el_sz el fixed true)
  = repeat 0 (Z.to_nat (el * el_sz)).
Proof.
  intros Hes Hel Hbig.
  destruct (MyVectorCopyFacts.init_sound el_sz el fixed Hes Hel Hbig)
    as (S & _ & He & _ & Hf & Hc).
  split; [exact S |]. split; [exact He |]. split; [exact Hf |].
  split; [| exact Hc].
  intros ->. unfold MyVectorData.myv_init, MyVector.MIN_ALLOC.
  cbn [MyVectorData.alloc_elements].
  destruct (Z.leb_spec el 10); lia.
Qed.

Lemma init_gives_zeroed_elements_witness :
  MyVectorData.contents (MyVectorData.myv_init 2 3 false true)
  = repeat 0 (Z.to_nat (3 * 2)).
Proof.
  destruct (init_gives_zeroed_elements 2 3 false) as (_ & _ & _ & _ & H).
  - lia.
  - lia.
  - vm_compute. reflexivity.
  - exact H.
Defined.

(* ===================================================================== *)
(** ** Properties of the block reader *)
(* ===================================================================== *)

Module BlocksFacts.
Import MyVectorData MyVectorDataFacts Blocks.

Lemma resize_write (old got : list Z) (junk : nat -> Z) :
  write_at (resize old (length old + length got) junk) (length old) got
  = old ++ got.
Proof.
  unfold write_at, resize.
  rewrite firstn_app, length_firstn.
  replace (Nat.min (length old + length got) (length old)) with (length old)
    by lia.
  rewrite Nat.sub_diag. cbn [firstn]. rewrite app_nil_r.
  rewrite firstn_firstn.
  replace (Nat.min (length old) (length old + length got)) with (length old)
    by lia.
  rewrite firstn_all.
  rewrite skipn_all2; [rewrite app_nil_r; reflexivity |].
  rewrite length_app, length_firstn, length_map, length_seq. lia.
Qed.

(** One turn of the loop on a block that the file holds in full, with the
    next length byte behind it. *)
Lemma read_loop_block (fuel : nat) (junk : nat -> Z)
    (b acc rest : list Z) (next : Z) :
  (1 <= length b)%nat ->
  Z.of_nat (length acc + length b) < 2 ^ 64 ->
  read_loop (S fuel) junk (Z.of_nat (length b)) (held acc)
            (Z.of_nat (length acc)) (b ++ next :: rest)
  = read_loop fuel junk (next mod 256) (Some (acc ++ b))
              (Z.of_nat (length (acc ++ b))) rest.
Proof.
  intros Hb Hlen. cbn [read_loop].
  destruct (Z.eqb_spec (Z.of_nat (length b)) 0); [lia |].
  rewrite usz_small by lia.
  rewrite <- Nat2Z.inj_add, !Nat2Z.id.
  rewrite firstn_app, firstn_all, Nat.sub_diag. cbn [firstn].
  rewrite app_nil_r.
  rewrite skipn_app, skipn_all, Nat.sub_diag. cbn [skipn app read_size].
  replace (match held acc with Some b0 => b0 | None => [] end) with acc
    by (destruct acc; reflexivity).
  rewrite resize_write, length_app. reflexivity.
Qed.

Lemma held_app (acc b : list Z) :
  (1 <= length b)%nat -> held (acc ++ b) = Some (acc ++ b).
Proof.
  intros Hb. destruct b; [cbn in Hb; lia |]. destruct acc; reflexivity.
Qed.

(** The loop on a chain of blocks followed by its terminator. *)
Lemma read_loop_chain (junk : nat -> Z) (blocks : list (list Z)) :
  forall (b : list Z) (acc tail : list Z),
    Forall block_ok (b :: blocks) ->
    Z.of_nat (length acc + length (concat (b :: blocks))) < 2 ^ 64 ->
    read_loop (S (S (length blocks))) junk (Z.of_nat (length b))
              (held acc) (Z.of_nat (length acc))
              (b ++ block_chain blocks ++ 0 :: tail)
    = Some (Some (acc ++ concat (b :: blocks)),
            Z.of_nat (length (acc ++ concat (b :: blocks))), tail).
Proof.
  induction blocks as [| b' blocks IH]; intros b acc tail Hok Hlen.
  - inversion Hok as [| ? ? Hb _]; subst. unfold block_ok in Hb.
    cbn [concat length block_chain map app] in *.
    rewrite app_nil_r in *.
    rewrite read_loop_block by lia. reflexivity.
  - inversion Hok as [| ? ? Hb Hok']; subst. unfold block_ok in Hb.
    inversion Hok' as [| ? ? Hb' _]; subst. unfold block_ok in Hb'.
    cbn [concat] in Hlen. rewrite !length_app in Hlen.
    cbn [block_chain map concat length].
    fold (block_chain blocks). cbn [app]. rewrite <- app_assoc.
    rewrite read_loop_block by lia.
    rewrite Z.mod_small by lia.
    rewrite <- held_app by lia.
    rewrite IH; [| exact Hok' | cbn [concat]; rewrite !length_app; lia].
    cbn [concat]. rewrite <- !app_assoc. reflexivity.
Qed.

(** With the file used up, a size other than 0 stays as it is. *)
Lemma read_loop_starved (junk : nat -> Z) (fuel : nat) :
  forall (size : Z) (bytes : option (list Z)) (tot_size : Z),
    size <> 0 -> read_loop fuel junk size bytes tot_size [] = None.
Proof.
  induction fuel as [| fuel IH]; intros size bytes tot_size Hs.
  - reflexivity.
  - cbn [read_loop].
    destruct (Z.eqb_spec size 0); [contradiction |].
    rewrite skipn_nil. cbn [read_size]. apply IH. exact Hs.
Qed.

(** The loop on a chain of blocks with nothing behind it. *)
Lemma read_loop_open_chain (junk : nat -> Z) (fuel : nat) :
  forall (blocks : list (list Z)) (b acc : list Z),
    Forall block_ok (b :: blocks) ->
    Z.of_nat (length acc + length (concat (b :: blocks))) < 2 ^ 64 ->
    read_loop fuel junk (Z.of_nat (length b)) (held acc)
              (Z.of_nat (length acc)) (b ++ block_chain blocks)
    = None.
Proof.
  induction fuel as [| fuel IH]; intros blocks b acc Hok Hlen.
  - reflexivity.
  - inversion Hok as [| ? ? Hb Hok']; subst. unfold block_ok in Hb.
    destruct blocks as [| b' blocks].
    + cbn [block_chain map concat]. rewrite app_nil_r.
      cbn [read_loop].
      destruct (Z.eqb_spec (Z.of_nat (length b)) 0); [lia |].
      rewrite Nat2Z.id, skipn_all. cbn [read_size].
      apply read_loop_starved. lia.
    + inversion Hok' as [| ? ? Hb' _]; subst. unfold block_ok in Hb'.
      cbn [concat] in Hlen. rewrite !length_app in Hlen.
      cbn [block_chain map concat]. fold (block_chain blocks).
      cbn [app].
      rewrite read_loop_block by lia.
      rewrite Z.mod_small by lia.
      rewrite <- held_app by lia.
      apply IH; [exact Hok' | cbn [concat]; rewrite !length_app; lia].
Qed.

End BlocksFacts.

(** X18. [read_blocks] undoes the sub-block framing: on a file that holds
    a chain of blocks of 1 to 255 bytes, each behind its length byte, and
    then a zero length byte, it leaves in [bytes] the blocks joined in
    order and in [tot_size] their total length, with the file position
    behind the terminator; an empty chain leaves the null pointer and 0. *)
Theorem read_blocks_joins_the_blocks (junk : nat -> Z) (size0 : Z)
    (blocks : list (list Z)) (tail : list Z) :
  Forall Blocks.block_ok blocks ->
  Z.of_nat (length (concat blocks)) < 2 ^ 64 ->
  Blocks.read_blocks (S (length blocks)) junk size0
                     (Blocks.encode_blocks blocks ++ tail)
  = Some (match blocks with [] => None | _ => Some (concat blocks) end,
          Z.of_nat (length (concat blocks)), tail).
Proof.
  intros Hok Hlen. unfold Blocks.read_blocks, Blocks.encode_blocks.
  destruct blocks as [| b blocks].
  - reflexivity.
  - inversion Hok as [| ? ? Hb _]; subst. unfold Blocks.block_ok in Hb.
    cbn [Blocks.block_chain map concat app Blocks.read_size].
    rewrite Z.mod_small by lia.
    fold (Blocks.block_chain blocks).
    rewrite <- !app_assoc. cbn [app].
    exact (BlocksFacts.read_loop_chain junk blocks b [] tail Hok Hlen).
Qed.

Lemma read_blocks_joins_the_blocks_witness :
  Blocks.read_blocks (S (length [[1; 2; 3]; [4]])) (fun _ => 255) 77
                     (Blocks.encode_blocks [[1; 2; 3]; [4]] ++ [59])
  = Some (Some (concat [[1; 2; 3]; [4]]),
          Z.of_nat (length (concat [[1; 2; 3]; [4]])), [59]).
Proof.
  apply (read_blocks_joins_the_blocks (fun _ => 255) 77 [[1; 2; 3]; [4]] [59]).
  - repeat constructor; cbn; lia.
  - vm_compute. reflexivity.
Defined.

(** X19. [read_blocks] does not see the end of the file: on a file that
    ends behind the last block of a chain, with no zero length byte, the
    loop is never left, whatever the number of turns allowed. *)
Theorem read_blocks_needs_the_terminator (fuel : nat) (junk : nat -> Z)
    (size0 : Z) (b : list Z) (blocks : list (list Z)) :
  Forall Blocks.block_ok (b :: blocks) ->
  Z.of_nat (length (concat (b :: blocks))) < 2 ^ 64 ->
  Blocks.read_blocks fuel junk size0 (Blocks.block_chain (b :: blocks))
  = None.
Proof.
  intros Hok Hlen. unfold Blocks.read_blocks.
  inversion Hok as [| ? ? Hb _]; subst. unfold Blocks.block_ok in Hb.
  cbn [Blocks.block_chain map concat app Blocks.read_size].
  rewrite Z.mod_small by lia.
  fold (Blocks.block_chain blocks).
  exact (BlocksFacts.read_loop_open_chain junk fuel blocks b [] Hok Hlen).
Qed.

Lemma read_blocks_needs_the_terminator_witness :
  Blocks.read_blocks 1000 (fun _ => 255) 77
                     (Blocks.block_chain ([1; 2; 3] :: [[4]]))
  = None.
Proof.
  apply (read_blocks_needs_the_terminator 1000 (fun _ => 255) 77
           [1; 2; 3] [[4]]).
  - repeat constructor; cbn; lia.
  - vm_compute. reflexivity.
Defined.

(** X20. [main] hands the decoder what the blocks hold: on a file with a
    chain of blocks at offset 205, the result is that of [LZWAlgorythm]
    with code size 4 on the joined blocks and their total length. *)
Theorem main_decodes_the_joined_blocks (fuel : nat) (junk : nat -> Z)
    (size0 : Z) (head tail : list Z) (b : list Z) (blocks : list (list Z))
    (rest : Z -> Z) :
  length head = 205%nat ->
  Forall Blocks.block_ok (b :: blocks) ->
  Z.of_nat (length (concat (b :: blocks))) < 2 ^ 32 ->
  Blocks.main_decode (S (S (length blocks))) fuel junk size0
    (head ++ Blocks.encode_blocks (b :: blocks) ++ tail) rest
  = Some (LZW.LZWAlgorythm 4 (Z.of_nat (length (concat (b :: blocks))))
            (LZW.memory (concat (b :: blocks)) rest) fuel).
Proof.
  intros Hh Hok Hlen. unfold Blocks.main_decode.
  rewrite skipn_app, skipn_all2 by lia.
  rewrite Hh, Nat.sub_diag. cbn [skipn app].
  unfold Blocks.read_blocks, Blocks.encode_blocks.
  inversion Hok as [| ? ? Hb _]; subst. unfold Blocks.block_ok in Hb.
  cbn [Blocks.block_chain map concat app Blocks.read_size].
  rewrite Z.mod_small by lia.
  fold (Blocks.block_chain blocks).
  rewrite <- !app_assoc. cbn [app].
  assert (H64 : Z.of_nat (length (@nil Z) + length (concat (b :: blocks)))
                < 2 ^ 64).
  { cbn [length Nat.add].
    assert (2 ^ 32 < 2 ^ 64) by (apply Z.pow_lt_mono_r; lia). lia. }
  pose proof (BlocksFacts.read_loop_chain junk blocks b [] tail Hok H64) as H.
  cbn [Blocks.held length app] in H. change (Z.of_nat 0) with 0 in H.
  rewrite H.
  rewrite LZWFacts.u32_small by lia. reflexivity.
Qed.

Lemma main_decodes_the_joined_blocks_witness :
  Blocks.main_decode (S (S (length [[6]]))) 10 (fun _ => 255) 77
    (repeat 0 205 ++ Blocks.encode_blocks ([16; 2] :: [[6]]) ++ [59])
    (fun _ => 0)
  = Some (LZW.LZWAlgorythm 4 (Z.of_nat (length (concat ([16; 2] :: [[6]]))))
            (LZW.memory (concat ([16; 2] :: [[6]])) (fun _ => 0)) 10).
Proof.
  apply (main_decodes_the_joined_blocks 10 (fun _ => 255) 77
           (repeat 0 205) [59] [16; 2] [[6]] (fun _ => 0)).
  - apply repeat_length.
  - repeat constructor; cbn; lia.
  - vm_compute. reflexivity.
Defined.

(** X21. The growth policy of [myv_append] on a live vector when the
    allocator succeeds and no counter wraps: with room for the new
    elements neither the capacity nor the block changes; without room the
    capacity grows by the larger of the old element count and the number
    appended, which is more than half of the old capacity and leaves the
    new capacity below twice the new element count. *)
Theorem append_grows_by_the_larger_count (v : MyVector.myvector)
    (new_el p : Z) :
  MyVector.wf v ->
  MyVector.ptr v <> 0 ->
  p <> 0 ->
  0 <= new_el ->
  MyVector.elements v + new_el < 2 ^ 32 ->
  MyVector.alloc_elements v + MyVector.elements v + new_el < 2 ^ 64 ->
  let v' := MyVector.myv_append v new_el p in
  MyVector.elements v' = MyVector.elements v + new_el /\
  MyVector.element_size v' = MyVector.element_size v /\
  (MyVector.elements v + new_el <= MyVector.alloc_elements v ->
   MyVector.alloc_elements v' = MyVector.alloc_elements v /\
   MyVector.ptr v' = MyVector.ptr v) /\
  (MyVector.alloc_elements v < MyVector.elements v + new_el ->
   MyVector.alloc_elements v'
   = MyVector.alloc_elements v + Z.max (MyVector.elements v) new_el /\
   MyVector.ptr v' = p /\
   3 * MyVector.alloc_elements v < 2 * MyVector.alloc_elements v' /\
   MyVector.alloc_elements v' < 2 * MyVector.elements v').
Proof.
  intros (He & Ha & Hea) Hp Hq Hn Hsum Hcap v'. subst v'.
  unfold MyVector.myv_append, MyVector.must_grow.
  apply Z.eqb_neq in Hp. rewrite Hp.
  rewrite (LZWFacts.u32_small (MyVector.elements v + new_el)) by lia.
  destruct (Z.ltb_spec (MyVector.alloc_elements v)
                       (MyVector.elements v + new_el)) as [Hg | Hg].
  - apply Z.eqb_neq in Hq. rewrite Hq. cbn [MyVector.elements
      MyVector.element_size MyVector.alloc_elements MyVector.ptr].
    assert (Hm : (if new_el <? MyVector.elements v
                  then MyVector.elements v else new_el)
                 = Z.max (MyVector.elements v) new_el).
    { destruct (Z.ltb_spec new_el (MyVector.elements v)); lia. }
    rewrite Hm.
    rewrite MyVectorDataFacts.usz_small by lia.
    split; [reflexivity |]. split; [reflexivity |].
    split; [intros H; lia |].
    intros _. split; [reflexivity |]. split; [reflexivity |]. lia.
  - rewrite Hp. cbn [MyVector.elements MyVector.element_size
      MyVector.alloc_elements MyVector.ptr].
    rewrite Z.add_0_r, MyVectorDataFacts.usz_small by lia.
    split; [reflexivity |]. split; [reflexivity |].
    split; [intros _; split; reflexivity |].
    intros H; lia.
Qed.

Lemma append_grows_by_the_larger_count_witness :
  MyVector.alloc_elements
    (MyVector.myv_append (MyVector.mkVec 4096 2 10 10) 3 8192)
  = 10 + Z.max 10 3.
Proof.
  apply (append_grows_by_the_larger_count (MyVector.mkVec 4096 2 10 10)
           3 8192); cbn; try lia.
  unfold MyVector.wf; cbn; lia.
Defined.
